(** * gog-backup: catalog expansion, transfer workers, rate limiters, shutdown

    A shallow embedding of [cmd/gog-backup/main.go], of the local backend
    ([package local]) and of the object-store backend
    ([internal/gog-backup/backend/s3/download.go]).

    Go strings are byte sequences: they are modelled by [string], whose
    characters ([ascii]) are the bytes.  Files and objects at the
    destination live in a finite map from path (or key) to content. *)

From Stdlib Require Import ZArith Lia List String Ascii Bool.
From stdpp Require Import gmap strings.
Import ListNotations.
Open Scope string_scope.

(* ===================================================================== *)
(** * Part I: definitions *)
(* ===================================================================== *)

(** ** The pieces of Go's [unicode/utf8], [unicode] and [strings] packages
       that [safePath] goes through *)

Module utf8.

Definition RuneError : Z := 65533.
Definition RuneSelf : Z := 128.
Definition UTFMax : nat := 4.

Definition byteZ (c : ascii) : Z := Z.of_N (N_of_ascii c).

(** [s[i]] for an index known to be in range; [0] stands for no byte. *)
Definition at_ (s : string) (i : nat) : Z :=
  match String.get i s with
  | Some c => byteZ c
  | None => 0
  end.

(** The [first] table together with [acceptRanges]: for a leading byte,
    the encoded size and the range the second byte must lie in;
    [None] is the table's [xx] (an invalid leading byte). *)
Definition lead (b : Z) : option (nat * Z * Z) :=
  if (b <? 128)%Z then Some (1%nat, 0, 0)%Z
  else if (b <? 194)%Z then None
  else if (b <? 224)%Z then Some (2%nat, 128, 191)%Z
  else if (b =? 224)%Z then Some (3%nat, 160, 191)%Z
  else if (b <? 237)%Z then Some (3%nat, 128, 191)%Z
  else if (b =? 237)%Z then Some (3%nat, 128, 159)%Z
  else if (b <? 240)%Z then Some (3%nat, 128, 191)%Z
  else if (b =? 240)%Z then Some (4%nat, 144, 191)%Z
  else if (b <? 244)%Z then Some (4%nat, 128, 191)%Z
  else if (b =? 244)%Z then Some (4%nat, 128, 143)%Z
  else None.

Definition in_range (lo hi b : Z) : bool := ((lo <=? b) && (b <=? hi))%Z.

(** [utf8.DecodeRuneInString]: the first rune of [s] and its width in
    bytes; an invalid or short encoding is [(RuneError, 1)], the empty
    string [(RuneError, 0)]. *)
Definition DecodeRuneInString (s : string) : Z * nat :=
  let n := String.length s in
  if (n <? 1)%nat then (RuneError, 0%nat)
  else
    let s0 := at_ s 0 in
    match lead s0 with
    | None => (RuneError, 1%nat)
    | Some (sz, lo, hi) =>
        if (sz =? 1)%nat then (s0, 1%nat)
        else if (n <? sz)%nat then (RuneError, 1%nat)
        else
          let s1 := at_ s 1 in
          if negb (in_range lo hi s1) then (RuneError, 1%nat)
          else if (sz <=? 2)%nat then
            (Z.lor (Z.shiftl (Z.land s0 31) 6) (Z.land s1 63), 2%nat)
          else
            let s2 := at_ s 2 in
            if negb (in_range 128 191 s2) then (RuneError, 1%nat)
            else if (sz <=? 3)%nat then
              (Z.lor (Z.lor (Z.shiftl (Z.land s0 15) 12)
                            (Z.shiftl (Z.land s1 63) 6))
                     (Z.land s2 63), 3%nat)
            else
              let s3 := at_ s 3 in
              if negb (in_range 128 191 s3) then (RuneError, 1%nat)
              else
                (Z.lor (Z.lor (Z.lor (Z.shiftl (Z.land s0 7) 18)
                                     (Z.shiftl (Z.land s1 63) 12))
                              (Z.shiftl (Z.land s2 63) 6))
                       (Z.land s3 63), 4%nat)
    end.

(** [utf8.RuneStart]: not a continuation byte. *)
Definition RuneStart (b : Z) : bool := negb (Z.land b 192 =? 128)%Z.

(** The backwards scan of [DecodeLastRuneInString]: from [start] down to
    [lim], stop at the first byte that can start a rune.  [k] counts the
    positions still to try; the result is an integer because the scan
    can leave [start] at [lim - 1]. *)
Fixpoint scan_back (s : string) (start : Z) (k : nat) : Z :=
  match k with
  | O => start
  | S k' =>
      if RuneStart (at_ s (Z.to_nat start)) then start
      else scan_back s (start - 1)%Z k'
  end.

(** [utf8.DecodeLastRuneInString]. *)
Definition DecodeLastRuneInString (s : string) : Z * nat :=
  let end_ := String.length s in
  if (end_ =? 0)%nat then (RuneError, 0%nat)
  else
    let r := at_ s (end_ - 1) in
    if (r <? RuneSelf)%Z then (r, 1%nat)
    else
      let lim := (end_ - UTFMax)%nat in
      let start0 := (Z.of_nat end_ - 2)%Z in
      let tries := Z.to_nat (start0 - Z.of_nat lim + 1) in
      let start1 := scan_back s start0 tries in
      let start := Z.to_nat (Z.max 0 start1) in
      let '(r', size) := DecodeRuneInString (substring start (end_ - start) s) in
      if negb (start + size =? end_)%nat then (RuneError, 1%nat)
      else (r', size).

End utf8.

Module unicode.

(** [unicode.IsSpace]: the Latin-1 switch, then the [White_Space] table. *)
Definition IsSpace (r : Z) : bool :=
  if (r <=? 255)%Z then
    (((9 <=? r) && (r <=? 13)) || (r =? 32) || (r =? 133) || (r =? 160))%Z
  else
    ((r =? 5760) || ((8192 <=? r) && (r <=? 8202)) || (r =? 8232)
     || (r =? 8233) || (r =? 8239) || (r =? 8287) || (r =? 12288))%Z.

End unicode.

Module strings.

(** [s[a:b]] for [a <= b <= len(s)]. *)
Definition slice (s : string) (a b : nat) : string := substring a (b - a) s.

(** [s[a:]]. *)
Definition slice_from (s : string) (a : nat) : string :=
  substring a (String.length s - a) s.

(** The [asciiSpace] table: tab, newline, vertical tab, form feed,
    carriage return, space. *)
Definition asciiSpace (c : Z) : bool :=
  (((9 <=? c) && (c <=? 13)) || (c =? 32))%Z.

(** [indexFunc(s, f, false)] followed by [s[i:]] (and [""] when every rune
    satisfies [f]), as [TrimLeftFunc] does.  [range] over a string decodes
    one rune after the other; every rune is at least one byte wide, so
    [k = len(s)] iterations are enough. *)
Fixpoint trim_left_loop (f : Z -> bool) (k : nat) (s : string) : string :=
  match k with
  | O => s
  | S k' =>
      match s with
      | EmptyString => EmptyString
      | String _ _ =>
          let '(r, w) := utf8.DecodeRuneInString s in
          if f r then trim_left_loop f k' (slice_from s w) else s
      end
  end.

Definition TrimLeftFunc (s : string) (f : Z -> bool) : string :=
  trim_left_loop f (String.length s) s.

(** [lastIndexFunc(s, f, false)]: the index at which the last rune that
    does not satisfy [f] starts; [None] is Go's [-1]. *)
Fixpoint lastIndexFunc_loop (f : Z -> bool) (k : nat) (s : string) (i : nat)
  : option nat :=
  match k with
  | O => None
  | S k' =>
      if (i =? 0)%nat then None
      else
        let '(r, size) := utf8.DecodeLastRuneInString (slice s 0 i) in
        let i' := (i - size)%nat in
        if negb (f r) then Some i' else lastIndexFunc_loop f k' s i'
  end.

Definition TrimRightFunc (s : string) (f : Z -> bool) : string :=
  match lastIndexFunc_loop f (String.length s) s (String.length s) with
  | Some i =>
      if (utf8.RuneSelf <=? utf8.at_ s i)%Z then
        let '(_, wid) := utf8.DecodeRuneInString (slice_from s i) in
        slice s 0 (i + wid)
      else slice s 0 (i + 1)
  | None => slice s 0 0
  end.

Definition TrimFunc (s : string) (f : Z -> bool) : string :=
  TrimRightFunc (TrimLeftFunc s f) f.

(** Second loop of [TrimSpace]: [stop] walks down from [len(s)] over
    ASCII white space. *)
Fixpoint trim_space_stop (s : string) (stop : nat) : string :=
  match stop with
  | O => slice s 0 0
  | S k =>
      let c := utf8.at_ s k in
      if (utf8.RuneSelf <=? c)%Z then TrimRightFunc (slice s 0 stop) unicode.IsSpace
      else if asciiSpace c then trim_space_stop s k
      else slice s 0 stop
  end.

(** First loop of [TrimSpace]: [s] is what is left from [start] on. *)
Fixpoint trim_space_start (s : string) : string :=
  match s with
  | EmptyString => EmptyString
  | String c t =>
      if (utf8.RuneSelf <=? utf8.byteZ c)%Z then TrimFunc s unicode.IsSpace
      else if asciiSpace (utf8.byteZ c) then trim_space_start t
      else trim_space_stop s (String.length s)
  end.

(** [strings.TrimSpace]. *)
Definition TrimSpace (s : string) : string := trim_space_start s.

(** [strings.Replace] for a non-empty [old]: scan from the left; at an
    occurrence of [old] (while replacements remain: [lim = None] is
    "no limit") write [new] and jump over the occurrence ([skip] counts
    the bytes of it still to jump); otherwise copy the byte. *)
Fixpoint replace_from (old new : string) (lim : option nat) (skip : nat)
         (s : string) : string :=
  match s with
  | EmptyString => EmptyString
  | String c t =>
      match skip with
      | S k => replace_from old new lim k t
      | O =>
          match lim with
          | Some O => String c (replace_from old new lim 0 t)
          | _ =>
              if String.prefix old s then
                new ++ replace_from old new (pred <$> lim) (String.length old - 1) t
              else String c (replace_from old new lim 0 t)
          end
      end
  end.

(** [strings.Replace] for [old = ""]: [new] goes in front of every rune
    and after the last one, while replacements remain. *)
Fixpoint replace_empty (new : string) (lim : option nat) (skip : nat)
         (s : string) : string :=
  match s with
  | EmptyString => match lim with Some O => EmptyString | _ => new end
  | String c t =>
      match skip with
      | S k => String c (replace_empty new lim k t)
      | O =>
          match lim with
          | Some O => String c (replace_empty new lim 0 t)
          | _ =>
              new ++ String c (replace_empty new (pred <$> lim)
                                 (snd (utf8.DecodeRuneInString s) - 1) t)
          end
      end
  end.

(** [strings.Replace(s, old, new, n)]; [n < 0] is no limit. *)
Definition Replace (s old new : string) (n : Z) : string :=
  if (old =? new) || (n =? 0)%Z then s
  else
    let lim := if (n <? 0)%Z then None else Some (Z.to_nat n) in
    match old with
    | EmptyString => replace_empty new lim 0 s
    | String _ _ => replace_from old new lim 0 s
    end.

(** [trimRightByte(s, c)], the path [strings.TrimRight] takes for a
    cutset of one ASCII byte: drop [c] from the end while it is there. *)
Fixpoint trimRightByte (s : string) (c : ascii) : string :=
  match s with
  | EmptyString => EmptyString
  | String a t =>
      match trimRightByte t c with
      | EmptyString => if Ascii.eqb a c then EmptyString else String a EmptyString
      | t' => String a t'
      end
  end.

End strings.

(** [path.Clean] and [path.Join] of Go's [path] package, which the
    object-store backend builds its keys with. *)
Module path.

(** The elements of [s] between slashes; [cur] collects the current one. *)
Fixpoint split_slash (cur : string) (s : string) : list string :=
  match s with
  | EmptyString => [cur]
  | String c t =>
      if Ascii.eqb c "/"%char then cur :: split_slash "" t
      else split_slash (cur ++ String c "") t
  end.

(** One element of the path against the elements kept so far (last one
    first): empty and [.] elements go, [..] takes the element before it
    away, or stays when there is none to take and the path is not
    rooted. *)
Definition clean_step (rooted : bool) (kept : list string) (e : string)
  : list string :=
  if (e =? "") || (e =? ".") then kept
  else if e =? ".." then
    match kept with
    | top :: rest => if top =? ".." then e :: kept else rest
    | [] => if rooted then [] else [e]
    end
  else e :: kept.

Fixpoint join_slash (l : list string) : string :=
  match l with
  | [] => ""
  | [e] => e
  | e :: l' => e ++ "/" ++ join_slash l'
  end.

(** [path.Clean]. *)
Definition Clean (p : string) : string :=
  let rooted := String.prefix "/" p in
  let kept := fold_left (clean_step rooted) (split_slash "" p) [] in
  let out := (if rooted then "/" else "") ++ join_slash (rev kept) in
  if out =? "" then "." else out.

(** [path.Join] of two elements: empty elements are ignored, the rest
    is joined with a slash and cleaned; all empty gives [""]. *)
Definition Join (a b : string) : string :=
  if (a =? "") && (b =? "") then ""
  else if a =? "" then Clean b
  else if b =? "" then Clean a
  else Clean (a ++ "/" ++ b).

End path.

(* ===================================================================== *)
(** ** Data of the catalog client and of the backends *)

(** The types of [pkg/gog] as [main.go] uses them: a downloadable file
    (an extra or an installer), a download group with its per-platform
    files, and the details of a game with its nested add-ons. *)
Module gog.

Record File := {
  Name : string;
  Size : string;
  Version : string;
  ManualDownloadURL : string
}.

Record Platforms := {
  Windows : list File;
  Mac : list File;
  Linux : list File
}.

#[warnings="-register-all"]
Inductive GameDetails := Game {
  Title : string;
  Extras : list File;
  Downloads : list Platforms;
  DLCs : list GameDetails
}.

(** Number of games in a tree of add-ons. *)
Fixpoint count (g : GameDetails) : nat :=
  S ((fix sum (l : list GameDetails) : nat :=
        match l with
        | [] => O
        | d :: l' => (count d + sum l')%nat
        end) (DLCs g)).

Definition count_all (l : list GameDetails) : nat :=
  fold_right (fun d n => (count d + n)%nat) O l.

End gog.

(** [backend.GogFile]: one artifact to transfer. *)
Module backend.

Record GogFile := {
  Name : string;
  URL : string;
  File : string;
  Version : string
}.

End backend.

(** A computation that can panic or, for the loops modelled with a step
    budget, stop for lack of steps. *)
Inductive res (A : Type) :=
| Ok (a : A)
| Panicked
| OutOfFuel.
Arguments Ok {A} a.
Arguments Panicked {A}.
Arguments OutOfFuel {A}.

(* ===================================================================== *)
(** ** [cmd/gog-backup/main.go] *)

(** [s[1:]]: panics on the empty string. *)
Definition slice_from_1 (s : string) : option string :=
  match s with
  | EmptyString => None
  | String _ t => Some t
  end.

(** [safePath]. *)
Definition safePath (path : string) : string :=
  strings.Replace
    (strings.Replace (strings.TrimSpace path) "/" "" (-1))
    ":" " -" (-1).

(** The sanitization as the specification words it, one byte at a time:
    on the title without its leading and trailing white space, a slash
    disappears, a colon becomes a space and a dash, any other byte
    stays. *)
Fixpoint sanitize_bytes (s : string) : string :=
  match s with
  | EmptyString => EmptyString
  | String c t =>
      if Ascii.eqb c "/"%char then sanitize_bytes t
      else if Ascii.eqb c ":"%char then String " " (String "-" (sanitize_bytes t))
      else String c (sanitize_bytes t)
  end.

Definition sanitize_spec (title : string) : string :=
  sanitize_bytes (strings.TrimSpace title).

(** The three stages one after the other, as the specification lists
    them. *)
Fixpoint remove_slashes (s : string) : string :=
  match s with
  | EmptyString => EmptyString
  | String c t =>
      if Ascii.eqb c "/"%char then remove_slashes t
      else String c (remove_slashes t)
  end.

Fixpoint replace_colons (s : string) : string :=
  match s with
  | EmptyString => EmptyString
  | String c t =>
      if Ascii.eqb c ":"%char then String " " (String "-" (replace_colons t))
      else String c (replace_colons t)
  end.

(** White space stripped from an ASCII title, without any decoding:
    leading tabs, line feeds, vertical tabs, form feeds, carriage returns
    and spaces go, and so do trailing ones. *)
Definition is_space_byte (c : ascii) : bool := strings.asciiSpace (utf8.byteZ c).

Fixpoint strip_leading (s : string) : string :=
  match s with
  | EmptyString => EmptyString
  | String c t => if is_space_byte c then strip_leading t else s
  end.

Fixpoint strip_trailing (s : string) : string :=
  match s with
  | EmptyString => EmptyString
  | String c t =>
      match strip_trailing t with
      | EmptyString => if is_space_byte c then EmptyString else String c EmptyString
      | t' => String c t'
      end
  end.

Definition strip_spec (s : string) : string := strip_trailing (strip_leading s).

Fixpoint has_byte (c : ascii) (s : string) : bool :=
  match s with
  | EmptyString => false
  | String a t => Ascii.eqb a c || has_byte c t
  end.

Fixpoint all_ascii (s : string) : bool :=
  match s with
  | EmptyString => true
  | String c t => (utf8.byteZ c <? utf8.RuneSelf)%Z && all_ascii t
  end.

(** The two rate limiters of [main]: what is passed to
    [ratelimit.NewBucketWithRate].  Go's [int] is 64 bits wide and the
    product wraps around; [rate] is the integer handed to [float64(...)]. *)
Record Bucket := {
  rate : Z;
  capacity : Z
}.

Definition wrap64 (z : Z) : Z := ((z + 2 ^ 63) mod 2 ^ 64 - 2 ^ 63)%Z.

Definition NewBucketWithRate (rate capacity : Z) : Bucket :=
  {| rate := rate; capacity := capacity |}.

(** [downloadBucket] and [uploadBucket] after the two [if]s of [main];
    [None] is the nil pointer. *)
Definition main_buckets (limitDownload limitUpload : Z)
  : option Bucket * option Bucket :=
  let downloadBucket :=
    if (limitDownload >? 0)%Z then
      Some (NewBucketWithRate (wrap64 (limitDownload * 1024))
                              (wrap64 (limitDownload * 1024)))
    else None in
  let uploadBucket :=
    if (limitUpload >? 0)%Z then
      Some (NewBucketWithRate (wrap64 (limitUpload * 1024))
                              (wrap64 (limitDownload * 1024)))
    else None in
  (downloadBucket, uploadBucket).

(** What the specification asks of a limiter: rate and burst capacity are
    both one second's worth of the direction's own limit, given in KiB/s. *)
Definition sized_from (limit : Z) (b : Bucket) : Prop :=
  rate b = (limit * 1024)%Z /\ capacity b = (limit * 1024)%Z.

Section FetchDetails.

(** [gog.EmbedEndpoint] and the colouring functions of
    [github.com/bclicn/color], none of which is in this repository. *)
Variable EmbedEndpoint : string.
Variables LightPurple LightYellow Red : string -> string.

(** An element of the slice [games] of [fetchDetails]. *)
Record entry := {
  Path : string;
  Details : gog.GameDetails
}.

(** What has been sent on the two channels so far, oldest first. *)
Record queues := {
  gameDownload : list backend.GogFile;
  extraDownload : list backend.GogFile
}.

Definition send_extra (q : queues) (f : backend.GogFile) : queues :=
  {| gameDownload := gameDownload q; extraDownload := extraDownload q ++ [f] |}.

Definition send_game (q : queues) (f : backend.GogFile) : queues :=
  {| gameDownload := gameDownload q ++ [f]; extraDownload := extraDownload q |}.

Definition extra_task (path : string) (game : gog.GameDetails) (extra : gog.File)
  : backend.GogFile :=
  {| backend.Name :=
       LightPurple ("Extra for " ++ gog.Title game ++ ": " ++ gog.Name extra)
       ++ " " ++ LightYellow ("[" ++ gog.Size extra ++ "]");
     backend.URL := EmbedEndpoint ++ gog.ManualDownloadURL extra;
     backend.File := path ++ "/Extras";
     backend.Version := gog.Version extra |}.

Definition platform_task (path platform : string) (d : gog.File)
  : backend.GogFile :=
  {| backend.Name :=
       LightPurple (gog.Name d) ++ " " ++ Red ("[" ++ platform ++ "]")
       ++ " " ++ LightYellow ("[" ++ gog.Size d ++ "]");
     backend.URL := EmbedEndpoint ++ gog.ManualDownloadURL d;
     backend.File := path ++ "/" ++ platform;
     backend.Version := gog.Version d |}.

(** The sends of one iteration of the loop over [games]: the extras,
    then the files of the first download group, Windows, Mac, Linux. *)
Definition emit (path : string) (game : gog.GameDetails) (q : queues) : queues :=
  let q1 := fold_left (fun q extra => send_extra q (extra_task path game extra))
                      (gog.Extras game) q in
  match gog.Downloads game with
  | [] => q1
  | download :: _ =>
      let q2 := fold_left (fun q d => send_game q (platform_task path "Windows" d))
                          (gog.Windows download) q1 in
      let q3 := fold_left (fun q d => send_game q (platform_task path "Mac" d))
                          (gog.Mac download) q2 in
      fold_left (fun q d => send_game q (platform_task path "Linux" d))
                (gog.Linux download) q3
  end.

(** The entries appended for the add-ons of the game at [path]. *)
Definition dlc_entries (path : string) (game : gog.GameDetails) : list entry :=
  map (fun dlc => {| Path := path ++ "/" ++ safePath (gog.Title dlc);
                     Details := dlc |})
      (gog.DLCs game).

(** [for i := 0; i < len(games); i++ { ... }] with [games] growing while
    it is walked.  [fuel] bounds the number of times the condition is
    tested. *)
Fixpoint expand (fuel : nat) (games : list entry) (i : nat) (q : queues)
  : res queues :=
  match fuel with
  | O => OutOfFuel
  | S fuel' =>
      match nth_error games i with
      | None => Ok q
      | Some e =>
          match slice_from_1 (Path e) with
          | None => Panicked
          | Some path =>
              let game := Details e in
              let q' := emit path game q in
              expand fuel' (games ++ dlc_entries path game) (S i) q'
          end
      end
  end.

(** The [else] branch of [fetchDetails] for one fetched game. *)
Definition fetch_one (result : gog.GameDetails) (q : queues) : res queues :=
  expand (S (gog.count result))
         [ {| Path := "/" ++ safePath (gog.Title result); Details := result |} ]
         0 q.

(** [fetchDetails]: [ids] is what arrives on [games] before it is
    closed, [GameDetails id] the client's answer ([None]: an error,
    logged, and the item is left out).  The result is what was sent on
    [gameDownload] and [extraDownload] before they are closed. *)
Fixpoint fetchDetails_from (GameDetails : Z -> option gog.GameDetails)
         (ids : list Z) (q : queues) : res queues :=
  match ids with
  | [] => Ok q
  | id :: ids' =>
      match GameDetails id with
      | None => fetchDetails_from GameDetails ids' q
      | Some result =>
          match fetch_one result q with
          | Ok q' => fetchDetails_from GameDetails ids' q'
          | Panicked => Panicked
          | OutOfFuel => OutOfFuel
          end
      end
  end.

Definition fetchDetails (GameDetails : Z -> option gog.GameDetails)
           (ids : list Z) : res queues :=
  fetchDetails_from GameDetails ids {| gameDownload := []; extraDownload := [] |}.

End FetchDetails.


(* ===================================================================== *)
(** ** The world of a transfer worker *)

(** What a worker does to the outside, in the order it does it. *)
Inductive Event :=
| EvConnect (url : string) (ok : bool)       (* client.DownloadFile *)
| EvNetRead (n : nat)                        (* n bytes read from the source stream *)
| EvClose                                    (* readerTmp.Close() *)
| EvReadFile (p : string)                    (* ioutil.ReadFile, readFile *)
| EvExists (p : string)                      (* os.Stat, fileExists *)
| EvMkdirAll (p : string) (ok : bool)
| EvOpenFile (p : string) (ok : bool)
| EvWrite (p : string) (n : nat)             (* n bytes written to the open file *)
| EvRename (from to : string) (ok : bool)
| EvWriteFile (p content : string) (ok : bool) (* ioutil.WriteFile, writeFile *)
| EvUpload (key : string) (ok : bool)
| EvCopyObject (from to : string) (ok : bool)
| EvDeleteObject (key : string) (ok : bool).

(** The destination (files or objects by name, and the directories made),
    the tokens taken so far from each rate limiter (a [*ratelimit.Bucket]
    is an address; all workers holding the same address draw from the same
    entry), and the events so far, newest first. *)
Record World := {
  files : gmap string string;
  dirs : gset string;
  tokens : gmap nat nat;
  log : list Event
}.

Definition set_files (f : gmap string string -> gmap string string) (w : World) : World :=
  {| files := f (files w); dirs := dirs w; tokens := tokens w; log := log w |}.

Definition add_dir (p : string) (w : World) : World :=
  {| files := files w; dirs := {[ p ]} ∪ dirs w; tokens := tokens w; log := log w |}.

Definition add_tokens (b n : nat) (w : World) : World :=
  {| files := files w; dirs := dirs w;
     tokens := <[ b := (default 0%nat (tokens w !! b) + n)%nat ]> (tokens w);
     log := log w |}.

Definition add_event (e : Event) (w : World) : World :=
  {| files := files w; dirs := dirs w; tokens := tokens w; log := e :: log w |}.

(** A worker's computation: it ends with a value, or the goroutine panics
    and takes the process down; the world stays as it was left. *)
Inductive run (A : Type) :=
| Done (a : A) (w : World)
| Crash (w : World).
Arguments Done {A} a w.
Arguments Crash {A} w.

Definition M (A : Type) : Type := World -> run A.

Definition ret {A : Type} (a : A) : M A := fun w => Done a w.

Definition bind {A B : Type} (m : M A) (k : A -> M B) : M B :=
  fun w => match m w with
           | Done a w' => k a w'
           | Crash w' => Crash w'
           end.

Definition panic {A : Type} : M A := fun w => Crash w.

Definition modify (f : World -> World) : M unit := fun w => Done tt (f w).

Definition get {A : Type} (f : World -> A) : M A := fun w => Done (f w) w.

Definition emit_event (e : Event) : M unit := modify (add_event e).

Definition final {A : Type} (r : run A) : World :=
  match r with
  | Done _ w => w
  | Crash w => w
  end.

Declare Scope worker_scope.
Delimit Scope worker_scope with worker.
Notation "x <- m ;; k" := (bind m (fun x => k))
  (at level 20, m at level 99, k at level 200, only parsing) : worker_scope.

(** The events of [w'] that [w] does not have yet, newest first. *)
Definition events_since (w w' : World) : list Event :=
  firstn (List.length (log w') - List.length (log w)) (log w').

(** What [client.DownloadFile] hands back when it succeeds: the resolved
    file name and the body, as the pieces successive [Read]s return,
    ending in end-of-file or ([read_err]) in an error. *)
Record Source := {
  filename : string;
  chunks : list string;
  read_err : bool
}.

(** An [io.Reader]: nil, the response body, or a reader that
    [ratelimit.Reader] has wrapped around another with a bucket pointer
    ([None] is nil). *)
Inductive Reader :=
| NilReader
| Body (src : Source)
| Limited (r : Reader) (bucket : option nat).

(** What the outside does during one pass of a worker's retry loop: the
    answer of [client.DownloadFile] ([None]: an error); for the local
    backend, whether [os.MkdirAll], [os.OpenFile] and [os.Rename] succeed
    and how many bytes the disk still takes ([None]: no bound); for the
    object-store backend, whether the upload of the body, [CopyObject] and
    [DeleteObject] succeed; for both, whether the version marker can be
    written.  An operation that fails leaves files and objects as they
    are, and an upload puts the whole object in place at once; only
    [ioutil.WriteFile] can fail half-way: [marker_left] tells what a
    failed write of the marker leaves in the local backend, [None] when
    the file could not be opened and is as it was, [Some n] when it was
    opened, which empties it, and [n] bytes went in before the error
    (all of them when only the closing fails). *)
Record Env := {
  response : option Source;
  mkdir_ok : bool;
  open_ok : bool;
  disk_room : option nat;
  rename_ok : bool;
  upload_ok : bool;
  copy_ok : bool;
  delete_ok : bool;
  marker_ok : bool;
  marker_left : option nat
}.

Module ratelimit.

Definition Reader (r : Reader) (bucket : option nat) : Reader := Limited r bucket.

(** [bucket.Wait(n)]: [n] tokens leave the bucket; on a nil bucket the
    call dereferences nil. *)
Definition Wait (bucket : option nat) (n : nat) : M unit :=
  match bucket with
  | None => panic
  | Some b => modify (add_tokens b n)
  end.

End ratelimit.

(** One [Read] that yields [n] bytes of the body, seen through the
    wrappers: the rate-limited reader reads from the reader inside it and,
    when [n > 0], waits on its bucket for [n] tokens. *)
Fixpoint Read (r : Reader) (n : nat) : M unit :=
  match r with
  | NilReader => panic
  | Body _ => emit_event (EvNetRead n)
  | Limited r' bucket =>
      (_ <- Read r' n ;;
       if (n =? 0)%nat then ret tt else ratelimit.Wait bucket n)%worker
  end.

(** All the bytes of a source. *)
Definition content (src : Source) : string :=
  fold_right String.append "" (chunks src).

(** Outcome of one pass through the retry loop, named after what the
    worker logs on it; the first and the fourth end in [continue], the
    others in [break]. *)
Inductive Outcome :=
| ConnectFailed       (* "Unable to connect to GoG" *)
| UpToDate            (* "Skipping ... as it is already up to date." *)
| AlreadyBackedUp     (* "Skipping ... backed up and isn't versioned." *)
| DownloadFailed      (* "Unable to download file" *)
| VersionNotSaved     (* "Unable to save version file" *)
| Downloaded.         (* "We successfully managed to download this file" *)

Definition continues (o : Outcome) : bool :=
  match o with
  | ConnectFailed | DownloadFailed => true
  | _ => false
  end.

(** [for i := 1; i <= *retries; i++ { ... }]: [left] is [retries - i + 1],
    the passes still allowed; the result lists the outcome of every pass
    made, first pass first. *)
Fixpoint retry_loop (attempt : Env -> M Outcome) (env : nat -> Env)
         (left : nat) (i : nat) : M (list Outcome) :=
  match left with
  | O => ret []
  | S left' =>
      (o <- attempt (env i) ;;
       if continues o then
         os <- retry_loop attempt env left' (S i) ;;
         ret (o :: os)
       else ret [o])%worker
  end.

(** [for d := range downloads { ... }]: the tasks taken from the channel
    one after the other; [env t] is what the outside does during task
    number [t]. *)
Fixpoint range_downloads
         (task : backend.GogFile -> (nat -> Env) -> M (list Outcome))
         (env : nat -> nat -> Env) (t : nat) (downloads : list backend.GogFile)
  : M (list (list Outcome)) :=
  match downloads with
  | [] => ret []
  | d :: ds =>
      (os <- task d (env t) ;;
       rest <- range_downloads task env (S t) ds ;;
       ret (os :: rest))%worker
  end.

(* ===================================================================== *)
(** ** The local backend ([package local]) *)

Module local.

(** [client.DownloadFile(url)]: file name, body and error flag. *)
Definition client_DownloadFile (env : Env) (url : string)
  : M (string * Reader * bool) :=
  match response env with
  | Some src =>
      (_ <- emit_event (EvConnect url true) ;;
       ret (filename src, Body src, false))%worker
  | None =>
      (_ <- emit_event (EvConnect url false) ;;
       ret ("", NilReader, true))%worker
  end.

Definition Close : M unit := emit_event EvClose.

(** [ioutil.ReadFile]: the content, empty when the file cannot be read. *)
Definition ReadFile (p : string) : M string :=
  (_ <- emit_event (EvReadFile p) ;;
   get (fun w => default "" (files w !! p)))%worker.

(** [os.Stat(p)] with the test [info != nil]: there is a file of that
    name, or a directory (named with or without slashes at the end). *)
Definition Stat (p : string) : M bool :=
  (_ <- emit_event (EvExists p) ;;
   get (fun w => bool_decide (is_Some (files w !! p))
                 || bool_decide (strings.trimRightByte p "/" ∈ dirs w)))%worker.

(** The operations below return [true] for an error. *)
Definition MkdirAll (env : Env) (p : string) : M bool :=
  (_ <- emit_event (EvMkdirAll p (mkdir_ok env)) ;;
   if mkdir_ok env then
     _ <- modify (add_dir p) ;; ret false
   else ret true)%worker.

(** [os.OpenFile(p, O_WRONLY|O_CREATE, 0666)]: the file is made when it
    is not there; a file that is there keeps its content. *)
Definition OpenFile (env : Env) (p : string) : M bool :=
  (_ <- emit_event (EvOpenFile p (open_ok env)) ;;
   if open_ok env then
     _ <- modify (set_files (fun f => match f !! p with
                                      | Some _ => f
                                      | None => <[ p := "" ]> f
                                      end)) ;;
     ret false
   else ret true)%worker.

(** [data] put over [old] from offset [off] on. *)
Definition overwrite (old : string) (off : nat) (data : string) : string :=
  substring 0 off old ++ data
  ++ strings.slice_from old (off + String.length data).

(** [writer.Write(c)] at offset [off], the disk taking [room] more
    bytes: the bytes written and the error flag. *)
Definition Write (p : string) (off : nat) (room : option nat) (c : string)
  : M (nat * bool) :=
  let n := match room with
           | None => String.length c
           | Some r => Nat.min r (String.length c)
           end in
  (_ <- modify (set_files (fun f =>
          <[ p := overwrite (default "" (f !! p)) off (substring 0 n c) ]> f)) ;;
   _ <- emit_event (EvWrite p n) ;;
   ret (n, (n <? String.length c)%nat))%worker.

(** [io.Copy(writer, reader)]: read a piece, write it, until a [Read]
    reports the end or an error, or a [Write] fails. *)
Fixpoint copy_loop (p : string) (reader : Reader) (pieces : list string)
         (read_err : bool) (off : nat) (room : option nat) : M bool :=
  match pieces with
  | [] => (_ <- Read reader 0 ;; ret read_err)%worker
  | c :: cs =>
      (_ <- Read reader (String.length c) ;;
       if (String.length c =? 0)%nat then copy_loop p reader cs read_err off room
       else
         r <- Write p off room c ;;
         if snd r then ret true
         else copy_loop p reader cs read_err (off + fst r)
                        ((fun left => left - fst r)%nat <$> room))%worker
  end.

(** The body under the wrappers of a reader. *)
Fixpoint source_of (r : Reader) : option Source :=
  match r with
  | NilReader => None
  | Body src => Some src
  | Limited r' _ => source_of r'
  end.

Definition io_Copy (env : Env) (p : string) (reader : Reader) : M bool :=
  match source_of reader with
  | Some src => copy_loop p reader (chunks src) (read_err src) 0 (disk_room env)
  | None => panic
  end.

Definition Rename (env : Env) (from to : string) : M bool :=
  (_ <- emit_event (EvRename from to (rename_ok env)) ;;
   if rename_ok env then
     _ <- modify (set_files (fun f =>
            match f !! from with
            | Some c => <[ to := c ]> (delete from f)
            | None => f
            end)) ;;
     ret false
   else ret true)%worker.

(** [ioutil.WriteFile(p, content, 0666)]: the file is opened with
    [O_WRONLY|O_CREATE|O_TRUNC], written and closed; an error of the
    write or of the closing leaves what had been written. *)
Definition WriteFile (env : Env) (p content : string) : M bool :=
  (_ <- emit_event (EvWriteFile p content (marker_ok env)) ;;
   if marker_ok env then
     _ <- modify (set_files (fun f => <[ p := content ]> f)) ;; ret false
   else
     match marker_left env with
     | None => ret true
     | Some n =>
         _ <- modify (set_files (fun f => <[ p := substring 0 n content ]> f)) ;;
         ret true
     end)%worker.

(** [downloadFile]. *)
Definition downloadFile (env : Env) (reader : Reader) (path filename : string)
  : M bool :=
  if filename =? "" then ret true
  else
    (err <- MkdirAll env path ;;
     if (err : bool) then ret true
     else
       let tmpfile := path ++ "/." ++ filename ++ ".tmp" in
       let outfile := path ++ "/" ++ filename in
       err <- OpenFile env tmpfile ;;
       if (err : bool) then ret true
       else
         err <- io_Copy env tmpfile reader ;;
         if (err : bool) then ret true
         else Rename env tmpfile outfile)%worker.

Section Handler.

(** The flag [-local-dir], the flag [-retries] and the bucket pointer
    given to [DownloadFile]. *)
Variable targetDir : string.
Variable retries : Z.
Variable downloadBucket : option nat.

(** [reader] after the [if downloadBucket == nil { ... } else { ... }]
    of the retry loop. *)
Definition reader_of (readerTmp : Reader) : Reader :=
  match downloadBucket with
  | None => ratelimit.Reader readerTmp downloadBucket
  | Some _ => readerTmp
  end.

(** One pass through the body of the retry loop for the task [d]. *)
Definition attempt (d : backend.GogFile) (env : Env) : M Outcome :=
  let path := targetDir ++ "/" ++ backend.File d in
  (r <- client_DownloadFile env (backend.URL d) ;;
   let '(filename, readerTmp, err) := r in
   let reader := reader_of readerTmp in
   if (err : bool) then ret ConnectFailed
   else
     let versionFile := path ++ "/." ++ filename ++ ".version" in
     skip <- (if negb (backend.Version d =? "") then
                lastVersion <- ReadFile versionFile ;;
                ret (if lastVersion =? backend.Version d then Some UpToDate else None)
              else
                info <- Stat (path ++ "/" ++ filename) ;;
                ret (if (info : bool) then Some AlreadyBackedUp else None)) ;;
     match skip with
     | Some o => _ <- Close ;; ret o
     | None =>
         err <- downloadFile env reader path filename ;;
         _ <- Close ;;
         if (err : bool) then ret DownloadFailed
         else if negb (backend.Version d =? "") then
           err <- WriteFile env versionFile (backend.Version d) ;;
           if (err : bool) then ret VersionNotSaved else ret Downloaded
         else ret Downloaded
     end)%worker.

(** The retry loop for one task. *)
Definition task (d : backend.GogFile) (env : nat -> Env) : M (list Outcome) :=
  retry_loop (attempt d) env (Z.to_nat retries) 1.

(** The handler [DownloadFile] returns, run on the tasks that arrive
    on [downloads] before it is closed. *)
Definition DownloadFile (downloads : list backend.GogFile)
           (env : nat -> nat -> Env) : M (list (list Outcome)) :=
  range_downloads task env 0 downloads.

End Handler.

End local.

(* ===================================================================== *)
(** ** The object-store backend ([package s3]) *)

Module s3.

Definition client_DownloadFile (env : Env) (url : string)
  : M (string * Reader * bool) :=
  match response env with
  | Some src =>
      (_ <- emit_event (EvConnect url true) ;;
       ret (filename src, Body src, false))%worker
  | None =>
      (_ <- emit_event (EvConnect url false) ;;
       ret ("", NilReader, true))%worker
  end.

Definition Close : M unit := emit_event EvClose.

Definition NUL : ascii := ascii_of_nat 0.

(** The bytes of [aws.NewWriteAtBuffer(make([]byte, 64))] after the
    object [c] has been written into it from offset 0: the buffer
    grows to the length of [c] when that is more than 64. *)
Definition buffer_after (c : string) : string :=
  c ++ string_of_list_ascii (repeat NUL (64 - String.length c)).

(** [readFile]: the object's content without the [NUL] bytes at its
    end, and the error flag. *)
Definition readFile (key : string) : M (string * bool) :=
  (_ <- emit_event (EvReadFile key) ;;
   get (fun w => match files w !! key with
                 | Some c => (strings.trimRightByte (buffer_after c) NUL, false)
                 | None => ("", true)
                 end))%worker.

(** [fileExists]: whether [HeadObject] finds the key. *)
Definition fileExists (key : string) : M bool :=
  (_ <- emit_event (EvExists key) ;;
   get (fun w => bool_decide (is_Some (files w !! key))))%worker.

(** [writeFile]. *)
Definition writeFile (env : Env) (key content : string) : M bool :=
  (_ <- emit_event (EvWriteFile key content (marker_ok env)) ;;
   if marker_ok env then
     _ <- modify (set_files (fun f => <[ key := content ]> f)) ;; ret false
   else ret true)%worker.

(** The uploader reading its [Body] to the end. *)
Fixpoint read_all (reader : Reader) (pieces : list string) : M unit :=
  match pieces with
  | [] => Read reader 0
  | c :: cs =>
      (_ <- Read reader (String.length c) ;; read_all reader cs)%worker
  end.

Fixpoint source_of (r : Reader) : option Source :=
  match r with
  | NilReader => None
  | Body src => Some src
  | Limited r' _ => source_of r'
  end.

(** [uploader.Upload] of [body] to [key]: fails when reading the body
    fails or the request does. *)
Definition Upload (env : Env) (key : string) (body : Reader) : M bool :=
  match source_of body with
  | None => panic
  | Some src =>
      (_ <- read_all body (chunks src) ;;
       let ok := negb (read_err src) && upload_ok env in
       _ <- emit_event (EvUpload key ok) ;;
       if ok then
         _ <- modify (set_files (fun f => <[ key := content src ]> f)) ;; ret false
       else ret true)%worker
  end.

Definition CopyObject (env : Env) (from to : string) : M bool :=
  (_ <- emit_event (EvCopyObject from to (copy_ok env)) ;;
   if copy_ok env then
     _ <- modify (set_files (fun f =>
            match f !! from with
            | Some c => <[ to := c ]> f
            | None => f
            end)) ;;
     ret false
   else ret true)%worker.

Definition DeleteObject (env : Env) (key : string) : M unit :=
  (_ <- emit_event (EvDeleteObject key (delete_ok env)) ;;
   if delete_ok env then modify (set_files (delete key)) else ret tt)%worker.

Section Handler.

(** The flag [-s3-prefix], the flag [-retries] and the two bucket
    pointers given to [DownloadFile]. *)
Variable prefix : string.
Variable retries : Z.
Variables uploadBucket downloadBucket : option nat.

(** The closure [downloadFile]; the deferred [DeleteObject] runs once
    the copy has been tried. *)
(** [Body] after the [if uploadBucket == nil { ... } else { ... }] of
    [downloadFile]. *)
Definition body_of (reader : Reader) : Reader :=
  match uploadBucket with
  | None => reader
  | Some _ => ratelimit.Reader reader uploadBucket
  end.

Definition downloadFile (env : Env) (reader : Reader)
           (basepath filename : string) : M bool :=
  let tmpKey := path.Join basepath ("." ++ filename ++ ".tmp") in
  let key := path.Join basepath filename in
  let Body_ := body_of reader in
  (err <- Upload env tmpKey Body_ ;;
   if (err : bool) then ret true
   else
     err <- CopyObject env tmpKey key ;;
     _ <- DeleteObject env tmpKey ;;
     ret err)%worker.

(** [reader] after the [if downloadBucket == nil { ... } else { ... }]
    of the retry loop. *)
Definition reader_of (readerTmp : Reader) : Reader :=
  match downloadBucket with
  | None => readerTmp
  | Some _ => ratelimit.Reader readerTmp downloadBucket
  end.

Definition basepath_of (d : backend.GogFile) : string :=
  if negb (prefix =? "") then path.Join prefix (backend.File d)
  else backend.File d.

(** One pass through the body of the retry loop of [handler]. *)
Definition attempt (d : backend.GogFile) (env : Env) : M Outcome :=
  let basepath := basepath_of d in
  (r <- client_DownloadFile env (backend.URL d) ;;
   let '(filename, readerTmp, err) := r in
   let reader := reader_of readerTmp in
   if (err : bool) then ret ConnectFailed
   else
     let versionFile := path.Join basepath ("." ++ filename ++ ".version") in
     skip <- (if negb (backend.Version d =? "") then
                lastVersion <- readFile versionFile ;;
                ret (if fst lastVersion =? backend.Version d then Some UpToDate else None)
              else
                info <- fileExists (path.Join basepath filename) ;;
                ret (if (info : bool) then Some AlreadyBackedUp else None)) ;;
     match skip with
     | Some o => _ <- Close ;; ret o
     | None =>
         err <- downloadFile env reader basepath filename ;;
         _ <- Close ;;
         if (err : bool) then ret DownloadFailed
         else if negb (backend.Version d =? "") then
           err <- writeFile env versionFile (backend.Version d) ;;
           if (err : bool) then ret VersionNotSaved else ret Downloaded
         else ret Downloaded
     end)%worker.

Definition task (d : backend.GogFile) (env : nat -> Env) : M (list Outcome) :=
  retry_loop (attempt d) env (Z.to_nat retries) 1.

(** The [handler] that [DownloadFile] returns. *)
Definition handler (downloads : list backend.GogFile)
           (env : nat -> nat -> Env) : M (list (list Outcome)) :=
  range_downloads task env 0 downloads.

End Handler.

End s3.

(** ** The choice of backend in [main] *)

(** The addresses of the two buckets [main] allocates. *)
Definition downloadBucket_addr : nat := 0.
Definition uploadBucket_addr : nat := 1.

Definition pointer (addr : nat) (b : option Bucket) : option nat :=
  match b with
  | Some _ => Some addr
  | None => None
  end.

(** The two arms of [switch *backendOpt] in [main]: the handler of each
    backend with the pointers [main] gives it. *)
Definition main_local (targetDir : string) (retries limitDownload limitUpload : Z) :=
  let '(downloadBucket, _) := main_buckets limitDownload limitUpload in
  local.DownloadFile targetDir retries (pointer downloadBucket_addr downloadBucket).

Definition main_s3 (prefix : string) (retries limitDownload limitUpload : Z) :=
  let '(downloadBucket, uploadBucket) := main_buckets limitDownload limitUpload in
  s3.handler prefix retries (pointer uploadBucket_addr uploadBucket)
             (pointer downloadBucket_addr downloadBucket).

(** The two implementations of [backend.Handler], each with what its
    [DownloadFile] is given besides [retries]. *)
Inductive Backend :=
| Local (targetDir : string) (downloadBucket : option nat)
| S3 (prefix : string) (uploadBucket downloadBucket : option nat).

(** One pass through the retry loop, and the retry loop, of a backend. *)
Definition attempt_of (b : Backend) : backend.GogFile -> Env -> M Outcome :=
  match b with
  | Local targetDir downloadBucket => local.attempt targetDir downloadBucket
  | S3 prefix uploadBucket downloadBucket =>
      s3.attempt prefix uploadBucket downloadBucket
  end.

Definition task_of (b : Backend) (retries : Z)
  : backend.GogFile -> (nat -> Env) -> M (list Outcome) :=
  match b with
  | Local targetDir downloadBucket => local.task targetDir retries downloadBucket
  | S3 prefix uploadBucket downloadBucket =>
      s3.task prefix retries uploadBucket downloadBucket
  end.

(** The directory or key prefix a backend stores the files of a task
    under, and the names it derives from the resolved file name. *)
Definition dest_dir (b : Backend) (d : backend.GogFile) : string :=
  match b with
  | Local targetDir _ => targetDir ++ "/" ++ backend.File d
  | S3 prefix _ _ => s3.basepath_of prefix d
  end.

Definition dest_name (b : Backend) (dir name : string) : string :=
  match b with
  | Local _ _ => dir ++ "/" ++ name
  | S3 _ _ _ => path.Join dir name
  end.

Definition tmp_name (b : Backend) (d : backend.GogFile) (filename : string) : string :=
  dest_name b (dest_dir b d) ("." ++ filename ++ ".tmp").

Definition final_name (b : Backend) (d : backend.GogFile) (filename : string) : string :=
  dest_name b (dest_dir b d) filename.

Definition marker_name (b : Backend) (d : backend.GogFile) (filename : string) : string :=
  dest_name b (dest_dir b d) ("." ++ filename ++ ".version").

(* ===================================================================== *)
(** ** [signalHandler] and [generateGames] as two goroutines *)

Module shutdown.

(** Where [signalHandler] stands. *)
Inductive handler_pc :=
| AwaitSignal        (* signal := <-c *)
| SendFinished       (* finished <- true *)
| CloseFinished      (* close(finished); log; timeout := time.After(...) *)
| AwaitSecond        (* select { case <-c: ...; case <-timeout: ... } *)
| Fatal.             (* log.Fatalf: the process exits *)

(** Where [generateGames] stands: at the loop test with [page] and
    [totalPages], inside [range result.Products] with the products
    still to send, or returned. *)
Inductive walker_pc :=
| LoopTest (page totalPages : Z)
| Emit (page totalPages : Z) (products : list Z)
| Returned.

(** [pending]: signals waiting in [c], a channel with room for two.
    [sent]: the identifiers passed on [games], newest first. *)
Record state := {
  handler : handler_pc;
  walker : walker_pc;
  pending : nat;
  finished_closed : bool;
  sent : list Z
}.

(** What can happen next. *)
Inductive label :=
| Signal          (* the process receives SIGINT or SIGTERM *)
| TimerFires         (* the timer of [time.After] fires *)
| HandlerStep     (* [signalHandler] moves on its own *)
| WalkerStep      (* [generateGames] moves on its own; in the [select], the send *)
| ReceiveClosed   (* in the [select], [<-finished] on the closed channel *)
| Rendezvous.     (* [finished <- true] meets [<-finished] *)

Definition exited (s : state) : bool :=
  match handler s with
  | Fatal => true
  | _ => false
  end.

Section Catalog.

(** [client.GetFilteredProducts(gog.GameMediaType, page)]: the products
    of the page and [TotalPages], or an error. *)
Variable GetFilteredProducts : Z -> option (list Z * Z).

Definition with_handler (h : handler_pc) (s : state) : state :=
  {| handler := h; walker := walker s; pending := pending s;
     finished_closed := finished_closed s; sent := sent s |}.

Definition with_walker (g : walker_pc) (s : state) : state :=
  {| handler := handler s; walker := g; pending := pending s;
     finished_closed := finished_closed s; sent := sent s |}.

(** A step of the system; [None] when the step cannot be taken in
    [s].  Nothing moves once the process has exited. *)
Definition step (l : label) (s : state) : option state :=
  if exited s then None
  else
    match l with
    | Signal =>
        (* signal.Notify does not block: a signal that finds [c] full is lost *)
        Some {| handler := handler s; walker := walker s;
                pending := Nat.min 2 (S (pending s));
                finished_closed := finished_closed s; sent := sent s |}
    | TimerFires =>
        match handler s with
        | AwaitSecond => Some (with_handler Fatal s)
        | _ => None
        end
    | HandlerStep =>
        match handler s, pending s with
        | AwaitSignal, S n =>
            Some {| handler := SendFinished; walker := walker s; pending := n;
                    finished_closed := finished_closed s; sent := sent s |}
        | CloseFinished, _ =>
            Some {| handler := AwaitSecond; walker := walker s;
                    pending := pending s;
                    finished_closed := true; sent := sent s |}
        | AwaitSecond, S n =>
            Some {| handler := Fatal; walker := walker s; pending := n;
                    finished_closed := finished_closed s; sent := sent s |}
        | _, _ => None
        end
    | WalkerStep =>
        match walker s with
        | LoopTest page totalPages =>
            if (page <? totalPages)%Z then
              match GetFilteredProducts (page + 1) with
              | None => Some (with_walker Returned s)
              | Some (products, total) =>
                  Some (with_walker (Emit (page + 1) total products) s)
              end
            else Some (with_walker Returned s)
        | Emit page totalPages [] =>
            Some (with_walker (LoopTest page totalPages) s)
        | Emit page totalPages (id :: rest) =>
            Some {| handler := handler s;
                    walker := Emit page totalPages rest;
                    pending := pending s;
                    finished_closed := finished_closed s;
                    sent := id :: sent s |}
        | Returned => None
        end
    | ReceiveClosed =>
        match walker s with
        | Emit _ _ (_ :: _) =>
            if finished_closed s then Some (with_walker Returned s) else None
        | _ => None
        end
    | Rendezvous =>
        (* the channel has no buffer: the send needs the receiver to
           stand at the [select] *)
        match handler s, walker s with
        | SendFinished, Emit _ _ (_ :: _) =>
            Some {| handler := CloseFinished; walker := Returned;
                    pending := pending s;
                    finished_closed := finished_closed s; sent := sent s |}
        | _, _ => None
        end
    end.

(** The steps of [ls] one after the other. *)
Fixpoint steps (ls : list label) (s : state) : option state :=
  match ls with
  | [] => Some s
  | l :: ls' =>
      match step l s with
      | Some s' => steps ls' s'
      | None => None
      end
  end.

End Catalog.

(** [main] has started both goroutines: [page := 0], [totalPages := 1]. *)
Definition init : state :=
  {| handler := AwaitSignal; walker := LoopTest 0 1; pending := 0;
     finished_closed := false; sent := [] |}.

End shutdown.

(* ===================================================================== *)
(** ** Inputs the theorems below run the code on *)

Module sample.

Definition extra (name : string) : gog.File :=
  {| gog.Name := name; gog.Size := "1 MB"; gog.Version := "";
     gog.ManualDownloadURL := "/downloads/" ++ name |}.

(** A game with one extra and two add-ons, each with one extra. *)
Definition sub1 : gog.GameDetails := gog.Game "Sub1" [extra "map"] [] [].
Definition sub2 : gog.GameDetails := gog.Game "Sub2" [extra "ost"] [] [].
Definition root : gog.GameDetails :=
  gog.Game "Root" [extra "manual"] [] [sub1; sub2].

Definition client (id : Z) : option gog.GameDetails :=
  if (id =? 1)%Z then Some root else None.

End sample.

(** [s] without its first byte, and [""] for [""]. *)
Definition tail_of (s : string) : string :=
  match s with
  | EmptyString => EmptyString
  | String _ t => t
  end.

(** The games still to visit, from index [i] on, add-ons included. *)
Definition pending_games (games : list entry) (i : nat) : nat :=
  gog.count_all (map Details (skipn i games)).

(** Tokens taken from the bucket at address [b] so far. *)
Definition taken (w : World) (b : nat) : nat := default 0%nat (tokens w !! b).

(** Nothing at the destination, nothing taken, nothing done yet. *)
Definition empty_world : World :=
  {| files := ∅; dirs := ∅; tokens := ∅; log := [] |}.

(** Events that change the destination, that put a version marker there,
    that give a transferred file its final name, that read the response
    body. *)
Definition is_write (e : Event) : bool :=
  match e with
  | EvMkdirAll _ _ | EvOpenFile _ _ | EvWrite _ _ | EvRename _ _ _
  | EvWriteFile _ _ _ | EvUpload _ _ | EvCopyObject _ _ _
  | EvDeleteObject _ _ => true
  | _ => false
  end.

Definition is_marker_write (e : Event) : bool :=
  match e with
  | EvWriteFile _ _ _ => true
  | _ => false
  end.

Definition is_promotion (e : Event) : bool :=
  match e with
  | EvRename _ _ true | EvCopyObject _ _ true => true
  | _ => false
  end.

Definition is_net_read (e : Event) : bool :=
  match e with
  | EvNetRead _ => true
  | _ => false
  end.

Module sample_task.

(** A versioned extra of the game "Root". *)
Definition d : backend.GogFile :=
  {| backend.Name := "Extra for Root: manual";
     backend.URL := "https://embed.gog.com/downloads/manual";
     backend.File := "Root/Extras";
     backend.Version := "1.0" |}.

(** The same without a version. *)
Definition unversioned : backend.GogFile :=
  {| backend.Name := "Extra for Root: manual";
     backend.URL := "https://embed.gog.com/downloads/manual";
     backend.File := "Root/Extras";
     backend.Version := "" |}.

(** A complete response of eight bytes in two pieces. *)
Definition manual : Source :=
  {| filename := "manual.pdf"; chunks := ["%PDF"; "-1.4"]; read_err := false |}.

(** A response that breaks off after four bytes, and a complete one of
    two bytes, under the same name. *)
Definition broken : Source :=
  {| filename := "f"; chunks := ["AAAA"]; read_err := true |}.
Definition short : Source :=
  {| filename := "f"; chunks := ["BB"]; read_err := false |}.

(** A response that resolves no file name. *)
Definition nameless : Source :=
  {| filename := ""; chunks := ["data"]; read_err := false |}.

(** The source answers with [src] and every operation succeeds. *)
Definition ok (src : Source) : Env :=
  {| response := Some src; mkdir_ok := true; open_ok := true;
     disk_room := None; rename_ok := true; upload_ok := true;
     copy_ok := true; delete_ok := true; marker_ok := true;
     marker_left := None |}.

(** The source cannot be reached. *)
Definition offline : Env :=
  {| response := None; mkdir_ok := true; open_ok := true;
     disk_room := None; rename_ok := true; upload_ok := true;
     copy_ok := true; delete_ok := true; marker_ok := true;
     marker_left := None |}.

(** First the broken response, then the short one. *)
Definition broken_then_short (i : nat) : Env :=
  if (i =? 1)%nat then ok broken else ok short.

(** A version tag that ends in a [NUL] byte, and the destination after
    a run that has stored the file and this tag as its marker. *)
Definition nul_tag : string := "1" ++ String s3.NUL "".

Definition nul_versioned : backend.GogFile :=
  {| backend.Name := "Extra for Root: manual";
     backend.URL := "https://embed.gog.com/downloads/manual";
     backend.File := "Root/Extras";
     backend.Version := nul_tag |}.

Definition stored : World :=
  {| files := <[ "Root/Extras/.manual.pdf.version" := nul_tag ]>
              (<[ "Root/Extras/manual.pdf" := "%PDF-1.4" ]> ∅);
     dirs := ∅; tokens := ∅; log := [] |}.

End sample_task.

(** Events of the copying itself: bytes read from the source, bytes
    written to the open temporary file. *)
Definition is_transfer (e : Event) : bool :=
  match e with
  | EvNetRead _ | EvWrite _ _ => true
  | _ => false
  end.

(** The file name the source resolves during a pass, [""] when it
    cannot be reached. *)
Definition resolved (env : Env) : string :=
  match response env with
  | Some src => filename src
  | None => ""
  end.

(** A pass that has given the transferred file its final name. *)
Definition promoted (r : run Outcome) : bool :=
  match r with
  | Done Downloaded _ | Done VersionNotSaved _ => true
  | _ => false
  end.

(** From [w] to [w']: files outside [touch] are as they were, and the
    events added all satisfy [ok]. *)
Definition evolves (touch : string -> Prop) (ok : Event -> bool) (w w' : World) : Prop :=
  (forall q, ~ touch q -> files w' !! q = files w !! q)
  /\ exists dl, log w' = (dl ++ log w)%list /\ forallb ok dl = true.



Module sample_catalog.

(** One page with the one product 7. *)
Definition GetFilteredProducts (page : Z) : option (list Z * Z) :=
  if (page =? 1)%Z then Some ([7%Z], 1%Z) else None.

(** The walker fetches the page, hands the product on, finds the page
    done and the pages exhausted, and returns. *)
Definition walk : list shutdown.label :=
  [shutdown.WalkerStep; shutdown.WalkerStep; shutdown.WalkerStep;
   shutdown.WalkerStep].

(** Two signals, the handler moving whenever it can. *)
Definition two_signals : list shutdown.label :=
  [shutdown.Signal; shutdown.HandlerStep; shutdown.Signal; shutdown.Signal].

End sample_catalog.

(** What a file [old] holds beyond the length of [new]. *)
Definition leftover (old new : string) : string :=
  strings.slice_from old (String.length new).


(* ===================================================================== *)
(** ** What the tasks of [fetchDetails] are measured against *)

(** Two batches of sends one after the other. *)
Definition append_queues (q1 q2 : queues) : queues :=
  {| gameDownload := (gameDownload q1 ++ gameDownload q2)%list;
     extraDownload := (extraDownload q1 ++ extraDownload q2)%list |}.

Definition no_tasks : queues := {| gameDownload := []; extraDownload := [] |}.

(** The games the client answers for, in the order of their
    identifiers. *)
Fixpoint fetched (GameDetails : Z -> option gog.GameDetails) (ids : list Z)
  : list gog.GameDetails :=
  match ids with
  | [] => []
  | id :: ids' =>
      match GameDetails id with
      | Some result => result :: fetched GameDetails ids'
      | None => fetched GameDetails ids'
      end
  end.

(** The path the loop of [fetchDetails] uses for the add-on [dlc] of the
    game it has visited under [path]: the entry is stored under
    [path + "/" + safePath(dlc.Title)] and read back with [Path[1:]]. *)
Definition addon_path (path : string) (dlc : gog.GameDetails) : string :=
  tail_of (path ++ "/" ++ safePath (gog.Title dlc)).

(** The tasks of a game and of its add-ons at any depth, the add-ons
    of a game after the game, depth first; [here] gives the tasks of one
    game. *)
Fixpoint tree_tasks (here : string -> gog.GameDetails -> list backend.GogFile)
         (path : string) (g : gog.GameDetails) : list backend.GogFile :=
  (here path g
   ++ (fix forest (l : list gog.GameDetails) : list backend.GogFile :=
         match l with
         | [] => []
         | d :: l' => tree_tasks here (addon_path path d) d ++ forest l'
         end) (gog.DLCs g))%list.

Definition forest_tasks (here : string -> gog.GameDetails -> list backend.GogFile)
           (path : string) (l : list gog.GameDetails) : list backend.GogFile :=
  flat_map (fun d => tree_tasks here (addon_path path d) d) l.

Definition entries_tasks (here : string -> gog.GameDetails -> list backend.GogFile)
           (l : list entry) : list backend.GogFile :=
  flat_map (fun e => tree_tasks here (tail_of (Path e)) (Details e)) l.

Section Expected.

Variable EmbedEndpoint : string.
Variables LightPurple LightYellow Red : string -> string.

(** The extras tasks of one game, and the tasks for the files of its
    first download group. *)
Definition extras_here (path : string) (game : gog.GameDetails)
  : list backend.GogFile :=
  map (extra_task EmbedEndpoint LightPurple LightYellow path game) (gog.Extras game).

Definition files_here (path : string) (game : gog.GameDetails)
  : list backend.GogFile :=
  match gog.Downloads game with
  | [] => []
  | download :: _ =>
      (map (platform_task EmbedEndpoint LightPurple LightYellow Red path "Windows")
           (gog.Windows download)
       ++ map (platform_task EmbedEndpoint LightPurple LightYellow Red path "Mac")
              (gog.Mac download)
       ++ map (platform_task EmbedEndpoint LightPurple LightYellow Red path "Linux")
              (gog.Linux download))%list
  end.

End Expected.

(** [s] ends in [suffix]. *)
Definition ends_with (suffix s : string) : Prop := exists p, s = p ++ suffix.

Definition extras_destination (t : backend.GogFile) : Prop :=
  ends_with "/Extras" (backend.File t).

Definition platform_destination (t : backend.GogFile) : Prop :=
  ends_with "/Windows" (backend.File t) \/ ends_with "/Mac" (backend.File t)
  \/ ends_with "/Linux" (backend.File t).

(** A game with only its first download group kept, and so for all its
    add-ons. *)
Fixpoint first_group_only (g : gog.GameDetails) : gog.GameDetails :=
  gog.Game (gog.Title g) (gog.Extras g)
           (match gog.Downloads g with
            | [] => []
            | download :: _ => [download]
            end)
           ((fix all (l : list gog.GameDetails) : list gog.GameDetails :=
               match l with
               | [] => []
               | d :: l' => first_group_only d :: all l'
               end) (gog.DLCs g)).

Definition first_group_entry (e : entry) : entry :=
  {| Path := Path e; Details := first_group_only (Details e) |}.

(* ===================================================================== *)
(** ** [generateGames] on its own *)

(** [generateGames] while no signal arrives: the identifiers it passes
    on [games] before the deferred [close(games)].  [fuel] bounds the
    number of pages fetched; [page < totalPages] keeps [page++] within
    the range of [int], so the counters are plain integers. *)
Fixpoint generateGames (GetFilteredProducts : Z -> option (list Z * Z))
         (fuel : nat) (page totalPages : Z) : res (list Z) :=
  if (page <? totalPages)%Z then
    match fuel with
    | O => OutOfFuel
    | S fuel' =>
        match GetFilteredProducts (page + 1)%Z with
        | None => Ok []
        | Some (products, total) =>
            match generateGames GetFilteredProducts fuel' (page + 1)%Z total with
            | Ok rest => Ok (products ++ rest)%list
            | Panicked => Panicked
            | OutOfFuel => OutOfFuel
            end
        end
    end
  else Ok [].

(** The walker moving on its own [n] times. *)
Definition walker_steps (n : nat) : list shutdown.label := repeat shutdown.WalkerStep n.

(** What the states that can be reached from [shutdown.init] have in
    common: at most two signals wait; [finished] is closed once the
    handler has gone past [close(finished)] and not before; and the
    handler gets past [finished <- true] only by handing the value to the
    walker, which returns on it. *)
Definition handled (s : shutdown.state) : bool :=
  match shutdown.handler s with
  | shutdown.CloseFinished | shutdown.AwaitSecond | shutdown.Fatal => true
  | _ => false
  end.

Definition closed_by_handler (s : shutdown.state) : bool :=
  match shutdown.handler s with
  | shutdown.AwaitSecond | shutdown.Fatal => true
  | _ => false
  end.

Definition returned (s : shutdown.state) : bool :=
  match shutdown.walker s with
  | shutdown.Returned => true
  | _ => false
  end.

Definition coherent (s : shutdown.state) : Prop :=
  (shutdown.pending s <= 2)%nat
  /\ shutdown.finished_closed s = closed_by_handler s
  /\ (handled s = true -> returned s = true).

(** The walker stands at its [select] with a product in hand. *)
Definition at_select (s : shutdown.state) : bool :=
  match shutdown.walker s with
  | shutdown.Emit _ _ (_ :: _) => true
  | _ => false
  end.

(** First signal, hand-over, close. *)
Definition graceful_stop : list shutdown.label :=
  [shutdown.Signal; shutdown.HandlerStep; shutdown.Rendezvous; shutdown.HandlerStep].

(* ===================================================================== *)
(** ** The handler of a backend, and what a task can touch *)

Definition handler_of (b : Backend) (retries : Z)
  : list backend.GogFile -> (nat -> nat -> Env) -> M (list (list Outcome)) :=
  match b with
  | Local targetDir downloadBucket => local.DownloadFile targetDir retries downloadBucket
  | S3 prefix uploadBucket downloadBucket =>
      s3.handler prefix retries uploadBucket downloadBucket
  end.


(** A reader with a body inside and a bucket behind every
    [ratelimit.Reader] around it. *)
Fixpoint readable (r : Reader) : bool :=
  match r with
  | NilReader => false
  | Body _ => true
  | Limited r' bucket =>
      match bucket with
      | Some _ => readable r'
      | None => false
      end
  end.

(** The backend whose worker reads the body through a
    [ratelimit.Reader] around a nil bucket. *)
Definition wraps_nil_bucket (b : Backend) : bool :=
  match b with
  | Local _ None => true
  | _ => false
  end.

(** The shape of the outcomes of the passes of one task: failures, then
    nothing more when the passes allowed are used up, or one pass that
    ends the task. *)
Inductive task_shape (allowed : nat) : list Outcome -> Prop :=
| all_failed (failures : list Outcome) :
    forallb continues failures = true ->
    List.length failures = allowed ->
    task_shape allowed failures
| ended (failures : list Outcome) (o : Outcome) :
    forallb continues failures = true ->
    continues o = false ->
    (List.length failures < allowed)%nat ->
    task_shape allowed (failures ++ [o]).

(** The passes made, counted by what they are seen to do: every pass
    opens with one call of [client.DownloadFile]. *)
Definition is_connect (e : Event) : bool :=
  match e with
  | EvConnect _ _ => true
  | _ => false
  end.

Definition passes (dl : list Event) : nat := List.length (List.filter is_connect dl).



(** The source answers with [src] and every operation succeeds but the
    writing of the marker, which cannot be opened. *)
Definition marker_refused (src : Source) : Env :=
  {| response := Some src; mkdir_ok := true; open_ok := true;
     disk_room := None; rename_ok := true; upload_ok := true;
     copy_ok := true; delete_ok := true; marker_ok := false;
     marker_left := None |}.


(** The source answers with [src] and the temporary file cannot be
    opened. *)
Definition open_refused (src : Source) : Env :=
  {| response := Some src; mkdir_ok := true; open_ok := false;
     disk_room := None; rename_ok := true; upload_ok := true;
     copy_ok := true; delete_ok := true; marker_ok := true;
     marker_left := None |}.

(* ===================================================================== *)
(** * Part II: theorems *)
(* ===================================================================== *)

#[local] Arguments String.append !_ _ / : simpl nomatch.

(** ** Strings *)

Lemma length_append (a b : string) :
  String.length (a ++ b) = (String.length a + String.length b)%nat.
Proof.
  induction a as [|c a IH]; [reflexivity|].
  cbn [String.append String.length Nat.add]. now rewrite IH.
Qed.

Lemma append_assoc (a b c : string) : (a ++ b) ++ c = a ++ b ++ c.
Proof.
  induction a as [|x a IH]; [reflexivity|].
  cbn [String.append]. now rewrite IH.
Qed.

Lemma append_empty_r (a : string) : a ++ "" = a.
Proof. induction a as [|x a IH]; [reflexivity|]. cbn [String.append]. now rewrite IH. Qed.

(** ** Path sanitization *)

Lemma prefix_one_byte (a c : ascii) (t : string) :
  String.prefix (String a "") (String c t) = Ascii.eqb c a.
Proof.
  simpl. destruct (ascii_dec a c) as [->|Hne].
  - rewrite Ascii.eqb_refl. now destruct t.
  - symmetry. apply Ascii.eqb_neq. congruence.
Qed.

(** With no limit, replacing a one-byte pattern works byte by byte. *)
Lemma replace_from_slash (s : string) :
  strings.replace_from "/" "" None 0 s = remove_slashes s.
Proof.
  induction s as [|c t IH]; [reflexivity|].
  cbn [strings.replace_from remove_slashes].
  rewrite prefix_one_byte. destruct (Ascii.eqb c "/"); cbn; now rewrite IH.
Qed.

Lemma replace_from_colon (s : string) :
  strings.replace_from ":" " -" None 0 s = replace_colons s.
Proof.
  induction s as [|c t IH]; [reflexivity|].
  cbn [strings.replace_from replace_colons].
  rewrite prefix_one_byte. destruct (Ascii.eqb c ":"); cbn; now rewrite IH.
Qed.

Lemma Replace_slash (s : string) :
  strings.Replace s "/" "" (-1) = remove_slashes s.
Proof. apply replace_from_slash. Qed.

Lemma Replace_colon (s : string) :
  strings.Replace s ":" " -" (-1) = replace_colons s.
Proof. apply replace_from_colon. Qed.

(** The two replacements done one after the other are one pass over the
    bytes. *)
Lemma replace_colons_remove_slashes (s : string) :
  replace_colons (remove_slashes s) = sanitize_bytes s.
Proof.
  induction s as [|c t IH]; [reflexivity|].
  cbn [remove_slashes sanitize_bytes].
  destruct (Ascii.eqb c "/") eqn:Hs; [exact IH|].
  cbn [replace_colons]. destruct (Ascii.eqb c ":"); now rewrite IH.
Qed.

Lemma safePath_stages (title : string) :
  safePath title = replace_colons (remove_slashes (strings.TrimSpace title)).
Proof. unfold safePath. now rewrite Replace_slash, Replace_colon. Qed.

(** No slash and no colon is left in a sanitized title. *)
Lemma sanitize_bytes_clean (s : string) :
  has_byte "/" (sanitize_bytes s) = false /\ has_byte ":" (sanitize_bytes s) = false.
Proof.
  induction s as [|c t [IH1 IH2]]; [now split|].
  cbn [sanitize_bytes].
  destruct (Ascii.eqb c "/") eqn:Hs; [now split|].
  destruct (Ascii.eqb c ":") eqn:Hc; cbn [has_byte].
  - rewrite IH1, IH2. now split.
  - rewrite Hs, Hc, IH1, IH2. now split.
Qed.

(** X1.  A sanitized title holds no slash and no colon, whatever the
    title. *)
Lemma safePath_clean (title : string) :
  has_byte "/" (safePath title) = false /\ has_byte ":" (safePath title) = false.
Proof.
  rewrite safePath_stages, replace_colons_remove_slashes.
  apply sanitize_bytes_clean.
Qed.

(** *** [strings.TrimSpace] on ASCII strings *)

Lemma substring_snoc (s : string) (k : nat) (c : ascii) :
  String.get k s = Some c ->
  substring 0 (S k) s = substring 0 k s ++ String c "".
Proof.
  revert k. induction s as [|a t IH]; intros k H; [discriminate|].
  destruct k as [|k].
  - cbn in H. injection H as ->. cbn. now destruct t.
  - cbn in H. cbn [substring]. rewrite (IH k H). reflexivity.
Qed.

Lemma substring_all (s : string) : substring 0 (String.length s) s = s.
Proof. induction s as [|a t IH]; cbn; [reflexivity|now rewrite IH]. Qed.

Lemma strip_trailing_snoc (x : string) (c : ascii) :
  strip_trailing (x ++ String c "") =
  if is_space_byte c then strip_trailing x else x ++ String c "".
Proof.
  induction x as [|a x IH]; cbn [String.append strip_trailing].
  - now destruct (is_space_byte c).
  - rewrite IH. destruct (is_space_byte c) eqn:Hc; [reflexivity|].
    now destruct x.
Qed.

Lemma get_all_ascii (s : string) (k : nat) (c : ascii) :
  all_ascii s = true -> String.get k s = Some c ->
  (utf8.byteZ c <? utf8.RuneSelf)%Z = true.
Proof.
  revert k. induction s as [|a t IH]; intros k Hs Hk; [discriminate|].
  cbn in Hs. apply andb_prop in Hs as [Ha Ht].
  destruct k as [|k]; cbn in Hk.
  - now injection Hk as <-.
  - eauto.
Qed.

Lemma get_lt (s : string) (k : nat) :
  (k < String.length s)%nat -> exists c, String.get k s = Some c.
Proof.
  revert k. induction s as [|a t IH]; intros k Hk; cbn in Hk; [lia|].
  destruct k as [|k]; cbn; [eauto|]. apply IH. lia.
Qed.

(** The second loop of [TrimSpace] on an ASCII string strips the trailing
    white space of the part below [stop]. *)
Lemma trim_space_stop_ascii (s : string) (stop : nat) :
  all_ascii s = true -> (stop <= String.length s)%nat ->
  strings.trim_space_stop s stop = strip_trailing (substring 0 stop s).
Proof.
  intros Hs. induction stop as [|k IH]; intros Hk.
  - cbn. now destruct s.
  - destruct (get_lt s k) as [c Hc]; [lia|].
    cbn [strings.trim_space_stop]. unfold utf8.at_. rewrite Hc.
    pose proof (get_all_ascii _ _ _ Hs Hc) as Hlt.
    apply Z.ltb_lt in Hlt.
    destruct (utf8.RuneSelf <=? utf8.byteZ c)%Z eqn:Hge; [apply Z.leb_le in Hge; lia|].
    rewrite (substring_snoc _ _ _ Hc), strip_trailing_snoc.
    unfold is_space_byte.
    destruct (strings.asciiSpace (utf8.byteZ c)).
    + apply IH. lia.
    + unfold strings.slice. rewrite Nat.sub_0_r. apply substring_snoc, Hc.
Qed.

(** On an ASCII title, [strings.TrimSpace] strips exactly the leading and
    the trailing white-space bytes. *)
Lemma TrimSpace_ascii (s : string) :
  all_ascii s = true -> strings.TrimSpace s = strip_spec s.
Proof.
  unfold strings.TrimSpace, strip_spec.
  induction s as [|c t IH]; intros Hs; [reflexivity|].
  pose proof Hs as Hs'. cbn in Hs'. apply andb_prop in Hs' as [Hc Ht].
  cbn [strings.trim_space_start strip_leading].
  apply Z.ltb_lt in Hc.
  destruct (utf8.RuneSelf <=? utf8.byteZ c)%Z eqn:Hge; [apply Z.leb_le in Hge; lia|].
  unfold is_space_byte.
  destruct (strings.asciiSpace (utf8.byteZ c)); [now apply IH|].
  rewrite trim_space_stop_ascii by (trivial; lia).
  now rewrite substring_all.
Qed.

Lemma TrimSpace_ascii_witness :
  all_ascii "  Foo: Bar/Baz " = true /\
  strings.TrimSpace "  Foo: Bar/Baz " = strip_spec "  Foo: Bar/Baz ".
Proof. split; [reflexivity | apply TrimSpace_ascii; reflexivity]. Defined.

(** C9, as amended.  For every title, [safePath] is the three stages in
    order: [strings.TrimSpace] strips the white space at both ends, then
    every slash is removed, then every colon becomes a space and a dash;
    and the title "Foo: Bar/Baz" sanitizes to "Foo - BarBaz", the space
    after the colon being kept. *)
Theorem safePath_three_stages (title : string) :
  safePath title = replace_colons (remove_slashes (strings.TrimSpace title))
  /\ safePath "Foo: Bar/Baz" = "Foo - BarBaz".
Proof. split; [apply safePath_stages | reflexivity]. Qed.

(** C9, as stated, fails on its own example: the result is not
    "Foo -BarBaz". *)
Lemma safePath_example_differs : safePath "Foo: Bar/Baz" <> "Foo -BarBaz".
Proof. vm_compute. discriminate. Qed.

(** ** Expansion of a game and its add-ons ([fetchDetails]) *)

Lemma count_unfold (g : gog.GameDetails) :
  gog.count g = S (gog.count_all (gog.DLCs g)).
Proof.
  destruct g as [title extras downloads dlcs]. reflexivity.
Qed.

Lemma count_all_app (l1 l2 : list gog.GameDetails) :
  gog.count_all (l1 ++ l2) = (gog.count_all l1 + gog.count_all l2)%nat.
Proof.
  unfold gog.count_all.
  induction l1 as [|d l IH]; [reflexivity|].
  cbn [app fold_right]. rewrite IH. lia.
Qed.

Lemma dlc_entries_details (path : string) (game : gog.GameDetails) :
  map Details (dlc_entries path game) = gog.DLCs game.
Proof.
  unfold dlc_entries. rewrite map_map. cbn. apply map_id.
Qed.

Lemma append_cons_nonempty (p x : string) (c : ascii) : p ++ String c x <> "".
Proof. destruct p; discriminate. Qed.

Lemma append_slash_nonempty (p x : string) : p ++ "/" ++ x <> "".
Proof. apply append_cons_nonempty. Qed.

Lemma dlc_entries_paths (path : string) (game : gog.GameDetails) (e : entry) :
  In e (dlc_entries path game) -> Path e <> "".
Proof.
  unfold dlc_entries. rewrite in_map_iff. intros (d & <- & _).
  apply append_slash_nonempty.
Qed.

Lemma slice_from_1_nonempty (s : string) :
  s <> "" -> slice_from_1 s = Some (tail_of s).
Proof. destruct s; [congruence|reflexivity]. Qed.

Lemma skipn_nth_error {A : Type} (l : list A) (i : nat) (x : A) :
  nth_error l i = Some x -> skipn i l = x :: skipn (S i) l.
Proof.
  revert i. induction l as [|a l IH]; intros [|i] H; try discriminate.
  - now injection H as ->.
  - cbn in H. cbn [skipn]. rewrite (IH i H). reflexivity.
Qed.

Lemma skipn_app_le {A : Type} (l1 l2 : list A) (i : nat) :
  (i <= List.length l1)%nat -> skipn i (l1 ++ l2) = (skipn i l1 ++ l2)%list.
Proof.
  intros H. rewrite List.skipn_app.
  replace (i - List.length l1)%nat with 0%nat by lia. reflexivity.
Qed.

(** One iteration takes one game off the games still to visit. *)
Lemma pending_games_step (games : list entry) (i : nat) (e : entry) (path : string) :
  nth_error games i = Some e ->
  S (pending_games (games ++ dlc_entries path (Details e)) (S i))
  = pending_games games i.
Proof.
  intros H. unfold pending_games.
  assert (Hi : (S i <= List.length games)%nat).
  { apply Nat.le_succ_l. apply nth_error_Some. congruence. }
  rewrite skipn_app_le by exact Hi.
  rewrite (skipn_nth_error _ _ _ H).
  rewrite List.map_app, count_all_app, dlc_entries_details.
  cbn [map gog.count_all fold_right]. rewrite count_unfold.
  fold (gog.count_all (map Details (skipn (S i) games))). lia.
Qed.

(** The loop over [games] ends, without a panic, as soon as it is given
    more steps than there are games left to visit. *)
Lemma expand_total (E : string) (LP LY R : string -> string) :
  forall (fuel : nat) (games : list entry) (i : nat) (q : queues),
    (forall e, In e games -> Path e <> "") ->
    (pending_games games i < fuel)%nat ->
    exists q', expand E LP LY R fuel games i q = Ok q'.
Proof.
  induction fuel as [|fuel IH]; intros games i q Hpaths Hfuel; [lia|].
  cbn [expand]. destruct (nth_error games i) as [e|] eqn:He; [|eauto].
  assert (Hin : In e games) by (eapply nth_error_In; eauto).
  rewrite (slice_from_1_nonempty _ (Hpaths e Hin)).
  apply IH.
  - intros e' [H|H]%in_app_or; [auto|].
    eapply dlc_entries_paths; eauto.
  - pose proof (pending_games_step games i e (tail_of (Path e)) He). lia.
Qed.

(** Every fetched game is expanded to the end: the step budget of
    [fetch_one] is enough and [Path[1:]] never panics. *)
Lemma fetch_one_total (E : string) (LP LY R : string -> string)
      (result : gog.GameDetails) (q : queues) :
  exists q', fetch_one E LP LY R result q = Ok q'.
Proof.
  unfold fetch_one. apply expand_total.
  - intros e [<-|[]]. discriminate.
  - unfold pending_games. cbn. lia.
Qed.

Lemma fetchDetails_total (E : string) (LP LY R : string -> string)
      (client : Z -> option gog.GameDetails) (ids : list Z) :
  exists q, fetchDetails E LP LY R client ids = Ok q.
Proof.
  unfold fetchDetails. generalize {| gameDownload := []; extraDownload := [] |}.
  induction ids as [|id ids IH]; intros q; cbn [fetchDetails_from]; [eauto|].
  destruct (client id) as [result|]; [|apply IH].
  destruct (fetch_one_total E LP LY R result q) as [q' ->]. apply IH.
Qed.

(** A game with one extra and two add-ons without add-ons of their own,
    each with one extra, whatever the titles: three extras tasks are
    sent, the first under the sanitized title of the game, the other two
    under the path of the add-on with its first byte cut off. *)
Lemma fetch_one_two_addons (E : string) (LP LY R : string -> string)
      (r s1 s2 : string) (e0 e1 e2 : gog.File) :
  let root := gog.Game r [e0] [] [gog.Game s1 [e1] [] []; gog.Game s2 [e2] [] []] in
  exists q,
    fetch_one E LP LY R root {| gameDownload := []; extraDownload := [] |} = Ok q
    /\ gameDownload q = []
    /\ map backend.File (extraDownload q) =
       [ safePath r ++ "/Extras";
         tail_of (safePath r ++ "/" ++ safePath s1) ++ "/Extras";
         tail_of (safePath r ++ "/" ++ safePath s2) ++ "/Extras" ].
Proof.
  intros root. unfold fetch_one, root. cbn -[safePath emit].
  rewrite !(slice_from_1_nonempty _ (append_cons_nonempty _ _ _)).
  eexists. split; [reflexivity|]. split; reflexivity.
Qed.

(** C1.  On a game "Root" with one extra and the add-ons "Sub1" and
    "Sub2", each with one extra, [fetchDetails] sends three extras tasks,
    but the destinations of the add-ons' tasks are "oot/Sub1/Extras" and
    "oot/Sub2/Extras", not "Root/Sub1/Extras" and "Root/Sub2/Extras":
    [Path[1:]] cuts the first byte of an add-on's path, which, unlike the
    path of the top-level game, does not start with a slash. *)
Theorem fetchDetails_addon_paths (E : string) (LP LY R : string -> string) :
  exists q,
    fetchDetails E LP LY R sample.client [1%Z] = Ok q
    /\ map backend.File (extraDownload q) =
       ["Root/Extras"; "oot/Sub1/Extras"; "oot/Sub2/Extras"]
    /\ map backend.File (extraDownload q) <>
       ["Root/Extras"; "Root/Sub1/Extras"; "Root/Sub2/Extras"].
Proof.
  eexists. split; [reflexivity|]. split; [reflexivity|].
  cbn. discriminate.
Qed.

(** ** The rate limiters of [main] *)

Lemma wrap64_small (z : Z) :
  (- 2 ^ 63 <= z < 2 ^ 63)%Z -> wrap64 z = z.
Proof.
  intros H. unfold wrap64.
  rewrite Z.mod_small by lia. lia.
Qed.

(** X11.  When a download limit is set, and is small enough for its
    product with 1024 to stay in the range of [int64], the download
    bucket has the rate and the capacity of one second of that limit. *)
Lemma download_bucket_sized (limitDownload limitUpload : Z) :
  (0 < limitDownload < 2 ^ 53)%Z ->
  exists b, fst (main_buckets limitDownload limitUpload) = Some b
            /\ sized_from limitDownload b.
Proof.
  intros H. unfold main_buckets. cbn [fst].
  destruct (limitDownload >? 0)%Z eqn:Hgt; [|lia].
  eexists. split; [reflexivity|].
  unfold sized_from, NewBucketWithRate. cbn [rate capacity].
  rewrite wrap64_small by lia. now split.
Qed.

Lemma download_bucket_sized_witness :
  exists b, fst (main_buckets 1 2) = Some b /\ sized_from 1 b.
Proof.
  exact (download_bucket_sized 1 2 ltac:(lia)).
Defined.

(** The upload bucket takes its rate from the upload limit and its
    capacity from the download limit. *)
Lemma upload_bucket_capacity (limitDownload limitUpload : Z) :
  (0 < limitUpload)%Z ->
  snd (main_buckets limitDownload limitUpload) =
  Some {| rate := wrap64 (limitUpload * 1024);
          capacity := wrap64 (limitDownload * 1024) |}.
Proof.
  intros H. unfold main_buckets. cbn [snd].
  destruct (limitUpload >? 0)%Z eqn:Hgt; [reflexivity|lia].
Qed.

(** C7.  With a download limit of 1 KiB/s and an upload limit of 2 KiB/s,
    the download bucket has rate and capacity 1024, and the upload bucket
    has rate 2048 but capacity 1024: its capacity is one second's worth
    of the download limit, not of its own. *)
Theorem upload_bucket_capacity_from_download_limit :
  exists down up,
    main_buckets 1 2 = (Some down, Some up)
    /\ sized_from 1 down
    /\ rate up = 2048%Z /\ capacity up = 1024%Z
    /\ ~ sized_from 2 up.
Proof.
  eexists. eexists. split; [reflexivity|].
  split; [now split|]. split; [reflexivity|]. split; [reflexivity|].
  intros [_ H]. discriminate H.
Qed.

(** ** The wrapping of the response body *)

Lemma Read_Body (src : Source) (n : nat) (w : World) :
  Read (Body src) n w = Done tt (add_event (EvNetRead n) w).
Proof. reflexivity. Qed.

(** The local backend wraps the body when there is no bucket, and then
    the first [Read] that yields bytes panics on the nil bucket. *)
Lemma local_reader_of_nil (r : Reader) :
  local.reader_of None r = Limited r None.
Proof. reflexivity. Qed.

Lemma local_Read_nil_panics (src : Source) (n : nat) (w : World) :
  Read (local.reader_of None (Body src)) (S n) w
  = Crash (add_event (EvNetRead (S n)) w).
Proof. reflexivity. Qed.

(** With a bucket, the local backend reads the body as it is: no token
    is taken. *)
Lemma local_reader_of_bucket (b : nat) (r : Reader) :
  local.reader_of (Some b) r = r.
Proof. reflexivity. Qed.

Lemma local_Read_bucket_bypassed (b : nat) (src : Source) (n : nat) (w : World) :
  exists w', Read (local.reader_of (Some b) (Body src)) n w = Done tt w'
             /\ tokens w' = tokens w.
Proof. eexists. split; reflexivity. Qed.

(** The object-store backend wraps as the specification says, in both
    directions: without a bucket the reader is the one it was given. *)
Lemma s3_reader_of_nil (r : Reader) : s3.reader_of None r = r.
Proof. reflexivity. Qed.

Lemma s3_body_of_nil (r : Reader) : s3.body_of None r = r.
Proof. reflexivity. Qed.

Lemma taken_add_tokens_eq (w : World) (b n : nat) :
  taken (add_tokens b n w) b = (taken w b + n)%nat.
Proof. unfold taken, add_tokens. cbn. now rewrite lookup_insert_eq. Qed.

Lemma taken_add_tokens_ne (w : World) (b b' n : nat) :
  b <> b' -> taken (add_tokens b n w) b' = taken w b'.
Proof. intros H. unfold taken, add_tokens. cbn. now rewrite lookup_insert_ne. Qed.

(** With both buckets, every byte of a [Read] is waited for on the
    download bucket and on the upload bucket. *)
Lemma s3_Read_both_buckets (up down : nat) (src : Source) (n : nat) (w : World) :
  up <> down ->
  exists w',
    Read (s3.body_of (Some up) (s3.reader_of (Some down) (Body src))) n w = Done tt w'
    /\ taken w' down = (taken w down + n)%nat
    /\ taken w' up = (taken w up + n)%nat.
Proof.
  intros Hne. destruct n as [|n].
  - eexists. split; [reflexivity|].
    split; symmetry; apply Nat.add_0_r.
  - eexists. split; [reflexivity|]. split.
    + rewrite taken_add_tokens_ne by congruence.
      rewrite taken_add_tokens_eq. reflexivity.
    + rewrite taken_add_tokens_eq, taken_add_tokens_ne by congruence.
      reflexivity.
Qed.

(** In the local backend with a bucket, the copy takes no token. *)
Lemma copy_loop_bypasses_bucket (p : string) (src : Source) (rerr : bool) :
  forall (pieces : list string) (off : nat) (room : option nat) (w : World),
    tokens (final (local.copy_loop p (Body src) pieces rerr off room w)) = tokens w.
Proof.
  induction pieces as [|c cs IH]; intros off room w; cbn [local.copy_loop].
  - reflexivity.
  - unfold bind at 1. rewrite Read_Body. cbv beta iota.
    destruct (String.length c =? 0)%nat; cbv beta iota; [now rewrite IH|].
    unfold local.Write. unfold bind, emit_event, modify, ret. cbn [fst snd].
    destruct (_ <? _)%nat; cbv beta iota; [reflexivity|]. now rewrite IH.
Qed.

(** In the local backend without a bucket, the copy panics at the first
    piece that has bytes. *)
Lemma copy_loop_nil_bucket_panics (p : string) (src : Source) (rerr : bool)
      (a : ascii) (c : string) (cs : list string) (off : nat) (room : option nat)
      (w : World) :
  local.copy_loop p (local.reader_of None (Body src)) (String a c :: cs) rerr off room w
  = Crash (add_event (EvNetRead (S (String.length c))) w).
Proof. reflexivity. Qed.

(** X23.  In the object-store backend with both limits set, the upload
    of a body takes as many tokens from each of the two buckets as the
    body has bytes. *)
Lemma read_all_takes_tokens (up down : nat) (src : Source) :
  up <> down ->
  forall (pieces : list string) (w : World),
    exists w',
      s3.read_all (s3.body_of (Some up) (s3.reader_of (Some down) (Body src))) pieces w
      = Done tt w'
      /\ taken w' down
         = (taken w down + String.length (fold_right String.append "" pieces))%nat
      /\ taken w' up
         = (taken w up + String.length (fold_right String.append "" pieces))%nat.
Proof.
  intros Hne. induction pieces as [|c cs IH]; intros w; cbn [s3.read_all fold_right].
  - destruct (s3_Read_both_buckets up down src 0 w Hne) as (w' & -> & Hd & Hu).
    exists w'. cbn [String.length]. now repeat split.
  - unfold bind.
    destruct (s3_Read_both_buckets up down src (String.length c) w Hne)
      as (w1 & -> & Hd & Hu).
    destruct (IH w1) as (w' & -> & Hd' & Hu').
    exists w'. rewrite length_append. split; [reflexivity|]. split; lia.
Qed.

Lemma read_all_takes_tokens_witness :
  exists w',
    s3.read_all (s3.body_of (Some uploadBucket_addr)
                            (s3.reader_of (Some downloadBucket_addr)
                                          (Body sample_task.manual)))
                ["%PDF"; "-1.4"] empty_world
    = Done tt w'
    /\ taken w' downloadBucket_addr = 8%nat
    /\ taken w' uploadBucket_addr = 8%nat.
Proof.
  exact (read_all_takes_tokens uploadBucket_addr downloadBucket_addr sample_task.manual
           ltac:(discriminate) ["%PDF"; "-1.4"] empty_world).
Defined.


(** C6.  In the local backend the test on the bucket is the wrong way
    round.  Without a download limit the body is wrapped by
    [ratelimit.Reader] with the nil bucket, and the transfer of the
    sample file panics at the first bytes read; with a download limit of
    1 KiB/s the body is read as it is: the file arrives and no token has
    left the bucket. *)
Theorem local_rate_limit_inverted :
  (exists w,
      main_local "/home/u/GoG" 3 0 0 [sample_task.d]
                 (fun _ _ => sample_task.ok sample_task.manual) empty_world
      = Crash w
      /\ log w = [EvNetRead 4;
                  EvOpenFile "/home/u/GoG/Root/Extras/.manual.pdf.tmp" true;
                  EvMkdirAll "/home/u/GoG/Root/Extras" true;
                  EvReadFile "/home/u/GoG/Root/Extras/.manual.pdf.version";
                  EvConnect "https://embed.gog.com/downloads/manual" true])
  /\ (exists w,
      main_local "/home/u/GoG" 3 1 0 [sample_task.d]
                 (fun _ _ => sample_task.ok sample_task.manual) empty_world
      = Done [[Downloaded]] w
      /\ files w !! "/home/u/GoG/Root/Extras/manual.pdf" = Some "%PDF-1.4"
      /\ taken w downloadBucket_addr = 0%nat).
Proof.
  split.
  - eexists. split; vm_compute; reflexivity.
  - eexists. split; [vm_compute; reflexivity|]. split; vm_compute; reflexivity.
Qed.

(** ** Events and files across a worker's steps *)

Lemma events_since_ext (w w' : World) (dl : list Event) :
  log w' = (dl ++ log w)%list -> events_since w w' = dl.
Proof.
  intros H. unfold events_since. rewrite H, List.length_app.
  replace (List.length dl + List.length (log w) - List.length (log w))%nat
    with (List.length dl + 0)%nat by lia.
  rewrite List.firstn_app_2. cbn. apply app_nil_r.
Qed.

Lemma evolves_refl (touch : string -> Prop) (ok : Event -> bool) (w : World) :
  evolves touch ok w w.
Proof. split; [reflexivity|]. now exists []. Qed.

Lemma evolves_trans (touch : string -> Prop) (ok : Event -> bool) (w1 w2 w3 : World) :
  evolves touch ok w1 w2 -> evolves touch ok w2 w3 -> evolves touch ok w1 w3.
Proof.
  intros [F1 (d1 & L1 & O1)] [F2 (d2 & L2 & O2)]. split.
  - intros q Hq. now rewrite F2, F1.
  - exists (d2 ++ d1)%list. split.
    + now rewrite L2, L1, app_assoc.
    + rewrite forallb_app. now rewrite O1, O2.
Qed.

Lemma evolves_event (touch : string -> Prop) (ok : Event -> bool) (e : Event) (w : World) :
  ok e = true -> evolves touch ok w (add_event e w).
Proof.
  intros H. split; [reflexivity|]. exists [e]. split; [reflexivity|].
  cbn. now rewrite H.
Qed.

Lemma evolves_tokens (touch : string -> Prop) (ok : Event -> bool) (b n : nat) (w : World) :
  evolves touch ok w (add_tokens b n w).
Proof. split; [reflexivity|]. now exists []. Qed.

Lemma evolves_file (touch : string -> Prop) (ok : Event -> bool)
      (p c : string) (w : World) :
  touch p -> evolves touch ok w (set_files (fun f => <[ p := c ]> f) w).
Proof.
  intros H. split; [|now exists []].
  intros q Hq. cbn. apply lookup_insert_ne. congruence.
Qed.

(** A [Read] through any wrapping touches no file and logs the read. *)
Lemma Read_evolves (touch : string -> Prop) (r : Reader) (n : nat) (w : World) :
  evolves touch is_transfer w (final (Read r n w)).
Proof.
  revert w. induction r as [|src|r IH b]; intros w; cbn [Read].
  - apply evolves_refl.
  - now apply evolves_event.
  - unfold bind. specialize (IH w).
    destruct (Read r n w) as [[] w1|w1]; cbn [final] in *; [|exact IH].
    destruct (n =? 0)%nat; [exact IH|].
    destruct b as [b|]; cbn; [|exact IH].
    eapply evolves_trans; [exact IH|apply evolves_tokens].
Qed.

Lemma Write_run (p : string) (off : nat) (room : option nat) (c : string) (w : World) :
  exists n w',
    local.Write p off room c w = Done (n, (n <? String.length c)%nat) w'
    /\ evolves (eq p) is_transfer w w'.
Proof.
  eexists. eexists. split; [reflexivity|].
  eapply evolves_trans; [apply evolves_file; reflexivity|].
  now apply evolves_event.
Qed.

(** [io.Copy] into the file [p] touches [p] only and logs reads and
    writes only. *)
Lemma copy_loop_evolves (p : string) (reader : Reader) (rerr : bool) :
  forall (pieces : list string) (off : nat) (room : option nat) (w : World),
    evolves (eq p) is_transfer w
            (final (local.copy_loop p reader pieces rerr off room w)).
Proof.
  induction pieces as [|c cs IH]; intros off room w; cbn [local.copy_loop].
  - unfold bind. pose proof (Read_evolves (eq p) reader 0 w) as H.
    destruct (Read reader 0 w) as [[] w1|w1]; exact H.
  - unfold bind at 1. pose proof (Read_evolves (eq p) reader (String.length c) w) as H.
    destruct (Read reader (String.length c) w) as [[] w1|w1]; [|exact H].
    cbn [final] in H.
    destruct (String.length c =? 0)%nat.
    { eapply evolves_trans; [exact H|apply IH]. }
    unfold bind.
    destruct (Write_run p off room c w1) as (n & w2 & -> & H2). cbn [fst snd].
    destruct (n <? _)%nat.
    + cbn [final]. eapply evolves_trans; eassumption.
    + eapply evolves_trans; [exact H|].
      eapply evolves_trans; [exact H2|apply IH].
Qed.

(** The uploader reading its body touches no object. *)
Lemma read_all_evolves (touch : string -> Prop) (reader : Reader) :
  forall (pieces : list string) (w : World),
    evolves touch is_transfer w (final (s3.read_all reader pieces w)).
Proof.
  induction pieces as [|c cs IH]; intros w; cbn [s3.read_all].
  - apply Read_evolves.
  - unfold bind. pose proof (Read_evolves touch reader (String.length c) w) as H.
    destruct (Read reader (String.length c) w) as [[] w1|w1]; [|exact H].
    eapply evolves_trans; [exact H|apply IH].
Qed.

Lemma transfer_inert (dl : list Event) :
  forallb is_transfer dl = true ->
  existsb is_promotion dl = false /\ existsb is_marker_write dl = false.
Proof.
  induction dl as [|e dl IH]; [now split|].
  cbn [forallb existsb]. intros [He Hdl]%andb_prop.
  destruct (IH Hdl) as [-> ->]. destruct e; try discriminate; now split.
Qed.

(** [downloadFile] of the local backend: it writes no marker; it renames
    exactly when it returns no error; and apart from the temporary file,
    and from the final name when it renames, it leaves every file as it
    was. *)
Lemma local_downloadFile_summary (env : Env) (reader : Reader)
      (path filename : string) (w : World) :
  let r := local.downloadFile env reader path filename w in
  let tmp := path ++ "/." ++ filename ++ ".tmp" in
  let out := path ++ "/" ++ filename in
  let renamed := match r with Done false _ => true | _ => false end in
  exists dl,
    log (final r) = (dl ++ log w)%list
    /\ existsb is_marker_write dl = false
    /\ existsb is_promotion dl = renamed
    /\ (forall q, q <> tmp -> (renamed = true -> q <> out) ->
                  files (final r) !! q = files w !! q).
Proof.
  intros r tmp out renamed. subst r renamed tmp out. unfold local.downloadFile.
  cbv zeta.
  remember (path ++ "/." ++ filename ++ ".tmp") as tmp eqn:Htmp.
  remember (path ++ "/" ++ filename) as out eqn:Hout.
  destruct (filename =? "") eqn:Hf.
  { exists []. cbn. repeat split; auto. }
  unfold local.MkdirAll, local.OpenFile, local.io_Copy, local.Rename.
  unfold bind, emit_event, modify, ret.
  destruct (mkdir_ok env).
  2:{ eexists [_]. cbn. repeat split; auto. }
  destruct (open_ok env).
  2:{ eexists [_; _]. cbn. repeat split; auto. }
  destruct (local.source_of reader) as [src|].
  2:{ eexists [_; _]. cbn. split; [reflexivity|]. repeat split; auto.
      intros q Hq _. destruct (files w !! _); [reflexivity|].
      apply lookup_insert_ne. congruence. }
  match goal with |- context [local.copy_loop ?p ?rd ?ps ?re ?o ?rm ?w0] =>
    pose proof (copy_loop_evolves p rd re ps o rm w0) as [F (dl & L & O)];
    destruct (local.copy_loop p rd ps re o rm w0) as [[] w2|w2] eqn:E
  end; cbn [final] in *.
  all: destruct (transfer_inert dl O) as [Hp Hm].
  all: assert (F' : forall q, q <> tmp -> files w2 !! q = files w !! q)
      by (intros q Hq; rewrite F by congruence; cbn;
          destruct (files w !! tmp); [reflexivity|];
          apply lookup_insert_ne; congruence).
  all: cbn [log set_files add_event add_dir] in L.
  - exists (dl ++ [EvOpenFile tmp true; EvMkdirAll path true])%list.
    rewrite L, <- app_assoc, existsb_app, existsb_app, Hm, Hp. auto.
  - destruct (rename_ok env); cbn [final log set_files add_event files].
    + exists (EvRename tmp out true :: dl ++ [EvOpenFile tmp true; EvMkdirAll path true])%list.
      rewrite L, <- app_comm_cons, <- app_assoc.
      cbn [existsb is_marker_write is_promotion].
      rewrite existsb_app, existsb_app, Hm, Hp.
      split; [reflexivity|]. split; [reflexivity|]. split; [reflexivity|].
      intros q Hq Hout'. specialize (Hout' eq_refl).
      destruct (files w2 !! tmp).
      * rewrite lookup_insert_ne, lookup_delete_ne by congruence. now apply F'.
      * now apply F'.
    + exists (EvRename tmp out false :: dl ++ [EvOpenFile tmp true; EvMkdirAll path true])%list.
      rewrite L, <- app_comm_cons, <- app_assoc.
      cbn [existsb is_marker_write is_promotion].
      rewrite existsb_app, existsb_app, Hm, Hp. auto.
  - exists (dl ++ [EvOpenFile tmp true; EvMkdirAll path true])%list.
    rewrite L, <- app_assoc, existsb_app, existsb_app, Hm, Hp. auto.
Qed.

(** [downloadFile] of the object-store backend: no marker is written;
    the copy to the final key succeeds exactly when no error is returned;
    apart from the temporary key, and from the final key when it is
    copied to, every object is left as it was. *)
Lemma s3_downloadFile_summary (uploadBucket : option nat) (env : Env) (reader : Reader)
      (basepath filename : string) (w : World) :
  let r := s3.downloadFile uploadBucket env reader basepath filename w in
  let tmp := path.Join basepath ("." ++ filename ++ ".tmp") in
  let key := path.Join basepath filename in
  let copied := match r with Done false _ => true | _ => false end in
  exists dl,
    log (final r) = (dl ++ log w)%list
    /\ existsb is_marker_write dl = false
    /\ existsb is_promotion dl = copied
    /\ (forall q, q <> tmp -> (copied = true -> q <> key) ->
                  files (final r) !! q = files w !! q).
Proof.
  intros r tmp key copied. subst r copied tmp key. unfold s3.downloadFile.
  cbv zeta.
  remember (path.Join basepath ("." ++ filename ++ ".tmp")) as tmp eqn:Htmp.
  remember (path.Join basepath filename) as key eqn:Hkey.
  unfold s3.Upload, s3.CopyObject, s3.DeleteObject.
  unfold bind, emit_event, modify, ret, panic.
  destruct (s3.source_of (s3.body_of uploadBucket reader)) as [src|].
  2:{ exists []. cbn. repeat split; auto. }
  pose proof (read_all_evolves (fun _ => False) (s3.body_of uploadBucket reader)
                               (chunks src) w) as [F (dl & L & O)].
  destruct (s3.read_all _ _ w) as [[] w1|w1]; cbn [final] in *.
  2:{ destruct (transfer_inert dl O) as [Hp Hm]. exists dl.
      repeat split; auto. }
  destruct (transfer_inert dl O) as [Hp Hm].
  destruct (negb (read_err src) && upload_ok env).
  2:{ exists (EvUpload tmp false :: dl)%list. cbn. rewrite L, Hp, Hm.
      repeat split; auto. }
  destruct (copy_ok env), (delete_ok env);
    cbn [final log files set_files add_event].
  all: eexists (_ :: _ :: _ :: dl)%list.
  all: rewrite L; cbn [app existsb is_marker_write is_promotion orb].
  all: rewrite Hp, Hm.
  all: split; [reflexivity|]; split; [reflexivity|]; split; [reflexivity|].
  all: intros q Hq Hkey'; try specialize (Hkey' eq_refl).
  all: rewrite ?lookup_delete_ne by congruence.
  all: rewrite ?lookup_insert_eq.
  all: rewrite ?lookup_insert_ne by congruence.
  all: auto.
Qed.

(** ** One pass through the retry loop *)

Lemma no_marker_filter (dl : list Event) :
  existsb is_marker_write dl = false -> List.filter is_marker_write dl = [].
Proof.
  induction dl as [|e dl IH]; [reflexivity|].
  cbn [existsb List.filter]. intros [He Hdl]%orb_false_elim.
  rewrite He. auto.
Qed.

(** The pass of the local backend, with the bookkeeping of the monad
    carried out: what is left is the case analysis of the source. *)
Lemma local_attempt_unfold (targetDir : string) (bucket : option nat)
      (d : backend.GogFile) (env : Env) (w : World) :
  local.attempt targetDir bucket d env w =
  let dir := targetDir ++ "/" ++ backend.File d in
  match response env with
  | None => Done ConnectFailed (add_event (EvConnect (backend.URL d) false) w)
  | Some src =>
      let marker := dir ++ "/." ++ filename src ++ ".version" in
      let out := dir ++ "/" ++ filename src in
      let reader := local.reader_of bucket (Body src) in
      let w1 := add_event (EvConnect (backend.URL d) true) w in
      if backend.Version d =? "" then
        let w2 := add_event (EvExists out) w1 in
        if bool_decide (is_Some (files w !! out))
           || bool_decide (strings.trimRightByte out "/" ∈ dirs w)
        then Done AlreadyBackedUp (add_event EvClose w2)
        else
          match local.downloadFile env reader dir (filename src) w2 with
          | Done false w3 => Done Downloaded (add_event EvClose w3)
          | Done true w3 => Done DownloadFailed (add_event EvClose w3)
          | Crash w3 => Crash w3
          end
      else
        let w2 := add_event (EvReadFile marker) w1 in
        if default "" (files w !! marker) =? backend.Version d
        then Done UpToDate (add_event EvClose w2)
        else
          match local.downloadFile env reader dir (filename src) w2 with
          | Done false w3 =>
              let w4 := add_event (EvWriteFile marker (backend.Version d) (marker_ok env))
                                  (add_event EvClose w3) in
              if marker_ok env
              then Done Downloaded
                        (set_files (fun f => <[ marker := backend.Version d ]> f) w4)
              else
                match marker_left env with
                | None => Done VersionNotSaved w4
                | Some n =>
                    Done VersionNotSaved
                         (set_files
                            (fun f => <[ marker := substring 0 n (backend.Version d) ]> f)
                            w4)
                end
          | Done true w3 => Done DownloadFailed (add_event EvClose w3)
          | Crash w3 => Crash w3
          end
  end.
Proof.
  unfold local.attempt, local.client_DownloadFile. cbv zeta.
  destruct (response env) as [src|]; [|reflexivity].
  unfold local.ReadFile, local.Stat, local.Close, local.WriteFile.
  unfold bind, emit_event, modify, ret, get.
  destruct (backend.Version d =? ""); cbn [negb].
  - destruct (_ || _); [reflexivity|].
    destruct (local.downloadFile _ _ _ _ _) as [[] w3|w3]; reflexivity.
  - cbn [files add_event].
    destruct (_ =? backend.Version d); [reflexivity|].
    destruct (local.downloadFile _ _ _ _ _) as [[] w3|w3]; try reflexivity.
    destruct (marker_ok env); [reflexivity|].
    destruct (marker_left env); reflexivity.
Qed.

(** What a pass of the local backend does to the log and to the files:
    it renames to the final name exactly when it ends in [Downloaded] or
    [VersionNotSaved]; it writes the marker, once and with the task's
    tag, exactly when moreover the task has a version tag; and every file
    other than the temporary file, the final file when it renames and the
    marker when it writes one is left as it was. *)
Lemma local_attempt_summary (targetDir : string) (bucket : option nat)
      (d : backend.GogFile) (env : Env) (w : World) :
  let b := Local targetDir bucket in
  let r := local.attempt targetDir bucket d env w in
  let marked := promoted r && negb (backend.Version d =? "") in
  exists dl,
    log (final r) = (dl ++ log w)%list
    /\ existsb is_promotion dl = promoted r
    /\ List.filter is_marker_write dl =
       (if marked
        then [EvWriteFile (marker_name b d (resolved env)) (backend.Version d)
                          (marker_ok env)]
        else [])
    /\ (forall q, q <> tmp_name b d (resolved env) ->
                  (promoted r = true -> q <> final_name b d (resolved env)) ->
                  (marked = true -> q <> marker_name b d (resolved env)) ->
                  files (final r) !! q = files w !! q).
Proof.
  intros b r marked. subst b r marked.
  rewrite local_attempt_unfold.
  unfold tmp_name, final_name, marker_name, dest_name, dest_dir, resolved.
  cbv zeta.
  remember (targetDir ++ "/" ++ backend.File d) as dir eqn:Hdir.
  destruct (response env) as [src|].
  2:{ exists [EvConnect (backend.URL d) false]. cbn. repeat split; auto. }
  change (dir ++ "/" ++ "." ++ filename src ++ ".version")
    with (dir ++ "/." ++ filename src ++ ".version").
  change (dir ++ "/" ++ "." ++ filename src ++ ".tmp")
    with (dir ++ "/." ++ filename src ++ ".tmp").
  remember (dir ++ "/." ++ filename src ++ ".version") as marker eqn:Hmarker.
  remember (dir ++ "/." ++ filename src ++ ".tmp") as tmp eqn:Htmp.
  remember (dir ++ "/" ++ filename src) as out eqn:Hout.
  remember (local.reader_of bucket (Body src)) as reader eqn:Hreader.
  destruct (backend.Version d =? "") eqn:HV; cbn [negb].
  - (* no version tag *)
    destruct (_ || _).
    { exists [EvClose; EvExists out; EvConnect (backend.URL d) true].
      cbn. repeat split; auto. }
    pose proof (local_downloadFile_summary env reader dir (filename src)
                  (add_event (EvExists out) (add_event (EvConnect (backend.URL d) true) w)))
      as (dl & L & Hm & Hp & F).
    cbv zeta in L, Hm, Hp, F. rewrite <- Htmp, <- Hout in F.
    apply no_marker_filter in Hm.
    destruct (local.downloadFile _ _ _ _ _) as [[] w3|w3];
      cbn [final log add_event files promoted andb] in *.
    + exists (EvClose :: dl ++ [EvExists out; EvConnect (backend.URL d) true])%list.
      rewrite L, <- app_comm_cons, <- app_assoc.
      cbn [existsb List.filter is_promotion is_marker_write orb].
      rewrite existsb_app, List.filter_app, Hp, Hm.
      repeat split; auto.
    + exists (EvClose :: dl ++ [EvExists out; EvConnect (backend.URL d) true])%list.
      rewrite L, <- app_comm_cons, <- app_assoc.
      cbn [existsb List.filter is_promotion is_marker_write orb].
      rewrite existsb_app, List.filter_app, Hp, Hm.
      repeat split; auto.
    + exists (dl ++ [EvExists out; EvConnect (backend.URL d) true])%list.
      rewrite L, <- app_assoc.
      rewrite existsb_app, List.filter_app, Hp, Hm.
      repeat split; auto.
  - (* a version tag *)
    destruct (_ =? backend.Version d).
    { exists [EvClose; EvReadFile marker; EvConnect (backend.URL d) true].
      cbn. repeat split; auto. }
    pose proof (local_downloadFile_summary env reader dir (filename src)
                  (add_event (EvReadFile marker) (add_event (EvConnect (backend.URL d) true) w)))
      as (dl & L & Hm & Hp & F).
    cbv zeta in L, Hm, Hp, F. rewrite <- Htmp, <- Hout in F.
    apply no_marker_filter in Hm.
    destruct (local.downloadFile _ _ _ _ _) as [[] w3|w3];
      cbn [final log add_event files promoted andb] in *.
    + exists (EvClose :: dl ++ [EvReadFile marker; EvConnect (backend.URL d) true])%list.
      rewrite L, <- app_comm_cons, <- app_assoc.
      cbn [existsb List.filter is_promotion is_marker_write orb].
      rewrite existsb_app, List.filter_app, Hp, Hm.
      repeat split; auto.
    + destruct (marker_ok env); cbn [final log add_event set_files files promoted andb].
      * exists (EvWriteFile marker (backend.Version d) true :: EvClose
                  :: dl ++ [EvReadFile marker; EvConnect (backend.URL d) true])%list.
        rewrite L, <- !app_comm_cons, <- app_assoc.
        cbn [existsb List.filter is_promotion is_marker_write orb].
        rewrite existsb_app, List.filter_app, Hp, Hm.
        split; [reflexivity|]. split; [reflexivity|]. split; [reflexivity|].
        intros q Hq Ho Hk. rewrite lookup_insert_ne by (specialize (Hk eq_refl); congruence).
        apply F; auto.
      * exists (EvWriteFile marker (backend.Version d) false :: EvClose
                  :: dl ++ [EvReadFile marker; EvConnect (backend.URL d) true])%list.
        destruct (marker_left env) as [n|];
          cbn [final log add_event set_files files promoted andb];
          rewrite L, <- !app_comm_cons, <- app_assoc;
          cbn [existsb List.filter is_promotion is_marker_write orb];
          rewrite existsb_app, List.filter_app, Hp, Hm.
        -- split; [reflexivity|]. split; [reflexivity|]. split; [reflexivity|].
           intros q Hq Ho Hk.
           rewrite lookup_insert_ne by (specialize (Hk eq_refl); congruence).
           apply F; auto.
        -- repeat split; auto.
    + exists (dl ++ [EvReadFile marker; EvConnect (backend.URL d) true])%list.
      rewrite L, <- app_assoc.
      rewrite existsb_app, List.filter_app, Hp, Hm.
      repeat split; auto.
Qed.

(** The same for the pass of the object-store backend. *)
Lemma s3_attempt_unfold (prefix : string) (uploadBucket downloadBucket : option nat)
      (d : backend.GogFile) (env : Env) (w : World) :
  s3.attempt prefix uploadBucket downloadBucket d env w =
  let dir := s3.basepath_of prefix d in
  match response env with
  | None => Done ConnectFailed (add_event (EvConnect (backend.URL d) false) w)
  | Some src =>
      let marker := path.Join dir ("." ++ filename src ++ ".version") in
      let key := path.Join dir (filename src) in
      let reader := s3.reader_of downloadBucket (Body src) in
      let w1 := add_event (EvConnect (backend.URL d) true) w in
      if backend.Version d =? "" then
        let w2 := add_event (EvExists key) w1 in
        if bool_decide (is_Some (files w !! key))
        then Done AlreadyBackedUp (add_event EvClose w2)
        else
          match s3.downloadFile uploadBucket env reader dir (filename src) w2 with
          | Done false w3 => Done Downloaded (add_event EvClose w3)
          | Done true w3 => Done DownloadFailed (add_event EvClose w3)
          | Crash w3 => Crash w3
          end
      else
        let w2 := add_event (EvReadFile marker) w1 in
        let lastVersion :=
          match files w !! marker with
          | Some c => strings.trimRightByte (s3.buffer_after c) s3.NUL
          | None => ""
          end in
        if lastVersion =? backend.Version d
        then Done UpToDate (add_event EvClose w2)
        else
          match s3.downloadFile uploadBucket env reader dir (filename src) w2 with
          | Done false w3 =>
              let w4 := add_event (EvWriteFile marker (backend.Version d) (marker_ok env))
                                  (add_event EvClose w3) in
              if marker_ok env
              then Done Downloaded
                        (set_files (fun f => <[ marker := backend.Version d ]> f) w4)
              else Done VersionNotSaved w4
          | Done true w3 => Done DownloadFailed (add_event EvClose w3)
          | Crash w3 => Crash w3
          end
  end.
Proof.
  unfold s3.attempt, s3.client_DownloadFile. cbv zeta.
  destruct (response env) as [src|]; [|reflexivity].
  unfold s3.readFile, s3.fileExists, s3.Close, s3.writeFile.
  unfold bind, emit_event, modify, ret, get.
  destruct (backend.Version d =? ""); cbn [negb].
  - cbn [files add_event]. destruct (bool_decide _); [reflexivity|].
    destruct (s3.downloadFile _ _ _ _ _ _) as [[] w3|w3]; reflexivity.
  - cbn [files add_event].
    destruct (files w !! _) as [c|]; cbn [fst].
    + destruct (_ =? backend.Version d); [reflexivity|].
      destruct (s3.downloadFile _ _ _ _ _ _) as [[] w3|w3]; try reflexivity.
      destruct (marker_ok env); reflexivity.
    + destruct (_ =? backend.Version d); [reflexivity|].
      destruct (s3.downloadFile _ _ _ _ _ _) as [[] w3|w3]; try reflexivity.
      destruct (marker_ok env); reflexivity.
Qed.

Lemma s3_attempt_summary (prefix : string) (uploadBucket downloadBucket : option nat)
      (d : backend.GogFile) (env : Env) (w : World) :
  let b := S3 prefix uploadBucket downloadBucket in
  let r := s3.attempt prefix uploadBucket downloadBucket d env w in
  let marked := promoted r && negb (backend.Version d =? "") in
  exists dl,
    log (final r) = (dl ++ log w)%list
    /\ existsb is_promotion dl = promoted r
    /\ List.filter is_marker_write dl =
       (if marked
        then [EvWriteFile (marker_name b d (resolved env)) (backend.Version d)
                          (marker_ok env)]
        else [])
    /\ (forall q, q <> tmp_name b d (resolved env) ->
                  (promoted r = true -> q <> final_name b d (resolved env)) ->
                  (marked = true -> q <> marker_name b d (resolved env)) ->
                  files (final r) !! q = files w !! q).
Proof.
  intros b r marked. subst b r marked.
  rewrite s3_attempt_unfold.
  unfold tmp_name, final_name, marker_name, dest_name, dest_dir, resolved.
  cbv zeta.
  remember (s3.basepath_of prefix d) as dir eqn:Hdir.
  destruct (response env) as [src|].
  2:{ exists [EvConnect (backend.URL d) false]. cbn. repeat split; auto. }
  remember (path.Join dir ("." ++ filename src ++ ".version")) as marker eqn:Hmarker.
  remember (path.Join dir ("." ++ filename src ++ ".tmp")) as tmp eqn:Htmp.
  remember (path.Join dir (filename src)) as key eqn:Hkey.
  remember (s3.reader_of downloadBucket (Body src)) as reader eqn:Hreader.
  destruct (backend.Version d =? "") eqn:HV; cbn [negb].
  - (* no version tag *)
    destruct (bool_decide _).
    { exists [EvClose; EvExists key; EvConnect (backend.URL d) true].
      cbn. repeat split; auto. }
    pose proof (s3_downloadFile_summary uploadBucket env reader dir (filename src)
                  (add_event (EvExists key) (add_event (EvConnect (backend.URL d) true) w)))
      as (dl & L & Hm & Hp & F).
    cbv zeta in L, Hm, Hp, F. rewrite <- Htmp, <- Hkey in F.
    apply no_marker_filter in Hm.
    destruct (s3.downloadFile _ _ _ _ _ _) as [[] w3|w3];
      cbn [final log add_event files promoted andb] in *.
    + exists (EvClose :: dl ++ [EvExists key; EvConnect (backend.URL d) true])%list.
      rewrite L, <- app_comm_cons, <- app_assoc.
      cbn [existsb List.filter is_promotion is_marker_write orb].
      rewrite existsb_app, List.filter_app, Hp, Hm.
      repeat split; auto.
    + exists (EvClose :: dl ++ [EvExists key; EvConnect (backend.URL d) true])%list.
      rewrite L, <- app_comm_cons, <- app_assoc.
      cbn [existsb List.filter is_promotion is_marker_write orb].
      rewrite existsb_app, List.filter_app, Hp, Hm.
      repeat split; auto.
    + exists (dl ++ [EvExists key; EvConnect (backend.URL d) true])%list.
      rewrite L, <- app_assoc.
      rewrite existsb_app, List.filter_app, Hp, Hm.
      repeat split; auto.
  - (* a version tag *)
    destruct (_ =? backend.Version d).
    { exists [EvClose; EvReadFile marker; EvConnect (backend.URL d) true].
      cbn. repeat split; auto. }
    pose proof (s3_downloadFile_summary uploadBucket env reader dir (filename src)
                  (add_event (EvReadFile marker) (add_event (EvConnect (backend.URL d) true) w)))
      as (dl & L & Hm & Hp & F).
    cbv zeta in L, Hm, Hp, F. rewrite <- Htmp, <- Hkey in F.
    apply no_marker_filter in Hm.
    destruct (s3.downloadFile _ _ _ _ _ _) as [[] w3|w3];
      cbn [final log add_event files promoted andb] in *.
    + exists (EvClose :: dl ++ [EvReadFile marker; EvConnect (backend.URL d) true])%list.
      rewrite L, <- app_comm_cons, <- app_assoc.
      cbn [existsb List.filter is_promotion is_marker_write orb].
      rewrite existsb_app, List.filter_app, Hp, Hm.
      repeat split; auto.
    + destruct (marker_ok env); cbn [final log add_event set_files files promoted andb].
      * exists (EvWriteFile marker (backend.Version d) true :: EvClose
                  :: dl ++ [EvReadFile marker; EvConnect (backend.URL d) true])%list.
        rewrite L, <- !app_comm_cons, <- app_assoc.
        cbn [existsb List.filter is_promotion is_marker_write orb].
        rewrite existsb_app, List.filter_app, Hp, Hm.
        split; [reflexivity|]. split; [reflexivity|]. split; [reflexivity|].
        intros q Hq Ho Hk. rewrite lookup_insert_ne by (specialize (Hk eq_refl); congruence).
        apply F; auto.
      * exists (EvWriteFile marker (backend.Version d) false :: EvClose
                  :: dl ++ [EvReadFile marker; EvConnect (backend.URL d) true])%list.
        rewrite L, <- !app_comm_cons, <- app_assoc.
        cbn [existsb List.filter is_promotion is_marker_write orb].
        rewrite existsb_app, List.filter_app, Hp, Hm.
        repeat split; auto.
    + exists (dl ++ [EvReadFile marker; EvConnect (backend.URL d) true])%list.
      rewrite L, <- app_assoc.
      rewrite existsb_app, List.filter_app, Hp, Hm.
      repeat split; auto.
Qed.

(** Both backends at once. *)
Lemma attempt_summary (b : Backend) (d : backend.GogFile) (env : Env) (w : World) :
  let r := attempt_of b d env w in
  let marked := promoted r && negb (backend.Version d =? "") in
  exists dl,
    log (final r) = (dl ++ log w)%list
    /\ existsb is_promotion dl = promoted r
    /\ List.filter is_marker_write dl =
       (if marked
        then [EvWriteFile (marker_name b d (resolved env)) (backend.Version d)
                          (marker_ok env)]
        else [])
    /\ (forall q, q <> tmp_name b d (resolved env) ->
                  (promoted r = true -> q <> final_name b d (resolved env)) ->
                  (marked = true -> q <> marker_name b d (resolved env)) ->
                  files (final r) !! q = files w !! q).
Proof.
  destruct b as [targetDir bucket|prefix up down].
  - apply local_attempt_summary.
  - apply s3_attempt_summary.
Qed.

(** ** The version marker *)

(** When the marker write succeeds, the marker holds the tag. *)
Lemma marker_stored (b : Backend) (d : backend.GogFile) (env : Env) (w : World) :
  let r := attempt_of b d env w in
  promoted r = true -> (backend.Version d =? "") = false -> marker_ok env = true ->
  files (final r) !! marker_name b d (resolved env) = Some (backend.Version d).
Proof.
  cbv zeta. intros Hp HV Hok. revert Hp.
  destruct b as [targetDir bucket|prefix up down]; cbn [attempt_of].
  - rewrite local_attempt_unfold. cbv zeta.
    unfold marker_name, dest_name, dest_dir, resolved.
    destruct (response env) as [src|]; [|discriminate].
    rewrite HV, Hok.
    destruct (_ =? backend.Version d); [discriminate|].
    destruct (local.downloadFile _ _ _ _ _) as [[] w3|w3]; try discriminate.
    intros _. cbn [final files set_files]. apply lookup_insert_eq.
  - rewrite s3_attempt_unfold. cbv zeta.
    unfold marker_name, dest_name, dest_dir, resolved.
    destruct (response env) as [src|]; [|discriminate].
    rewrite HV, Hok.
    destruct (_ =? backend.Version d); [discriminate|].
    destruct (s3.downloadFile _ _ _ _ _ _) as [[] w3|w3]; try discriminate.
    intros _. cbn [final files set_files]. apply lookup_insert_eq.
Qed.

(** A pass that ends as downloaded for a task with a version tag has
    written the marker. *)
Lemma downloaded_marker_ok (b : Backend) (d : backend.GogFile) (env : Env)
      (w w' : World) :
  attempt_of b d env w = Done Downloaded w' ->
  (backend.Version d =? "") = false ->
  marker_ok env = true.
Proof.
  intros H HV. destruct b as [targetDir bucket|prefix up down]; cbn [attempt_of] in H.
  - rewrite local_attempt_unfold in H. cbv zeta in H.
    destruct (response env) as [src|]; [|discriminate]. rewrite HV in H.
    destruct (_ =? backend.Version d); [discriminate|].
    destruct (local.downloadFile _ _ _ _ _) as [[] w3|w3]; try discriminate.
    destruct (marker_ok env); [reflexivity|].
    destruct (marker_left env); discriminate.
  - rewrite s3_attempt_unfold in H. cbv zeta in H.
    destruct (response env) as [src|]; [|discriminate]. rewrite HV in H.
    destruct (_ =? backend.Version d); [discriminate|].
    destruct (s3.downloadFile _ _ _ _ _ _) as [[] w3|w3]; try discriminate.
    now destruct (marker_ok env).
Qed.

(** The write of the marker is the last thing a pass does. *)
Lemma marker_write_last (b : Backend) (d : backend.GogFile) (env : Env) (w : World) :
  promoted (attempt_of b d env w) = true ->
  (backend.Version d =? "") = false ->
  exists dl',
    log (final (attempt_of b d env w))
    = (EvWriteFile (marker_name b d (resolved env)) (backend.Version d) (marker_ok env)
       :: dl' ++ log w)%list.
Proof.
  intros Hp HV. revert Hp.
  destruct b as [targetDir bucket|prefix up down]; cbn [attempt_of].
  - rewrite local_attempt_unfold. cbv zeta.
    unfold marker_name, dest_name, dest_dir, resolved.
    destruct (response env) as [src|]; [|discriminate].
    rewrite HV.
    destruct (_ =? backend.Version d); [discriminate|].
    match goal with |- context [local.downloadFile ?e ?r ?p ?f ?w0] =>
      destruct (local_downloadFile_summary e r p f w0) as (dl & L & _);
      destruct (local.downloadFile e r p f w0) as [[] w3|w3]
    end; try discriminate.
    cbn [final log add_event] in L. intros _.
    match type of L with
    | _ = (dl ++ ?e2 :: ?e1 :: log w)%list => exists (EvClose :: dl ++ [e2; e1])%list
    end.
    destruct (marker_ok env); [|destruct (marker_left env)];
      cbn [final log add_event set_files]; rewrite L;
      now rewrite <- app_comm_cons, <- app_assoc.
  - rewrite s3_attempt_unfold. cbv zeta.
    unfold marker_name, dest_name, dest_dir, resolved.
    destruct (response env) as [src|]; [|discriminate].
    rewrite HV.
    destruct (_ =? backend.Version d); [discriminate|].
    match goal with |- context [s3.downloadFile ?u ?e ?r ?p ?f ?w0] =>
      destruct (s3_downloadFile_summary u e r p f w0) as (dl & L & _);
      destruct (s3.downloadFile u e r p f w0) as [[] w3|w3]
    end; try discriminate.
    cbn [final log add_event] in L. intros _.
    match type of L with
    | _ = (dl ++ ?e2 :: ?e1 :: log w)%list => exists (EvClose :: dl ++ [e2; e1])%list
    end.
    destruct (marker_ok env);
      cbn [final log add_event set_files]; rewrite L;
      now rewrite <- app_comm_cons, <- app_assoc.
Qed.

(** C4, as amended.  In every pass of either backend the worker tries to
    write the version marker exactly when the transfer of that pass has
    completed without error (the file has been given its final name) and
    the task carries a version tag; it then tries once, as the last
    thing the pass does, at [<dir>/.<filename>.version] and with the
    task's tag.  When that write succeeds the marker is at the
    destination and holds the tag; when it fails the pass ends with
    "Unable to save version file"; and a pass that does not try to write
    the marker leaves it as it was. *)
Theorem marker_write_after_transfer (b : Backend) (d : backend.GogFile)
        (env : Env) (w : World) :
  let r := attempt_of b d env w in
  let dl := events_since w (final r) in
  let marker := marker_name b d (resolved env) in
  let due := existsb is_promotion dl && negb (backend.Version d =? "") in
  List.filter is_marker_write dl
  = (if due then [EvWriteFile marker (backend.Version d) (marker_ok env)] else [])
  /\ (due = true ->
      exists dl',
        dl = EvWriteFile marker (backend.Version d) (marker_ok env) :: dl'
        /\ existsb is_promotion dl' = true)
  /\ (due && marker_ok env = true ->
      files (final r) !! marker = Some (backend.Version d))
  /\ (due && negb (marker_ok env) = true ->
      exists w', r = Done VersionNotSaved w')
  /\ (due = false ->
      marker <> tmp_name b d (resolved env) ->
      marker <> final_name b d (resolved env) ->
      files (final r) !! marker = files w !! marker).
Proof.
  cbv zeta.
  destruct (attempt_summary b d env w) as (dl & L & Hp & Hm & F).
  cbv zeta in L, Hp, Hm, F.
  rewrite (events_since_ext _ _ _ L), Hp.
  split; [exact Hm|]. split; [|split; [|split]].
  - intros [Hpr HV]%andb_prop. apply negb_true_iff in HV.
    destruct (marker_write_last b d env w Hpr HV) as (dl' & L').
    rewrite L, app_comm_cons in L'. apply app_inv_tail in L'. subst dl.
    exists dl'. split; [reflexivity|].
    cbn [existsb is_promotion orb] in Hp. now rewrite Hp.
  - intros [[Hpr HV]%andb_prop Hok]%andb_prop.
    apply negb_true_iff in HV. now apply marker_stored.
  - intros [[Hpr HV]%andb_prop Hok]%andb_prop.
    apply negb_true_iff in HV. apply negb_true_iff in Hok.
    destruct (attempt_of b d env w) as [[] w'|w'] eqn:E; try discriminate.
    + eauto.
    + pose proof (downloaded_marker_ok b d env w w' E HV). congruence.
  - intros Hdue Htmp Hfin. apply F; [exact Htmp|intros _; exact Hfin|].
    rewrite Hdue. discriminate.
Qed.

(** C4, as stated, fails when the marker cannot be written: the transfer
    of the pass has completed without error, the file has its final name
    and holds the body, the task carries a version tag, and yet no
    marker is at the destination. *)
Lemma marker_missing_after_transfer :
  exists w',
    attempt_of (Local "/home/u/GoG" (Some 0%nat)) sample_task.d
               (marker_refused sample_task.manual) empty_world
    = Done VersionNotSaved w'
    /\ existsb is_promotion (events_since empty_world w') = true
    /\ files w' !! "/home/u/GoG/Root/Extras/manual.pdf" = Some "%PDF-1.4"
    /\ (backend.Version sample_task.d =? "") = false
    /\ files w' !! marker_name (Local "/home/u/GoG" (Some 0%nat)) sample_task.d
                               "manual.pdf"
       = None.
Proof.
  eexists. split; [vm_compute; reflexivity|].
  split; [vm_compute; reflexivity|]. split; [vm_compute; reflexivity|].
  split; vm_compute; reflexivity.
Qed.

(** ** The retry loop *)

Lemma task_of_retry_loop (b : Backend) (retries : Z) (d : backend.GogFile)
      (env : nat -> Env) :
  task_of b retries d env = retry_loop (attempt_of b d) env (Z.to_nat retries) 1.
Proof. destruct b; reflexivity. Qed.

(** Never more passes than allowed. *)
Lemma retry_loop_at_most (attempt : Env -> M Outcome) (env : nat -> Env) :
  forall (left i : nat) (w : World) (os : list Outcome) (w' : World),
    retry_loop attempt env left i w = Done os w' ->
    (List.length os <= left)%nat.
Proof.
  induction left as [|left IH]; intros i w os w' H; cbn [retry_loop] in H.
  - injection H as <- _. cbn. lia.
  - unfold bind at 1 in H. destruct (attempt (env i) w) as [o w1|w1]; [|discriminate].
    destruct (continues o).
    + unfold bind in H.
      destruct (retry_loop attempt env left (S i) w1) as [os' w2|w2] eqn:E; [|discriminate].
      injection H as <- _. cbn. apply IH in E. lia.
    + injection H as <- _. cbn. lia.
Qed.

(** The loop goes on exactly as long as the passes fail: every outcome
    but the last one is a failure. *)
Lemma retry_loop_stops (attempt : Env -> M Outcome) (env : nat -> Env) :
  forall (left i : nat) (w : World) (os : list Outcome) (w' : World),
    retry_loop attempt env left i w = Done os w' ->
    forallb continues (removelast os) = true.
Proof.
  induction left as [|left IH]; intros i w os w' H; cbn [retry_loop] in H.
  - now injection H as <- _.
  - unfold bind at 1 in H. destruct (attempt (env i) w) as [o w1|w1]; [|discriminate].
    destruct (continues o) eqn:Ho.
    + unfold bind in H.
      destruct (retry_loop attempt env left (S i) w1) as [os' w2|w2] eqn:E; [|discriminate].
      injection H as <- _. apply IH in E.
      destruct os' as [|o' os']; [reflexivity|].
      change (removelast (o :: o' :: os')) with (o :: removelast (o' :: os')).
      cbn [forallb]. now rewrite Ho, E.
    + now injection H as <- _.
Qed.

(** When every pass fails, all the passes allowed are made; no file is
    given its final name, no marker is written, and only temporary names
    are touched. *)
Lemma retry_loop_all_failed (b : Backend) (d : backend.GogFile) (env : nat -> Env) :
  forall (left i : nat) (w : World) (os : list Outcome) (w' : World),
    retry_loop (attempt_of b d) env left i w = Done os w' ->
    forallb continues os = true ->
    List.length os = left
    /\ exists dl,
        log w' = (dl ++ log w)%list
        /\ existsb is_promotion dl = false
        /\ List.filter is_marker_write dl = []
        /\ (forall q, (forall f, q <> tmp_name b d f) ->
                      files w' !! q = files w !! q).
Proof.
  induction left as [|left IH]; intros i w os w' H Hall; cbn [retry_loop] in H.
  - injection H as <- <-. split; [reflexivity|]. exists []. repeat split; auto.
  - unfold bind at 1 in H.
    destruct (attempt_summary b d (env i) w) as (dl1 & L1 & Hp1 & Hm1 & F1).
    cbv zeta in L1, Hp1, Hm1, F1.
    destruct (attempt_of b d (env i) w) as [o w1|w1]; [|discriminate].
    cbn [final] in *.
    destruct (continues o) eqn:Ho.
    + unfold bind in H.
      destruct (retry_loop (attempt_of b d) env left (S i) w1) as [os' w2|w2] eqn:E;
        [|discriminate].
      injection H as <- <-. cbn [forallb] in Hall. apply andb_prop in Hall as [_ Hall].
      destruct (IH _ _ _ _ E Hall) as (Hlen & dl2 & L2 & Hp2 & Hm2 & F2).
      assert (Hnp : promoted (Done o w1) = false) by (destruct o; try discriminate; reflexivity).
      rewrite Hnp in *. cbn [andb] in Hm1.
      split; [cbn; now rewrite Hlen|].
      exists (dl2 ++ dl1)%list. split; [now rewrite L2, L1, app_assoc|].
      rewrite existsb_app, List.filter_app, Hp1, Hp2, Hm1, Hm2.
      split; [reflexivity|]. split; [reflexivity|].
      intros q Hq. rewrite F2 by exact Hq. apply F1; [apply Hq|discriminate|discriminate].
    + injection H as <- _. cbn in Hall. rewrite Ho in Hall. discriminate.
Qed.

(** *** Passes are counted by their connections *)

Lemma passes_app (l1 l2 : list Event) :
  passes (l1 ++ l2) = (passes l1 + passes l2)%nat.
Proof. unfold passes. now rewrite List.filter_app, List.length_app. Qed.

Lemma transfer_no_connect (dl : list Event) :
  forallb is_transfer dl = true -> passes dl = 0%nat.
Proof.
  induction dl as [|e dl IH]; [reflexivity|]. cbn [forallb].
  intros [He Hdl]%andb_prop. unfold passes in *. cbn [List.filter].
  destruct e; try discriminate; cbn [is_connect]; auto.
Qed.

(** Nothing [downloadFile] does is a connection. *)
Lemma local_downloadFile_connects (env : Env) (reader : Reader)
      (path filename : string) (w : World) :
  exists dl,
    log (final (local.downloadFile env reader path filename w)) = (dl ++ log w)%list
    /\ passes dl = 0%nat.
Proof.
  unfold local.downloadFile.
  destruct (filename =? ""); [now exists []|].
  unfold local.MkdirAll, local.OpenFile, local.io_Copy, local.Rename.
  unfold bind, emit_event, modify, ret.
  destruct (mkdir_ok env); [|eexists [_]; split; reflexivity].
  destruct (open_ok env); [|eexists [_; _]; split; reflexivity].
  destruct (local.source_of reader) as [src|]; [|eexists [_; _]; split; reflexivity].
  match goal with |- context [local.copy_loop ?p ?rd ?ps ?re ?o ?rm ?w0] =>
    pose proof (copy_loop_evolves p rd re ps o rm w0) as [_ (dl & L & O)];
    destruct (local.copy_loop p rd ps re o rm w0) as [[] w2|w2]
  end; cbn [final] in *; apply transfer_no_connect in O;
    cbn [log set_files add_event add_dir] in L.
  - eexists (dl ++ [_; _])%list. rewrite L, <- app_assoc, passes_app, O.
    split; reflexivity.
  - destruct (rename_ok env); cbn [final log set_files add_event];
      eexists (_ :: dl ++ [_; _])%list;
      rewrite L, <- app_comm_cons, <- app_assoc;
      (split; [reflexivity|]);
      change (passes (?e :: ?l)) with (passes ([e] ++ l));
      rewrite !passes_app, O; reflexivity.
  - eexists (dl ++ [_; _])%list. rewrite L, <- app_assoc, passes_app, O.
    split; reflexivity.
Qed.

Lemma s3_downloadFile_connects (uploadBucket : option nat) (env : Env) (reader : Reader)
      (basepath filename : string) (w : World) :
  exists dl,
    log (final (s3.downloadFile uploadBucket env reader basepath filename w))
    = (dl ++ log w)%list
    /\ passes dl = 0%nat.
Proof.
  unfold s3.downloadFile, s3.Upload, s3.CopyObject, s3.DeleteObject.
  unfold bind, emit_event, modify, ret, panic.
  destruct (s3.source_of (s3.body_of uploadBucket reader)) as [src|]; [|now exists []].
  pose proof (read_all_evolves (fun _ => False) (s3.body_of uploadBucket reader)
                               (chunks src) w) as [_ (dl & L & O)].
  apply transfer_no_connect in O.
  destruct (s3.read_all _ _ w) as [[] w1|w1]; cbn [final] in *; [|now exists dl].
  destruct (negb (read_err src) && upload_ok env).
  2:{ eexists (_ :: dl)%list. cbn [final log add_event]. rewrite L.
      split; [reflexivity|]. exact O. }
  destruct (copy_ok env), (delete_ok env); cbn [final log files set_files add_event];
    eexists (_ :: _ :: _ :: dl)%list; rewrite L; (split; [reflexivity|]); exact O.
Qed.

(** Every pass makes one connection, whatever it ends in. *)
Lemma attempt_passes (b : Backend) (d : backend.GogFile) (env : Env) (w : World) :
  exists dl,
    log (final (attempt_of b d env w)) = (dl ++ log w)%list
    /\ passes dl = 1%nat.
Proof.
  destruct b as [targetDir bucket|prefix up down]; cbn [attempt_of].
  - rewrite local_attempt_unfold. cbv zeta.
    destruct (response env) as [src|]; [|now eexists [_]].
    destruct (backend.Version d =? "").
    + destruct (_ || _); [now eexists [_; _; _]|].
      match goal with |- context [local.downloadFile ?e ?r ?p ?f ?w0] =>
        destruct (local_downloadFile_connects e r p f w0) as (dl & L & O);
        destruct (local.downloadFile e r p f w0) as [[] w3|w3]
      end; cbn [final log add_event] in *; rewrite L.
      * eexists (EvClose :: dl ++ [_; _])%list.
        rewrite <- app_comm_cons, <- app_assoc. split; [reflexivity|].
        change (passes (?e :: ?l)) with (passes ([e] ++ l)).
        rewrite !passes_app, O. reflexivity.
      * eexists (EvClose :: dl ++ [_; _])%list.
        rewrite <- app_comm_cons, <- app_assoc. split; [reflexivity|].
        change (passes (?e :: ?l)) with (passes ([e] ++ l)).
        rewrite !passes_app, O. reflexivity.
      * eexists (dl ++ [_; _])%list. rewrite <- app_assoc. split; [reflexivity|].
        rewrite passes_app, O. reflexivity.
    + destruct (_ =? backend.Version d); [now eexists [_; _; _]|].
      match goal with |- context [local.downloadFile ?e ?r ?p ?f ?w0] =>
        destruct (local_downloadFile_connects e r p f w0) as (dl & L & O);
        destruct (local.downloadFile e r p f w0) as [[] w3|w3]
      end; cbn [final log add_event] in *.
      * eexists (EvClose :: dl ++ [_; _])%list. rewrite L.
        rewrite <- app_comm_cons, <- app_assoc. split; [reflexivity|].
        change (passes (?e :: ?l)) with (passes ([e] ++ l)).
        rewrite !passes_app, O. reflexivity.
      * destruct (marker_ok env); [|destruct (marker_left env)];
          cbn [final log add_event set_files]; rewrite L;
          eexists (_ :: EvClose :: dl ++ [_; _])%list;
          rewrite <- !app_comm_cons, <- app_assoc; (split; [reflexivity|]);
          change (passes (?e1 :: ?e2 :: ?l)) with (passes ([e1; e2] ++ l));
          rewrite !passes_app, O; reflexivity.
      * eexists (dl ++ [_; _])%list. rewrite L, <- app_assoc. split; [reflexivity|].
        rewrite passes_app, O. reflexivity.
  - rewrite s3_attempt_unfold. cbv zeta.
    destruct (response env) as [src|]; [|now eexists [_]].
    destruct (backend.Version d =? "").
    + destruct (bool_decide _); [now eexists [_; _; _]|].
      match goal with |- context [s3.downloadFile ?u ?e ?r ?p ?f ?w0] =>
        destruct (s3_downloadFile_connects u e r p f w0) as (dl & L & O);
        destruct (s3.downloadFile u e r p f w0) as [[] w3|w3]
      end; cbn [final log add_event] in *; rewrite L.
      * eexists (EvClose :: dl ++ [_; _])%list.
        rewrite <- app_comm_cons, <- app_assoc. split; [reflexivity|].
        change (passes (?e :: ?l)) with (passes ([e] ++ l)).
        rewrite !passes_app, O. reflexivity.
      * eexists (EvClose :: dl ++ [_; _])%list.
        rewrite <- app_comm_cons, <- app_assoc. split; [reflexivity|].
        change (passes (?e :: ?l)) with (passes ([e] ++ l)).
        rewrite !passes_app, O. reflexivity.
      * eexists (dl ++ [_; _])%list. rewrite <- app_assoc. split; [reflexivity|].
        rewrite passes_app, O. reflexivity.
    + destruct (_ =? backend.Version d); [now eexists [_; _; _]|].
      match goal with |- context [s3.downloadFile ?u ?e ?r ?p ?f ?w0] =>
        destruct (s3_downloadFile_connects u e r p f w0) as (dl & L & O);
        destruct (s3.downloadFile u e r p f w0) as [[] w3|w3]
      end; cbn [final log add_event] in *.
      * eexists (EvClose :: dl ++ [_; _])%list. rewrite L.
        rewrite <- app_comm_cons, <- app_assoc. split; [reflexivity|].
        change (passes (?e :: ?l)) with (passes ([e] ++ l)).
        rewrite !passes_app, O. reflexivity.
      * destruct (marker_ok env);
          cbn [final log add_event set_files]; rewrite L;
          eexists (_ :: EvClose :: dl ++ [_; _])%list;
          rewrite <- !app_comm_cons, <- app_assoc; (split; [reflexivity|]);
          change (passes (?e1 :: ?e2 :: ?l)) with (passes ([e1; e2] ++ l));
          rewrite !passes_app, O; reflexivity.
      * eexists (dl ++ [_; _])%list. rewrite L, <- app_assoc. split; [reflexivity|].
        rewrite passes_app, O. reflexivity.
Qed.

(** The passes of the retry loop: never more than are allowed, one for
    every outcome it returns, and at least one when the worker
    panics. *)
Lemma retry_loop_passes (b : Backend) (d : backend.GogFile) (env : nat -> Env) :
  forall (left i : nat) (w : World),
    exists dl,
      log (final (retry_loop (attempt_of b d) env left i w)) = (dl ++ log w)%list
      /\ (passes dl <= left)%nat
      /\ match retry_loop (attempt_of b d) env left i w with
         | Done os _ => List.length os = passes dl
         | Crash _ => (1 <= passes dl)%nat
         end.
Proof.
  induction left as [|left IH]; intros i w; cbn [retry_loop].
  - exists []. cbn. repeat split; lia.
  - unfold bind at 1 2 3.
    destruct (attempt_passes b d (env i) w) as (dl1 & L1 & P1).
    destruct (attempt_of b d (env i) w) as [o w1|w1]; cbn [final] in L1.
    + destruct (continues o).
      * unfold bind. destruct (IH (S i) w1) as (dl2 & L2 & P2 & H2).
        destruct (retry_loop (attempt_of b d) env left (S i) w1) as [os w2|w2];
          cbn [final ret] in *; exists (dl2 ++ dl1)%list;
          rewrite L2, L1, app_assoc, passes_app, P1;
          (split; [reflexivity|]); (split; [lia|]); cbn [List.length]; lia.
      * exists dl1. cbn [final ret]. rewrite P1. repeat split; [exact L1|lia].
    + exists dl1. cbn [final]. rewrite P1. repeat split; [exact L1|lia|lia].
Qed.

(** When every pass made for a task has failed (the source could not be
    reached, or the transfer ended in an error) and the worker has not
    panicked, exactly [retries] passes have been made, each with its
    connection; no file has been given its final name and no marker has
    been written: apart from temporary names, the destination is as it
    was. *)
Lemma failed_task_passes (b : Backend) (retries : Z) (d : backend.GogFile)
      (env : nat -> Env) (w w' : World) (os : list Outcome) :
  (0 <= retries)%Z ->
  task_of b retries d env w = Done os w' ->
  forallb continues os = true ->
  Z.of_nat (passes (events_since w w')) = retries
  /\ List.length os = passes (events_since w w')
  /\ existsb is_promotion (events_since w w') = false
  /\ existsb is_marker_write (events_since w w') = false
  /\ (forall q, (forall f, q <> tmp_name b d f) -> files w' !! q = files w !! q).
Proof.
  intros Hr H Hall. rewrite task_of_retry_loop in H.
  destruct (retry_loop_all_failed b d env _ _ _ _ _ H Hall)
    as (Hlen & dl & L & Hp & Hm & F).
  destruct (retry_loop_passes b d env (Z.to_nat retries) 1 w) as (dl' & L' & _ & P).
  rewrite H in L', P. cbn [final] in L'.
  assert (dl' = dl) by (rewrite L in L'; now apply app_inv_tail in L'). subst dl'.
  rewrite (events_since_ext _ _ _ L), Hp, <- P, Hlen.
  split; [lia|]. split; [reflexivity|]. split; [reflexivity|]. split; [|exact F].
  clear -Hm. induction dl as [|x l IH]; [reflexivity|].
  cbn [List.filter existsb] in *. destruct (is_marker_write x); [discriminate|].
  cbn. auto.
Qed.

(** C5.  The retry bound does not hold for the local worker that has no
    download limit.  With [retries] at 3 and a source whose body breaks
    off after four bytes, the first pass connects, reads the marker,
    makes the directory, opens the temporary file, reads the four bytes
    and panics at the nil bucket: one pass has been made, not three, and
    the task is not given up but the process ended.  With a limit set the
    same task is tried three times, each pass failing, and then given up
    with no file under the final name. *)
Theorem retries_cut_short_by_panic :
  (exists w,
      task_of (Local "/home/u/GoG" None) 3 sample_task.d
              (fun _ => sample_task.ok sample_task.broken) empty_world
      = Crash w
      /\ log w = [EvNetRead 4;
                  EvOpenFile "/home/u/GoG/Root/Extras/.f.tmp" true;
                  EvMkdirAll "/home/u/GoG/Root/Extras" true;
                  EvReadFile "/home/u/GoG/Root/Extras/.f.version";
                  EvConnect "https://embed.gog.com/downloads/manual" true]
      /\ passes (log w) = 1%nat)
  /\ (exists w,
      task_of (Local "/home/u/GoG" (Some 0%nat)) 3 sample_task.d
              (fun _ => sample_task.ok sample_task.broken) empty_world
      = Done [DownloadFailed; DownloadFailed; DownloadFailed] w
      /\ passes (log w) = 3%nat
      /\ files w !! "/home/u/GoG/Root/Extras/f" = None).
Proof.
  split.
  - eexists. split; [vm_compute; reflexivity|]. split; reflexivity.
  - eexists. split; [vm_compute; reflexivity|].
    split; vm_compute; reflexivity.
Qed.

(** ** Skipping a task that is up to date *)






(** The task then ends with that pass, whatever [retries] still allows. *)
Lemma skip_ends_task (b : Backend) (d : backend.GogFile) (env : nat -> Env)
      (w w' : World) (left i : nat) :
  attempt_of b d (env i) w = Done UpToDate w' ->
  retry_loop (attempt_of b d) env (S left) i w = Done [UpToDate] w'.
Proof. intros H. cbn [retry_loop]. unfold bind. now rewrite H. Qed.

(** C3.  In the object-store backend a marker is not always read back as
    it was written.  The task carries the tag "1" followed by a [NUL]
    byte, and the destination holds the file and a marker with exactly
    that tag.  [readFile] drops the [NUL], the comparison with the tag
    fails, and the worker transfers the file again: it reads the eight
    bytes of the body and uploads, copies, deletes and rewrites the
    marker. *)
Theorem s3_marker_with_nul_not_skipped :
  files sample_task.stored !! marker_name (S3 "" None None) sample_task.nul_versioned
                                          "manual.pdf"
  = Some (backend.Version sample_task.nul_versioned)
  /\ exists w,
      main_s3 "" 3 0 0 [sample_task.nul_versioned]
              (fun _ _ => sample_task.ok sample_task.manual) sample_task.stored
      = Done [[Downloaded]] w
      /\ log w = [EvWriteFile "Root/Extras/.manual.pdf.version" sample_task.nul_tag true;
                  EvClose;
                  EvDeleteObject "Root/Extras/.manual.pdf.tmp" true;
                  EvCopyObject "Root/Extras/.manual.pdf.tmp" "Root/Extras/manual.pdf" true;
                  EvUpload "Root/Extras/.manual.pdf.tmp" true;
                  EvNetRead 0; EvNetRead 4; EvNetRead 4;
                  EvReadFile "Root/Extras/.manual.pdf.version";
                  EvConnect "https://embed.gog.com/downloads/manual" true].
Proof.
  split; [vm_compute; reflexivity|].
  eexists. split; vm_compute; reflexivity.
Qed.

(** ** A source that resolves no file name *)

Ltac since n :=
  match goal with
  | |- context [events_since ?w ?w'] =>
      rewrite (events_since_ext w w' (firstn n (log w')) eq_refl);
      cbn [firstn log add_event]
  end.

(** The local backend writes nothing for such a source: the pass ends in
    a skip or in a failed download, and files and directories are as they
    were. *)
Lemma local_nameless_no_write (targetDir : string) (bucket : option nat)
      (d : backend.GogFile) (env : Env) (w : World) :
  resolved env = "" ->
  exists o w',
    local.attempt targetDir bucket d env w = Done o w'
    /\ files w' = files w /\ dirs w' = dirs w
    /\ existsb is_write (events_since w w') = false
    /\ existsb is_net_read (events_since w w') = false.
Proof.
  intros Hres. rewrite local_attempt_unfold. cbv zeta. unfold resolved in Hres.
  destruct (response env) as [src|].
  2:{ eexists. eexists. split; [reflexivity|].
      since 1. now repeat split. }
  rewrite Hres. unfold local.downloadFile. cbn [String.eqb].
  destruct (backend.Version d =? "").
  - destruct (_ || _); eexists; eexists; (split; [reflexivity|]);
      since 3; now repeat split.
  - destruct (_ =? backend.Version d); eexists; eexists; (split; [reflexivity|]);
      since 3; now repeat split.
Qed.

Lemma local_nameless_pass (targetDir : string) (bucket : option nat)
      (d : backend.GogFile) (env : Env) (w : World) :
  resolved env = "" ->
  exists o w' dl,
    local.attempt targetDir bucket d env w = Done o w'
    /\ files w' = files w /\ dirs w' = dirs w
    /\ log w' = (dl ++ log w)%list
    /\ existsb is_write dl = false.
Proof.
  intros Hres. rewrite local_attempt_unfold. cbv zeta. unfold resolved in Hres.
  destruct (response env) as [src|].
  2:{ eexists _, _, [_]. now repeat split. }
  rewrite Hres. unfold local.downloadFile. cbn [String.eqb].
  destruct (backend.Version d =? "").
  - destruct (_ || _); eexists _, _, [_; _; _]; now repeat split.
  - destruct (_ =? backend.Version d); eexists _, _, [_; _; _]; now repeat split.
Qed.

(** X22.  In the local backend, when the source resolves no file name,
    nothing is written however many passes are made: no directory, no
    temporary file, no final file, no marker. *)
Lemma local_nameless_task (targetDir : string) (bucket : option nat)
      (d : backend.GogFile) (env : nat -> Env) :
  (forall i, resolved (env i) = "") ->
  forall (left i : nat) (w : World),
    exists os w' dl,
      retry_loop (local.attempt targetDir bucket d) env left i w = Done os w'
      /\ files w' = files w /\ dirs w' = dirs w
      /\ log w' = (dl ++ log w)%list
      /\ existsb is_write dl = false.
Proof.
  intros Hres. induction left as [|left IH]; intros i w; cbn [retry_loop].
  - exists [], w, []. now repeat split.
  - unfold bind at 1.
    destruct (local_nameless_pass targetDir bucket d (env i) w (Hres i))
      as (o & w1 & dl1 & -> & F1 & D1 & L1 & W1).
    destruct (continues o).
    + unfold bind. destruct (IH (S i) w1) as (os & w2 & dl2 & -> & F2 & D2 & L2 & W2).
      exists (o :: os), w2, (dl2 ++ dl1)%list.
      split; [reflexivity|]. split; [congruence|]. split; [congruence|].
      split; [now rewrite L2, L1, app_assoc|].
      now rewrite existsb_app, W1, W2.
    + exists [o], w1, dl1. now repeat split.
Qed.

Lemma local_nameless_task_witness :
  exists os w' dl,
    retry_loop (local.attempt "/home/u/GoG" None sample_task.d)
               (fun _ => sample_task.ok sample_task.nameless) 3 1 empty_world
    = Done os w'
    /\ files w' = files empty_world /\ dirs w' = dirs empty_world
    /\ log w' = (dl ++ log empty_world)%list
    /\ existsb is_write dl = false.
Proof.
  exact (local_nameless_task "/home/u/GoG" None sample_task.d
           (fun _ => sample_task.ok sample_task.nameless) (fun _ => eq_refl)
           3 1 empty_world).
Defined.

(** C10.  The object-store backend has no test for an empty file name.
    For a source that resolves none, it uploads the body to
    "Root/Extras/..tmp", copies it to the key "Root/Extras" and writes
    the marker "Root/Extras/..version"; the task ends as downloaded. *)
Theorem s3_empty_filename_is_written :
  exists w,
    main_s3 "" 3 0 0 [sample_task.d]
            (fun _ _ => sample_task.ok sample_task.nameless) empty_world
    = Done [[Downloaded]] w
    /\ files w !! "Root/Extras" = Some "data"
    /\ files w !! "Root/Extras/..version" = Some "1.0"
    /\ List.filter is_write (log w)
       = [EvWriteFile "Root/Extras/..version" "1.0" true;
          EvDeleteObject "Root/Extras/..tmp" true;
          EvCopyObject "Root/Extras/..tmp" "Root/Extras" true;
          EvUpload "Root/Extras/..tmp" true].
Proof.
  eexists. split; [vm_compute; reflexivity|].
  split; [vm_compute; reflexivity|]. split; vm_compute; reflexivity.
Qed.

(** ** What is left of a failed transfer *)

(** X19.  In both backends a pass that fails gives no file its final
    name, and touches nothing but the temporary name. *)
Lemma failed_pass_promotes_nothing (b : Backend) (d : backend.GogFile)
      (env : Env) (w w' : World) (o : Outcome) :
  attempt_of b d env w = Done o w' ->
  continues o = true ->
  existsb is_promotion (events_since w w') = false
  /\ (forall q, q <> tmp_name b d (resolved env) -> files w' !! q = files w !! q).
Proof.
  intros H Ho.
  destruct (attempt_summary b d env w) as (dl & L & Hp & _ & F).
  cbv zeta in L, Hp, F. rewrite H in *. cbn [final] in *.
  assert (Hnp : promoted (Done o w') = false) by (destruct o; try discriminate; reflexivity).
  rewrite Hnp in *. rewrite (events_since_ext _ _ _ L). split; [exact Hp|].
  intros q Hq. apply F; [exact Hq|discriminate|discriminate].
Qed.

Lemma failed_pass_promotes_nothing_witness :
  existsb is_promotion
          (events_since empty_world
             (final (attempt_of (S3 "" None None) sample_task.d
                                (sample_task.ok sample_task.broken) empty_world)))
  = false.
Proof.
  assert (H : attempt_of (S3 "" None None) sample_task.d
                         (sample_task.ok sample_task.broken) empty_world
              = Done DownloadFailed
                     (final (attempt_of (S3 "" None None) sample_task.d
                                        (sample_task.ok sample_task.broken)
                                        empty_world)))
    by (vm_compute; reflexivity).
  exact (proj1 (failed_pass_promotes_nothing (S3 "" None None) sample_task.d
                  (sample_task.ok sample_task.broken) empty_world _ DownloadFailed
                  H eq_refl)).
Defined.

(** *** What the local backend leaves in the promoted file *)

Lemma substring_0_0 (s : string) : substring 0 0 s = "".
Proof. now destruct s. Qed.

Lemma substring_empty (n m : nat) : substring n m "" = "".
Proof. destruct n, m; reflexivity. Qed.

Lemma slice_from_0 (s : string) : strings.slice_from s 0 = s.
Proof. unfold strings.slice_from. rewrite Nat.sub_0_r. apply substring_all. Qed.

Lemma slice_from_cons (a : ascii) (s : string) (n : nat) :
  strings.slice_from (String a s) (S n) = strings.slice_from s n.
Proof. reflexivity. Qed.

Lemma slice_from_beyond (s : string) (n : nat) :
  (String.length s <= n)%nat -> strings.slice_from s n = "".
Proof.
  intros H. unfold strings.slice_from.
  replace (String.length s - n)%nat with 0%nat by lia.
  revert n H. induction s as [|a s IH]; intros [|n] H; cbn in *; try reflexivity; try lia.
  apply IH. lia.
Qed.

Lemma slice_from_slice_from (s : string) (n m : nat) :
  strings.slice_from (strings.slice_from s n) m = strings.slice_from s (n + m).
Proof.
  revert n. induction s as [|a s IH]; intros n.
  - unfold strings.slice_from. now rewrite !substring_empty.
  - destruct n as [|n]; [now rewrite slice_from_0|].
    cbn [Nat.add]. rewrite !slice_from_cons. apply IH.
Qed.

Lemma overwrite_cons (a : ascii) (old : string) (off : nat) (data : string) :
  local.overwrite (String a old) (S off) data = String a (local.overwrite old off data).
Proof. reflexivity. Qed.

Lemma overwrite_0 (old data : string) :
  local.overwrite old 0 data = data ++ leftover old data.
Proof. unfold local.overwrite. now rewrite substring_0_0. Qed.

Lemma overwrite_append (c x rest : string) :
  local.overwrite (c ++ x) (String.length c) rest = c ++ local.overwrite x 0 rest.
Proof.
  induction c as [|a c IH]; [reflexivity|].
  cbn [String.append String.length]. now rewrite overwrite_cons, IH.
Qed.

(** Two writes one behind the other are one write of both pieces. *)
Lemma overwrite_twice (old : string) (off : nat) (c rest : string) :
  (off <= String.length old)%nat ->
  local.overwrite (local.overwrite old off c) (off + String.length c) rest
  = local.overwrite old off (c ++ rest).
Proof.
  revert old. induction off as [|off IH]; intros old H.
  - cbn [Nat.add]. rewrite (overwrite_0 old c), overwrite_append, !overwrite_0.
    unfold leftover. rewrite slice_from_slice_from, length_append.
    now rewrite append_assoc.
  - destruct old as [|a old]; [cbn in H; lia|].
    cbn [Nat.add]. rewrite !overwrite_cons. f_equal. apply IH. cbn in H. lia.
Qed.

Lemma overwrite_nothing (old : string) (off : nat) :
  (off <= String.length old)%nat -> local.overwrite old off "" = old.
Proof.
  revert old. induction off as [|off IH]; intros old H.
  - rewrite overwrite_0. unfold leftover. cbn. apply slice_from_0.
  - destruct old as [|a old]; [cbn in H; lia|].
    rewrite overwrite_cons. f_equal. apply IH. cbn in H. lia.
Qed.

Lemma overwrite_length (old : string) (off : nat) (data : string) :
  (off <= String.length old)%nat ->
  (off + String.length data <= String.length (local.overwrite old off data))%nat.
Proof.
  revert old. induction off as [|off IH]; intros old H.
  - rewrite overwrite_0, length_append. lia.
  - destruct old as [|a old]; [cbn in H; lia|].
    rewrite overwrite_cons. cbn [String.length Nat.add]. cbn in H.
    specialize (IH old). lia.
Qed.

Lemma Read_files (r : Reader) (n : nat) (w : World) :
  files (final (Read r n w)) = files w.
Proof.
  destruct (Read_evolves (fun _ => False) r n w) as [F _].
  apply map_eq. intros q. apply F. tauto.
Qed.

(** An [io.Copy] that ends without error has put all the pieces, one
    behind the other, over what the file held from [off] on. *)
Lemma copy_loop_content (p : string) (reader : Reader) (rerr : bool) :
  forall (pieces : list string) (off : nat) (room : option nat)
         (w w2 : World) (old : string),
    local.copy_loop p reader pieces rerr off room w = Done false w2 ->
    files w !! p = Some old ->
    (off <= String.length old)%nat ->
    files w2 !! p = Some (local.overwrite old off (fold_right String.append "" pieces)).
Proof.
  induction pieces as [|c cs IH]; intros off room w w2 old H Hold Hoff;
    cbn [local.copy_loop] in H; unfold bind at 1 in H.
  - pose proof (Read_files reader 0 w) as HF.
    destruct (Read reader 0 w) as [[] w1|w1]; [|discriminate].
    cbn [final] in HF. injection H as _ <-.
    cbn [fold_right]. now rewrite overwrite_nothing, HF by exact Hoff.
  - pose proof (Read_files reader (String.length c) w) as HF.
    destruct (Read reader (String.length c) w) as [[] w1|w1]; [|discriminate].
    cbn [final] in HF. cbn [fold_right].
    destruct (String.length c =? 0)%nat eqn:Hc.
    + apply Nat.eqb_eq in Hc. destruct c; [|discriminate].
      apply (IH _ _ _ _ _ H); [now rewrite HF|exact Hoff].
    + unfold bind, local.Write, modify, emit_event, ret in H. cbn [fst snd] in H.
      destruct (_ <? String.length c)%nat eqn:Hn; [discriminate|].
      apply Nat.ltb_ge in Hn.
      assert (Hfull : match room with
                      | Some r => Nat.min r (String.length c)
                      | None => String.length c
                      end = String.length c) by (destruct room; lia).
      rewrite Hfull in H. rewrite substring_all in H.
      rewrite <- overwrite_twice by exact Hoff.
      apply (IH _ _ _ _ _ H).
      * cbn [files add_event set_files]. rewrite HF, Hold. cbn [default].
        apply lookup_insert_eq.
      * apply overwrite_length, Hoff.
Qed.

Lemma leftover_none (old new : string) :
  (String.length old <= String.length new)%nat -> leftover old new = "".
Proof. apply slice_from_beyond. Qed.

Lemma local_source_of_reader_of (bucket : option nat) (src : Source) :
  local.source_of (local.reader_of bucket (Body src)) = Some src.
Proof. now destruct bucket. Qed.

(** [downloadFile] of the local backend, when it returns no error: the
    final file holds the body, followed by what the temporary file held
    beyond the length of the body when the transfer began. *)
Lemma local_downloadFile_content (env : Env) (reader : Reader)
      (path filename : string) (w w3 : World) (src : Source) :
  local.source_of reader = Some src ->
  local.downloadFile env reader path filename w = Done false w3 ->
  files w3 !! (path ++ "/" ++ filename)
  = Some (content src
          ++ leftover (default "" (files w !! (path ++ "/." ++ filename ++ ".tmp")))
                      (content src)).
Proof.
  intros Hsrc. unfold local.downloadFile. cbv zeta.
  remember (path ++ "/." ++ filename ++ ".tmp") as tmp eqn:Htmp.
  remember (path ++ "/" ++ filename) as out eqn:Hout.
  destruct (filename =? ""); [discriminate|].
  unfold local.MkdirAll, local.OpenFile, local.io_Copy, local.Rename.
  rewrite Hsrc.
  unfold bind, emit_event, modify, ret.
  destruct (mkdir_ok env); [|discriminate].
  destruct (open_ok env); [|discriminate].
  match goal with |- context [local.copy_loop ?p ?rd ?ps ?re ?o ?rm ?w0] =>
    destruct (local.copy_loop p rd ps re o rm w0) as [[] w2|w2] eqn:E
  end; try discriminate.
  destruct (rename_ok env); [|discriminate].
  intros H. injection H as <-.
  apply (copy_loop_content _ _ _ _ _ _ _ _
           (default "" (files w !! tmp))) in E.
  - cbn [files set_files add_event]. rewrite E.
    rewrite lookup_insert_eq, overwrite_0. reflexivity.
  - cbn [files set_files add_event add_dir].
    destruct (files w !! tmp) as [c|] eqn:Hc; [exact Hc|apply lookup_insert_eq].
  - lia.
Qed.

Lemma local_marker_not_final (dir f : string) :
  dir ++ "/." ++ f ++ ".version" <> dir ++ "/" ++ f.
Proof.
  intros H. apply (f_equal String.length) in H.
  rewrite !length_append in H. cbn [String.length] in H. lia.
Qed.

(** A pass of the local backend that promotes: the file under the final
    name is the body of that pass followed by the bytes the temporary
    file already held beyond the length of the body. *)
Lemma local_promoted_file (targetDir : string) (bucket : option nat)
      (d : backend.GogFile) (env : Env) (w w' : World) (o : Outcome) (src : Source) :
  let b := Local targetDir bucket in
  response env = Some src ->
  local.attempt targetDir bucket d env w = Done o w' ->
  promoted (Done o w') = true ->
  files w' !! final_name b d (filename src)
  = Some (content src
          ++ leftover (default "" (files w !! tmp_name b d (filename src)))
                      (content src)).
Proof.
  cbv zeta. intros Hsrc H Hp. rewrite local_attempt_unfold in H. cbv zeta in H.
  rewrite Hsrc in H.
  unfold final_name, tmp_name, dest_name, dest_dir.
  change (?x ++ "/" ++ "." ++ ?y) with (x ++ "/." ++ y).
  remember (targetDir ++ "/" ++ backend.File d) as dir eqn:Hdir.
  pose proof (local_downloadFile_content env (local.reader_of bucket (Body src))
                dir (filename src)) as HC.
  destruct (backend.Version d =? "").
  - destruct (_ || _); [injection H as <- <-; discriminate|].
    match type of H with context [local.downloadFile ?e ?r ?p ?f ?w0] =>
      specialize (HC w0); destruct (local.downloadFile e r p f w0) as [[] w3|w3]
    end; try discriminate; injection H as <- <-; try discriminate.
    exact (HC w3 src (local_source_of_reader_of _ _) eq_refl).
  - destruct (_ =? backend.Version d); [injection H as <- <-; discriminate|].
    match type of H with context [local.downloadFile ?e ?r ?p ?f ?w0] =>
      specialize (HC w0); destruct (local.downloadFile e r p f w0) as [[] w3|w3]
    end; try discriminate; try (injection H as <- <-; discriminate).
    specialize (HC w3 src (local_source_of_reader_of _ _) eq_refl).
    cbn [files add_event] in HC.
    destruct (marker_ok env); [|destruct (marker_left env) as [n|]];
      injection H as <- <-; cbn [files set_files add_event].
    + rewrite lookup_insert_ne by apply local_marker_not_final. exact HC.
    + rewrite lookup_insert_ne by apply local_marker_not_final. exact HC.
    + exact HC.
Qed.

(** X20.  In the local backend the file that a pass gives its final
    name holds exactly the body, when the temporary file was absent or
    not longer than the body before the pass. *)
Lemma local_promoted_file_clean (targetDir : string) (bucket : option nat)
      (d : backend.GogFile) (env : Env) (w w' : World) (o : Outcome) (src : Source) :
  let b := Local targetDir bucket in
  response env = Some src ->
  local.attempt targetDir bucket d env w = Done o w' ->
  promoted (Done o w') = true ->
  (String.length (default "" (files w !! tmp_name b d (filename src)))
   <= String.length (content src))%nat ->
  files w' !! final_name b d (filename src) = Some (content src).
Proof.
  cbv zeta. intros Hsrc H Hp Hlen.
  rewrite (local_promoted_file _ _ _ _ _ _ _ _ Hsrc H Hp).
  now rewrite leftover_none, append_empty_r.
Qed.

Lemma local_promoted_file_clean_witness :
  files (final (local.attempt "/home/u/GoG" (Some 0%nat) sample_task.d
                              (sample_task.ok sample_task.manual) empty_world))
  !! final_name (Local "/home/u/GoG" (Some 0%nat)) sample_task.d "manual.pdf"
  = Some "%PDF-1.4".
Proof.
  assert (H : local.attempt "/home/u/GoG" (Some 0%nat) sample_task.d
                            (sample_task.ok sample_task.manual) empty_world
              = Done Downloaded
                     (final (local.attempt "/home/u/GoG" (Some 0%nat) sample_task.d
                                           (sample_task.ok sample_task.manual)
                                           empty_world)))
    by (vm_compute; reflexivity).
  refine (local_promoted_file_clean "/home/u/GoG" (Some 0%nat) sample_task.d
            (sample_task.ok sample_task.manual) empty_world _ Downloaded
            sample_task.manual eq_refl H eq_refl _).
  vm_compute. lia.
Defined.

(** X21.  The object-store backend replaces the temporary object as a
    whole: the object under the final key is the body of the pass that
    promotes, provided that key is neither the temporary key nor the
    marker's. *)
Lemma s3_promoted_object (prefix : string) (up down : option nat)
      (d : backend.GogFile) (env : Env) (w w' : World) (o : Outcome) (src : Source) :
  let b := S3 prefix up down in
  response env = Some src ->
  s3.attempt prefix up down d env w = Done o w' ->
  promoted (Done o w') = true ->
  tmp_name b d (filename src) <> final_name b d (filename src) ->
  marker_name b d (filename src) <> final_name b d (filename src) ->
  files w' !! final_name b d (filename src) = Some (content src).
Proof.
  cbv zeta. intros Hsrc H Hp Htmp Hmarker.
  rewrite s3_attempt_unfold in H. cbv zeta in H. rewrite Hsrc in H.
  unfold final_name, tmp_name, marker_name, dest_name, dest_dir in *.
  remember (s3.basepath_of prefix d) as dir eqn:Hdir.
  remember (path.Join dir ("." ++ filename src ++ ".version")) as marker eqn:Hm.
  remember (path.Join dir ("." ++ filename src ++ ".tmp")) as tmp eqn:Ht.
  remember (path.Join dir (filename src)) as key eqn:Hk.
  assert (HC : forall w0 w3,
             s3.downloadFile up env (s3.reader_of down (Body src)) dir (filename src) w0
             = Done false w3 ->
             files w3 !! key = Some (content src)).
  { intros w0 w3. unfold s3.downloadFile. cbv zeta. rewrite <- Ht, <- Hk.
    unfold s3.Upload, s3.CopyObject, s3.DeleteObject.
    assert (Hs : s3.source_of (s3.body_of up (s3.reader_of down (Body src))) = Some src)
      by (destruct up, down; reflexivity).
    rewrite Hs. unfold bind, emit_event, modify, ret.
    destruct (s3.read_all _ _ w0) as [[] w1|w1]; [|discriminate].
    destruct (negb (read_err src) && upload_ok env); [|discriminate].
    destruct (copy_ok env); [|destruct (delete_ok env); discriminate].
    destruct (delete_ok env); intros HH; injection HH as <-;
      cbn [files set_files add_event];
      rewrite lookup_insert_eq;
      rewrite ?lookup_delete_ne by exact Htmp; apply lookup_insert_eq. }
  destruct (backend.Version d =? "").
  - destruct (bool_decide _); [injection H as <- <-; discriminate|].
    match type of H with context [s3.downloadFile ?u ?e ?r ?p ?f ?w0] =>
      specialize (HC w0); destruct (s3.downloadFile u e r p f w0) as [[] w3|w3]
    end; try discriminate; injection H as <- <-; try discriminate.
    exact (HC w3 eq_refl).
  - destruct (_ =? backend.Version d); [injection H as <- <-; discriminate|].
    match type of H with context [s3.downloadFile ?u ?e ?r ?p ?f ?w0] =>
      specialize (HC w0); destruct (s3.downloadFile u e r p f w0) as [[] w3|w3]
    end; try discriminate; try (injection H as <- <-; discriminate).
    specialize (HC w3 eq_refl).
    destruct (marker_ok env); injection H as <- <-; cbn [files set_files add_event].
    + rewrite lookup_insert_ne by exact Hmarker. exact HC.
    + exact HC.
Qed.

Lemma s3_promoted_object_witness :
  files (final (s3.attempt "backup" None None sample_task.d
                           (sample_task.ok sample_task.manual) empty_world))
  !! final_name (S3 "backup" None None) sample_task.d "manual.pdf"
  = Some "%PDF-1.4".
Proof.
  assert (H : s3.attempt "backup" None None sample_task.d
                         (sample_task.ok sample_task.manual) empty_world
              = Done Downloaded
                     (final (s3.attempt "backup" None None sample_task.d
                                        (sample_task.ok sample_task.manual)
                                        empty_world)))
    by (vm_compute; reflexivity).
  refine (s3_promoted_object "backup" None None sample_task.d
            (sample_task.ok sample_task.manual) empty_world _ Downloaded
            sample_task.manual eq_refl H eq_refl _ _);
    intros E; vm_compute in E; discriminate E.
Defined.

(** C2.  The local backend opens the temporary file without truncating
    it.  The first pass receives four bytes, "AAAA", and then a stream
    error; it leaves them in the temporary file and promotes nothing.
    The second pass receives the complete body "BB", writes it over the
    beginning of the temporary file and renames: the file that gets the
    final name holds "BBAA", the two bytes of the successful pass and two
    bytes left over from the failed one. *)
Theorem local_tmp_not_truncated :
  (exists o w1,
      local.attempt "/home/u/GoG" (Some 0%nat) sample_task.d
                    (sample_task.broken_then_short 1) empty_world
      = Done o w1
      /\ continues o = true
      /\ files w1 !! "/home/u/GoG/Root/Extras/.f.tmp" = Some "AAAA"
      /\ files w1 !! "/home/u/GoG/Root/Extras/f" = None)
  /\ (exists w,
      local.task "/home/u/GoG" 3 (Some 0%nat) sample_task.d
                 sample_task.broken_then_short empty_world
      = Done [DownloadFailed; Downloaded] w
      /\ content sample_task.short = "BB"
      /\ files w !! "/home/u/GoG/Root/Extras/f" = Some "BBAA").
Proof.
  split.
  - eexists. eexists. split; [vm_compute; reflexivity|].
    split; [reflexivity|]. split; vm_compute; reflexivity.
  - eexists. split; [vm_compute; reflexivity|].
    split; vm_compute; reflexivity.
Qed.

(** ** Interruption *)

(** Once [generateGames] has returned it stays so, and nothing more is
    passed on. *)
Lemma returned_stays (catalog : Z -> option (list Z * Z)) (l : shutdown.label)
      (s s' : shutdown.state) :
  shutdown.walker s = shutdown.Returned ->
  shutdown.step catalog l s = Some s' ->
  shutdown.walker s' = shutdown.Returned /\ shutdown.sent s' = shutdown.sent s.
Proof.
  intros Hw H. unfold shutdown.step in H.
  destruct (shutdown.exited s); [discriminate|].
  destruct s as [h g p fc snt]. cbn in *. subst g.
  destruct l; cbn in H.
  - injection H as <-. now split.
  - destruct h; try discriminate; injection H as <-; now split.
  - destruct h, p; try discriminate; injection H as <-; now split.
  - discriminate.
  - discriminate.
  - destruct h; discriminate.
Qed.

(** While the handler waits to hand over [true] and the walker has
    returned, no step gets the handler any further. *)
Lemma stuck_step (catalog : Z -> option (list Z * Z)) (l : shutdown.label)
      (s s' : shutdown.state) :
  shutdown.walker s = shutdown.Returned ->
  shutdown.handler s = shutdown.AwaitSignal \/ shutdown.handler s = shutdown.SendFinished ->
  shutdown.step catalog l s = Some s' ->
  (shutdown.handler s' = shutdown.AwaitSignal \/ shutdown.handler s' = shutdown.SendFinished)
  /\ shutdown.finished_closed s' = shutdown.finished_closed s.
Proof.
  intros Hw Hh H. unfold shutdown.step in H.
  destruct (shutdown.exited s); [discriminate|].
  destruct s as [h g p fc snt]. cbn in *. subst g.
  destruct l; cbn in H.
  - injection H as <-. now split.
  - destruct Hh as [-> | ->]; discriminate.
  - destruct Hh as [-> | ->]; destruct p; try discriminate.
    injection H as <-. cbn. split; [now right|reflexivity].
  - discriminate.
  - discriminate.
  - destruct h; discriminate.
Qed.

(** C8.  If [generateGames] has returned before the first signal comes,
    the handler takes the signal and then waits for ever to hand [true]
    over on [finished], a channel without buffer that nobody reads any
    more.  Whatever follows, further signals included, the process does
    not exit, the channel is never closed and the timer is never
    started. *)
Theorem signals_ignored_after_walk (catalog : Z -> option (list Z * Z))
        (ls : list shutdown.label) (s s' : shutdown.state) :
  shutdown.walker s = shutdown.Returned ->
  shutdown.handler s = shutdown.AwaitSignal ->
  shutdown.steps catalog ls s = Some s' ->
  shutdown.exited s' = false
  /\ shutdown.finished_closed s' = shutdown.finished_closed s
  /\ shutdown.handler s' <> shutdown.AwaitSecond.
Proof.
  intros Hw Hh.
  assert (Hh' : shutdown.handler s = shutdown.AwaitSignal
                \/ shutdown.handler s = shutdown.SendFinished) by now left.
  clear Hh. revert s Hw Hh'.
  induction ls as [|l ls IH]; intros s Hw Hh H; cbn [shutdown.steps] in H.
  - injection H as <-. unfold shutdown.exited.
    destruct Hh as [-> | ->]; repeat split; discriminate.
  - destruct (shutdown.step catalog l s) as [s1|] eqn:E; [|discriminate].
    destruct (returned_stays _ _ _ _ Hw E) as [Hw1 _].
    destruct (stuck_step _ _ _ _ Hw Hh E) as [Hh1 Hc1].
    destruct (IH s1 Hw1 Hh1 H) as (He & Hc & Hn).
    repeat split; [exact He|congruence|exact Hn].
Qed.

(** The sample catalog: after its walk the walker has returned, the one
    product has been passed on, and two signals leave the process
    running with the handler at [finished <- true]. *)
Lemma signals_ignored_after_walk_witness :
  exists s s',
    shutdown.steps sample_catalog.GetFilteredProducts sample_catalog.walk shutdown.init
    = Some s
    /\ shutdown.sent s = [7%Z]
    /\ shutdown.steps sample_catalog.GetFilteredProducts sample_catalog.two_signals s
       = Some s'
    /\ shutdown.handler s' = shutdown.SendFinished
    /\ shutdown.pending s' = 2%nat
    /\ shutdown.exited s' = false.
Proof.
  eexists. eexists. split; [reflexivity|]. split; [reflexivity|].
  split; [reflexivity|]. split; [reflexivity|]. split; [reflexivity|].
  refine (proj1 (signals_ignored_after_walk sample_catalog.GetFilteredProducts
                   sample_catalog.two_signals
                   {| shutdown.handler := shutdown.AwaitSignal;
                      shutdown.walker := shutdown.Returned;
                      shutdown.pending := 0;
                      shutdown.finished_closed := false;
                      shutdown.sent := [7%Z] |}
                   _ eq_refl eq_refl eq_refl)).
Defined.

(** While the walker stands at its [select], the protocol works as the
    specification describes it: the first signal is handed over, the
    walker returns without passing the product on, [finished] is closed,
    and a second signal, or the timer, ends the process. *)
Lemma graceful_stop_while_emitting :
  let stop := [shutdown.WalkerStep; shutdown.Signal; shutdown.HandlerStep;
               shutdown.Rendezvous; shutdown.HandlerStep] in
  (exists s,
      shutdown.steps sample_catalog.GetFilteredProducts stop shutdown.init = Some s
      /\ shutdown.walker s = shutdown.Returned
      /\ shutdown.sent s = []
      /\ shutdown.finished_closed s = true
      /\ shutdown.exited s = false)
  /\ (exists s,
      shutdown.steps sample_catalog.GetFilteredProducts
                     (stop ++ [shutdown.Signal; shutdown.HandlerStep]) shutdown.init
      = Some s /\ shutdown.exited s = true)
  /\ (exists s,
      shutdown.steps sample_catalog.GetFilteredProducts
                     (stop ++ [shutdown.TimerFires]) shutdown.init
      = Some s /\ shutdown.exited s = true).
Proof.
  cbv zeta. split; [|split]; eexists; repeat split; reflexivity.
Qed.

(* ===================================================================== *)
(** * Part III: further properties of the code *)
(* ===================================================================== *)

(** ** [fetchDetails]: the tasks sent for a catalog *)

Lemma fold_send_extra (f : gog.File -> backend.GogFile) (l : list gog.File) (q : queues) :
  fold_left (fun q x => send_extra q (f x)) l q
  = append_queues q {| gameDownload := []; extraDownload := map f l |}.
Proof.
  revert q. induction l as [|x l IH]; intros q; cbn [fold_left map].
  - unfold append_queues. cbn. rewrite !app_nil_r. now destruct q.
  - rewrite IH. unfold append_queues, send_extra. cbn.
    now rewrite !app_nil_r, <- app_assoc.
Qed.

Lemma fold_send_game (f : gog.File -> backend.GogFile) (l : list gog.File) (q : queues) :
  fold_left (fun q x => send_game q (f x)) l q
  = append_queues q {| gameDownload := map f l; extraDownload := [] |}.
Proof.
  revert q. induction l as [|x l IH]; intros q; cbn [fold_left map].
  - unfold append_queues. cbn. rewrite !app_nil_r. now destruct q.
  - rewrite IH. unfold append_queues, send_game. cbn.
    now rewrite !app_nil_r, <- app_assoc.
Qed.

Lemma append_queues_assoc (q1 q2 q3 : queues) :
  append_queues (append_queues q1 q2) q3 = append_queues q1 (append_queues q2 q3).
Proof. unfold append_queues. cbn. now rewrite <- !app_assoc. Qed.

Lemma append_queues_no_tasks_l (q : queues) : append_queues no_tasks q = q.
Proof. now destruct q. Qed.

Lemma append_queues_no_tasks_r (q : queues) : append_queues q no_tasks = q.
Proof. destruct q. unfold append_queues. cbn. now rewrite !app_nil_r. Qed.

(** One iteration of the loop adds the extras tasks of the game to one
    queue and the tasks of its first download group to the other. *)
Lemma emit_spec (E : string) (LP LY R : string -> string)
      (path : string) (game : gog.GameDetails) (q : queues) :
  emit E LP LY R path game q
  = append_queues q {| gameDownload := files_here E LP LY R path game;
                       extraDownload := extras_here E LP LY path game |}.
Proof.
  unfold emit, files_here, extras_here. rewrite fold_send_extra.
  destruct (gog.Downloads game) as [|download rest].
  - reflexivity.
  - rewrite !fold_send_game, !append_queues_assoc. f_equal.
    unfold append_queues. cbn. now rewrite !app_nil_r.
Qed.

Lemma tree_tasks_unfold (here : string -> gog.GameDetails -> list backend.GogFile)
      (path : string) (g : gog.GameDetails) :
  tree_tasks here path g
  = (here path g ++ forest_tasks here path (gog.DLCs g))%list.
Proof.
  destruct g as [title extras downloads dlcs]. reflexivity.
Qed.

Lemma entries_tasks_dlc_entries (here : string -> gog.GameDetails -> list backend.GogFile)
      (path : string) (game : gog.GameDetails) :
  entries_tasks here (dlc_entries path game) = forest_tasks here path (gog.DLCs game).
Proof.
  unfold entries_tasks, dlc_entries, forest_tasks.
  induction (gog.DLCs game) as [|d l IH]; [reflexivity|].
  cbn [map flat_map Path Details]. now rewrite IH.
Qed.

Lemma slice_from_1_tail (s p : string) : slice_from_1 s = Some p -> p = tail_of s.
Proof. destruct s; [discriminate|]. cbn. congruence. Qed.

Lemma nth_error_skipn_nil {A : Type} (l : list A) (i : nat) :
  nth_error l i = None -> skipn i l = [].
Proof. intros H. apply skipn_all2. now apply nth_error_None. Qed.

(** What the loop over [games] adds to a queue: up to the order, the
    tasks of the games it has still to visit and of all their
    add-ons. *)
Lemma expand_tasks (E : string) (LP LY R : string -> string) :
  forall (fuel : nat) (games : list entry) (i : nat) (q q' : queues),
    expand E LP LY R fuel games i q = Ok q' ->
    extraDownload q'
    ≡ₚ extraDownload q ++ entries_tasks (extras_here E LP LY) (skipn i games)
    /\ gameDownload q'
       ≡ₚ gameDownload q ++ entries_tasks (files_here E LP LY R) (skipn i games).
Proof.
  induction fuel as [|fuel IH]; intros games i q q' H; [discriminate|].
  cbn [expand] in H. destruct (nth_error games i) as [e|] eqn:He.
  - destruct (slice_from_1 (Path e)) as [path|] eqn:Hp; [|discriminate].
    apply slice_from_1_tail in Hp. subst path.
    apply IH in H. destruct H as [HE HG].
    assert (Hi : (S i <= List.length games)%nat).
    { apply Nat.le_succ_l. apply nth_error_Some. congruence. }
    rewrite skipn_app_le in HE, HG by exact Hi.
    rewrite (skipn_nth_error _ _ _ He).
    unfold entries_tasks in *. rewrite flat_map_app in HE, HG.
    fold (entries_tasks (extras_here E LP LY) (dlc_entries (tail_of (Path e)) (Details e))) in HE.
    fold (entries_tasks (files_here E LP LY R) (dlc_entries (tail_of (Path e)) (Details e))) in HG.
    rewrite entries_tasks_dlc_entries in HE, HG.
    rewrite emit_spec in HE, HG. cbn [append_queues extraDownload gameDownload] in HE, HG.
    cbn [flat_map]. rewrite !tree_tasks_unfold.
    split.
    + rewrite HE. rewrite <- !app_assoc. apply Permutation_app_head.
      apply Permutation_app_head. apply Permutation_app_comm.
    + rewrite HG. rewrite <- !app_assoc. apply Permutation_app_head.
      apply Permutation_app_head. apply Permutation_app_comm.
  - injection H as <-. rewrite (nth_error_skipn_nil _ _ He).
    cbn. now rewrite !app_nil_r.
Qed.

(** What is sent before the loop does not matter to what the loop
    sends. *)
Lemma expand_frame (E : string) (LP LY R : string -> string) (q0 : queues) :
  forall (fuel : nat) (games : list entry) (i : nat) (q : queues),
    expand E LP LY R fuel games i (append_queues q0 q)
    = match expand E LP LY R fuel games i q with
      | Ok q' => Ok (append_queues q0 q')
      | Panicked => Panicked
      | OutOfFuel => OutOfFuel
      end.
Proof.
  induction fuel as [|fuel IH]; intros games i q; [reflexivity|].
  cbn [expand]. destruct (nth_error games i) as [e|]; [|reflexivity].
  destruct (slice_from_1 (Path e)) as [path|]; [|reflexivity].
  rewrite (emit_spec _ _ _ _ _ _ (append_queues q0 q)), append_queues_assoc.
  rewrite <- emit_spec. apply IH.
Qed.

(** The result of the loop does not depend on the step budget. *)
Lemma expand_fuel (E : string) (LP LY R : string -> string) :
  forall (f1 f2 : nat) (games : list entry) (i : nat) (q q1 q2 : queues),
    expand E LP LY R f1 games i q = Ok q1 ->
    expand E LP LY R f2 games i q = Ok q2 ->
    q1 = q2.
Proof.
  induction f1 as [|f1 IH]; intros [|f2] games i q q1 q2 H1 H2; try discriminate.
  cbn [expand] in H1, H2. destruct (nth_error games i) as [e|]; [|congruence].
  destruct (slice_from_1 (Path e)) as [path|]; [|discriminate].
  eapply IH; eauto.
Qed.

Lemma fetch_one_frame (E : string) (LP LY R : string -> string)
      (result : gog.GameDetails) (q : queues) :
  exists q1,
    fetch_one E LP LY R result no_tasks = Ok q1
    /\ fetch_one E LP LY R result q = Ok (append_queues q q1).
Proof.
  destruct (fetch_one_total E LP LY R result no_tasks) as [q1 H1].
  exists q1. split; [exact H1|].
  unfold fetch_one in *. rewrite <- (append_queues_no_tasks_r q) at 1.
  rewrite expand_frame. now rewrite H1.
Qed.

Lemma fetch_one_tasks (E : string) (LP LY R : string -> string)
      (result : gog.GameDetails) (q1 : queues) :
  fetch_one E LP LY R result no_tasks = Ok q1 ->
  extraDownload q1
  ≡ₚ tree_tasks (extras_here E LP LY) (safePath (gog.Title result)) result
  /\ gameDownload q1
     ≡ₚ tree_tasks (files_here E LP LY R) (safePath (gog.Title result)) result.
Proof.
  intros H. unfold fetch_one in H. apply expand_tasks in H.
  cbn in H. now rewrite !app_nil_r in H.
Qed.

Lemma fetchDetails_from_split (E : string) (LP LY R : string -> string)
      (client : Z -> option gog.GameDetails) :
  forall (ids : list Z) (q : queues),
    exists qs,
      Forall2 (fun g q1 => fetch_one E LP LY R g no_tasks = Ok q1)
              (fetched client ids) qs
      /\ fetchDetails_from E LP LY R client ids q
         = Ok (append_queues q (fold_right append_queues no_tasks qs)).
Proof.
  induction ids as [|id ids IH]; intros q; cbn [fetchDetails_from fetched].
  - exists []. split; [constructor|]. cbn. now rewrite append_queues_no_tasks_r.
  - destruct (client id) as [result|]; [|apply IH].
    destruct (fetch_one_frame E LP LY R result q) as (q1 & H1 & ->).
    destruct (IH (append_queues q q1)) as (qs & HF & ->).
    exists (q1 :: qs). split; [now constructor|].
    cbn [fold_right]. now rewrite append_queues_assoc.
Qed.

(** X2.  [fetchDetails] always comes to its end, and what it has sent is
    what it sends for each game the client answers for, one game after
    the other in the order the identifiers arrive; an identifier whose
    details cannot be fetched adds nothing. *)
Theorem fetchDetails_game_by_game (E : string) (LP LY R : string -> string)
        (client : Z -> option gog.GameDetails) (ids : list Z) :
  exists qs,
    Forall2 (fun g q1 => fetchDetails E LP LY R (fun _ => Some g) [0%Z] = Ok q1)
            (fetched client ids) qs
    /\ fetchDetails E LP LY R client ids = Ok (fold_right append_queues no_tasks qs).
Proof.
  destruct (fetchDetails_from_split E LP LY R client ids no_tasks) as (qs & HF & H).
  exists qs. split.
  - eapply Forall2_impl; [exact HF|]. intros g q1 Hg.
    unfold fetchDetails. cbn [fetchDetails_from]. fold no_tasks. now rewrite Hg.
  - unfold fetchDetails. fold no_tasks. rewrite H.
    now rewrite append_queues_no_tasks_l.
Qed.

Lemma queues_tasks (E : string) (LP LY R : string -> string)
      (games : list gog.GameDetails) (qs : list queues) :
  Forall2 (fun g q1 => fetch_one E LP LY R g no_tasks = Ok q1) games qs ->
  extraDownload (fold_right append_queues no_tasks qs)
  ≡ₚ flat_map (fun g => tree_tasks (extras_here E LP LY) (safePath (gog.Title g)) g) games
  /\ gameDownload (fold_right append_queues no_tasks qs)
     ≡ₚ flat_map (fun g => tree_tasks (files_here E LP LY R) (safePath (gog.Title g)) g)
                 games.
Proof.
  induction 1 as [|g q1 games qs Hg _ [IHE IHG]]; [now split|].
  destruct (fetch_one_tasks E LP LY R g q1 Hg) as [HE HG].
  cbn [fold_right flat_map append_queues extraDownload gameDownload].
  split; [now rewrite HE, IHE | now rewrite HG, IHG].
Qed.

(** X3.  Every extra of every fetched game and of every add-on, at any
    depth, gets one task on the extras queue, and every file of the first
    download group of each of them gets one task on the games queue; no
    other task is sent.  The destination of the tasks of an add-on is the
    path of the game it belongs to, a slash and the sanitized title of
    the add-on, without the first byte of the whole. *)
Theorem fetchDetails_tasks (E : string) (LP LY R : string -> string)
        (client : Z -> option gog.GameDetails) (ids : list Z) :
  exists q,
    fetchDetails E LP LY R client ids = Ok q
    /\ extraDownload q
       ≡ₚ flat_map (fun g => tree_tasks (extras_here E LP LY) (safePath (gog.Title g)) g)
                   (fetched client ids)
    /\ gameDownload q
       ≡ₚ flat_map (fun g => tree_tasks (files_here E LP LY R) (safePath (gog.Title g)) g)
                   (fetched client ids).
Proof.
  destruct (fetchDetails_from_split E LP LY R client ids no_tasks) as (qs & HF & H).
  rewrite append_queues_no_tasks_l in H.
  exists (fold_right append_queues no_tasks qs). split; [exact H|].
  now apply queues_tasks.
Qed.

Lemma ends_with_append (p suffix : string) : ends_with suffix (p ++ suffix).
Proof. now exists p. Qed.

Lemma extras_here_destination (E : string) (LP LY : string -> string)
      (path : string) (game : gog.GameDetails) :
  Forall extras_destination (extras_here E LP LY path game).
Proof.
  unfold extras_here. apply Forall_map. apply Forall_forall. intros x _.
  apply ends_with_append.
Qed.

Lemma files_here_destination (E : string) (LP LY R : string -> string)
      (path : string) (game : gog.GameDetails) :
  Forall platform_destination (files_here E LP LY R path game).
Proof.
  unfold files_here. destruct (gog.Downloads game) as [|download _]; [constructor|].
  rewrite !Forall_app. repeat split; apply Forall_map; apply Forall_forall; intros x _;
    unfold platform_destination; cbn [platform_task backend.File].
  - left. apply ends_with_append.
  - right; left. apply ends_with_append.
  - right; right. apply ends_with_append.
Qed.

Lemma expand_destinations (E : string) (LP LY R : string -> string) :
  forall (fuel : nat) (games : list entry) (i : nat) (q q' : queues),
    expand E LP LY R fuel games i q = Ok q' ->
    Forall extras_destination (extraDownload q) ->
    Forall platform_destination (gameDownload q) ->
    Forall extras_destination (extraDownload q')
    /\ Forall platform_destination (gameDownload q').
Proof.
  induction fuel as [|fuel IH]; intros games i q q' H HE HG; [discriminate|].
  cbn [expand] in H. destruct (nth_error games i) as [e|].
  - destruct (slice_from_1 (Path e)) as [path|]; [|discriminate].
    apply IH in H; [exact H| |]; rewrite emit_spec;
      cbn [append_queues extraDownload gameDownload]; apply Forall_app; split; trivial.
    + apply extras_here_destination.
    + apply files_here_destination.
  - injection H as <-. now split.
Qed.

(** X4.  The two queues are kept apart: the destination of every task
    sent on the extras queue ends in "/Extras", and the destination of
    every task sent on the games queue ends in "/Windows", "/Mac" or
    "/Linux". *)
Theorem fetchDetails_destinations (E : string) (LP LY R : string -> string)
        (client : Z -> option gog.GameDetails) (ids : list Z) :
  exists q,
    fetchDetails E LP LY R client ids = Ok q
    /\ Forall extras_destination (extraDownload q)
    /\ Forall platform_destination (gameDownload q).
Proof.
  destruct (fetchDetails_total E LP LY R client ids) as [q H].
  exists q. split; [exact H|].
  revert H. unfold fetchDetails.
  assert (H0 : Forall extras_destination (extraDownload no_tasks)
               /\ Forall platform_destination (gameDownload no_tasks))
    by (split; constructor).
  fold no_tasks. revert H0. generalize no_tasks as q0.
  induction ids as [|id ids IH]; intros q0 H0 H; cbn [fetchDetails_from] in H.
  - now injection H as <-.
  - destruct (client id) as [result|]; [|now apply (IH q0)].
    destruct (fetch_one E LP LY R result q0) as [q1| |] eqn:H1; try discriminate.
    apply (IH q1); [|exact H].
    unfold fetch_one in H1. now apply expand_destinations in H1.
Qed.

Lemma first_group_only_unfold (g : gog.GameDetails) :
  first_group_only g
  = gog.Game (gog.Title g) (gog.Extras g)
             (match gog.Downloads g with
              | [] => []
              | download :: _ => [download]
              end)
             (map first_group_only (gog.DLCs g)).
Proof. destruct g as [title extras downloads dlcs]. reflexivity. Qed.

Lemma emit_first_group_only (E : string) (LP LY R : string -> string)
      (path : string) (game : gog.GameDetails) (q : queues) :
  emit E LP LY R path (first_group_only game) q = emit E LP LY R path game q.
Proof.
  rewrite !emit_spec, first_group_only_unfold. f_equal.
  unfold files_here, extras_here, extra_task. cbn [gog.Downloads gog.Extras gog.Title].
  f_equal. now destruct (gog.Downloads game).
Qed.

Lemma dlc_entries_first_group_only (path : string) (game : gog.GameDetails) :
  dlc_entries path (first_group_only game)
  = map first_group_entry (dlc_entries path game).
Proof.
  rewrite first_group_only_unfold. unfold dlc_entries. cbn [gog.DLCs].
  rewrite !map_map. apply map_ext. intros d.
  unfold first_group_entry. cbn [Path Details].
  now rewrite (first_group_only_unfold d).
Qed.

Lemma expand_first_group_only (E : string) (LP LY R : string -> string) :
  forall (fuel : nat) (games : list entry) (i : nat) (q : queues),
    expand E LP LY R fuel (map first_group_entry games) i q
    = expand E LP LY R fuel games i q.
Proof.
  induction fuel as [|fuel IH]; intros games i q; [reflexivity|].
  cbn [expand]. rewrite nth_error_map.
  destruct (nth_error games i) as [e|]; [|reflexivity].
  cbn [option_map first_group_entry Path Details].
  destruct (slice_from_1 (Path e)) as [path|]; [|reflexivity].
  rewrite emit_first_group_only, dlc_entries_first_group_only, <- map_app.
  apply IH.
Qed.

Lemma fetch_one_first_group_only (E : string) (LP LY R : string -> string)
      (result : gog.GameDetails) (q : queues) :
  fetch_one E LP LY R (first_group_only result) q = fetch_one E LP LY R result q.
Proof.
  destruct (fetch_one_total E LP LY R (first_group_only result) q) as [q1 H1].
  destruct (fetch_one_total E LP LY R result q) as [q2 H2].
  rewrite H1, H2. f_equal.
  unfold fetch_one in H1, H2.
  replace (gog.Title (first_group_only result)) with (gog.Title result) in H1
    by now rewrite first_group_only_unfold.
  change [ {| Path := "/" ++ safePath (gog.Title result);
              Details := first_group_only result |} ]
    with (map first_group_entry
              [ {| Path := "/" ++ safePath (gog.Title result); Details := result |} ])
    in H1.
  rewrite expand_first_group_only in H1.
  eapply expand_fuel; eauto.
Qed.

(** X5.  Of the download groups of a game only the first is used, for
    the game and for every add-on at any depth: dropping all the other
    groups from what the client answers changes nothing in what is
    sent. *)
Theorem fetchDetails_first_group_only (E : string) (LP LY R : string -> string)
        (client : Z -> option gog.GameDetails) (ids : list Z) :
  fetchDetails E LP LY R (fun id => option_map first_group_only (client id)) ids
  = fetchDetails E LP LY R client ids.
Proof.
  unfold fetchDetails. generalize {| gameDownload := []; extraDownload := [] |}.
  induction ids as [|id ids IH]; intros q; cbn [fetchDetails_from]; [reflexivity|].
  destruct (client id) as [result|]; cbn [option_map]; [|apply IH].
  rewrite fetch_one_first_group_only.
  destruct (fetch_one E LP LY R result q); [apply IH|reflexivity|reflexivity].
Qed.

(** ** [generateGames]: the walk through the catalog *)

Lemma concat_skipn_nth_error {A : Type} (l : list (list A)) (k : nat) (x : list A) :
  nth_error l k = Some x -> concat (skipn k l) = (x ++ concat (skipn (S k) l))%list.
Proof. intros H. now rewrite (skipn_nth_error _ _ _ H). Qed.

(** From page [k] on, with [n] pages announced: the pages the client
    serves are walked in order; the walk ends after page [n], or at the
    first page that the client fails to serve. *)
Lemma generateGames_from (G : Z -> option (list Z * Z)) (served : list (list Z)) (n : Z) :
  (forall j products, nth_error served j = Some products ->
                      G (Z.of_nat j + 1)%Z = Some (products, n)) ->
  (Z.of_nat (List.length served) <= n)%Z ->
  ((Z.of_nat (List.length served) < n)%Z ->
   G (Z.of_nat (List.length served) + 1)%Z = None) ->
  forall (fuel k : nat),
    (k <= List.length served)%nat ->
    (List.length served - k < fuel)%nat ->
    generateGames G fuel (Z.of_nat k) n = Ok (concat (skipn k served)).
Proof.
  intros Hserved Hlen Hend.
  induction fuel as [|fuel IH]; intros k Hk Hfuel; [lia|].
  cbn [generateGames].
  destruct (Z.of_nat k <? n)%Z eqn:Hlt.
  - apply Z.ltb_lt in Hlt.
    destruct (nth_error served k) as [products|] eqn:Hp.
    + rewrite (Hserved k products Hp).
      assert (Hk' : (k < List.length served)%nat)
        by (apply nth_error_Some; congruence).
      replace (Z.of_nat k + 1)%Z with (Z.of_nat (S k)) by lia.
      rewrite IH by lia.
      now rewrite (concat_skipn_nth_error _ _ _ Hp).
    + apply nth_error_None in Hp.
      assert (k = List.length served) by lia. subst k.
      rewrite Hend by lia. now rewrite skipn_all.
  - apply Z.ltb_ge in Hlt.
    assert (k = List.length served) by lia. subst k.
    now rewrite skipn_all.
Qed.

(** X6.  When the client serves every page and each page announces the
    number of pages there are, [generateGames] passes on the products
    of all the pages, page by page, each page in the order the client
    gave, and returns. *)
Theorem generateGames_all_pages (G : Z -> option (list Z * Z))
        (served : list (list Z)) (fuel : nat) :
  served <> [] ->
  (forall j products, nth_error served j = Some products ->
                      G (Z.of_nat j + 1)%Z
                      = Some (products, Z.of_nat (List.length served))) ->
  (List.length served < fuel)%nat ->
  generateGames G fuel 0 1 = Ok (concat served).
Proof.
  intros Hne Hserved Hfuel.
  destruct served as [|first rest]; [congruence|].
  destruct fuel as [|fuel]; [lia|].
  cbn [generateGames]. change (0 <? 1)%Z with true. cbv iota.
  change (0 + 1)%Z with (Z.of_nat 0 + 1)%Z at 1.
  rewrite (Hserved 0%nat first eq_refl).
  change (0 + 1)%Z with (Z.of_nat 1).
  rewrite (generateGames_from G (first :: rest) _ Hserved (Z.le_refl _)
             ltac:(lia) fuel 1%nat)
    by (cbn [List.length] in *; lia).
  reflexivity.
Qed.

Lemma generateGames_all_pages_witness :
  generateGames sample_catalog.GetFilteredProducts 2 0 1 = Ok (concat [[7%Z]]).
Proof.
  apply (generateGames_all_pages sample_catalog.GetFilteredProducts [[7%Z]] 2).
  - discriminate.
  - intros [|[|j]] products H; try discriminate. now injection H as <-.
  - cbn. lia.
Defined.

(** X7.  When the client fails on a page, [generateGames] returns: what
    it has passed on is the products of the pages before, and the pages
    after the failing one are not asked for, however many were
    announced. *)
Theorem generateGames_stops_at_error (G : Z -> option (list Z * Z))
        (served : list (list Z)) (n : Z) (fuel : nat) :
  (forall j products, nth_error served j = Some products ->
                      G (Z.of_nat j + 1)%Z = Some (products, n)) ->
  (Z.of_nat (List.length served) < n)%Z ->
  G (Z.of_nat (List.length served) + 1)%Z = None ->
  (List.length served < fuel)%nat ->
  generateGames G fuel 0 1 = Ok (concat served).
Proof.
  intros Hserved Hlen Hnone Hfuel.
  destruct fuel as [|fuel]; [lia|].
  cbn [generateGames]. change (0 <? 1)%Z with true. cbv iota.
  destruct served as [|first rest].
  - change (G (0 + 1)%Z = None) in Hnone. now rewrite Hnone.
  - change (0 + 1)%Z with (Z.of_nat 0 + 1)%Z at 1.
    rewrite (Hserved 0%nat first eq_refl).
    change (0 + 1)%Z with (Z.of_nat 1).
    rewrite (generateGames_from G (first :: rest) n Hserved ltac:(lia)
               (fun _ => Hnone) fuel 1%nat)
      by (cbn [List.length] in *; lia).
    reflexivity.
Qed.

Lemma generateGames_stops_at_error_witness :
  generateGames (fun page => if (page =? 1)%Z then Some ([7%Z; 8%Z], 5%Z) else None)
                2 0 1
  = Ok (concat [[7%Z; 8%Z]]).
Proof.
  apply (generateGames_stops_at_error _ [[7%Z; 8%Z]] 5 2).
  - intros [|[|j]] products H; try discriminate. now injection H as <-.
  - cbn. lia.
  - reflexivity.
  - cbn. lia.
Defined.

(** ** [generateGames] and [signalHandler] together *)

Lemma steps_app (G : Z -> option (list Z * Z)) (l1 l2 : list shutdown.label)
      (s : shutdown.state) :
  shutdown.steps G (l1 ++ l2) s
  = match shutdown.steps G l1 s with
    | Some s' => shutdown.steps G l2 s'
    | None => None
    end.
Proof.
  revert s. induction l1 as [|l l1 IH]; intros s; [reflexivity|].
  cbn [app shutdown.steps]. destruct (shutdown.step G l s); [apply IH|reflexivity].
Qed.

(** The walker hands on the products of a page one by one and comes
    back to the loop test. *)
Lemma walk_products (G : Z -> option (list Z * Z)) (page totalPages : Z) :
  forall (products : list Z) (s : shutdown.state),
    shutdown.walker s = shutdown.Emit page totalPages products ->
    shutdown.exited s = false ->
    shutdown.steps G (walker_steps (S (List.length products))) s
    = Some {| shutdown.handler := shutdown.handler s;
              shutdown.walker := shutdown.LoopTest page totalPages;
              shutdown.pending := shutdown.pending s;
              shutdown.finished_closed := shutdown.finished_closed s;
              shutdown.sent := (rev products ++ shutdown.sent s)%list |}.
Proof.
  induction products as [|id rest IH]; intros s Hw He.
  - cbn [List.length walker_steps repeat shutdown.steps].
    unfold shutdown.step. rewrite He, Hw. reflexivity.
  - change (walker_steps (S (List.length (id :: rest))))
      with (shutdown.WalkerStep :: walker_steps (S (List.length rest))).
    cbn [shutdown.steps]. unfold shutdown.step at 1. rewrite He, Hw.
    rewrite IH; [|reflexivity|exact He].
    cbn [shutdown.handler shutdown.pending shutdown.finished_closed shutdown.sent rev].
    now rewrite <- app_assoc.
Qed.

Lemma walker_steps_add (n m : nat) :
  walker_steps (n + m) = (walker_steps n ++ walker_steps m)%list.
Proof. unfold walker_steps. apply repeat_app. Qed.

(** X8.  Left alone by the signal handler, the walker of the two
    goroutines passes on what [generateGames] passes on, in the same
    order, and returns. *)
Theorem walker_runs_generateGames (G : Z -> option (list Z * Z)) :
  forall (fuel : nat) (page totalPages : Z) (ids : list Z) (s : shutdown.state),
    generateGames G fuel page totalPages = Ok ids ->
    shutdown.walker s = shutdown.LoopTest page totalPages ->
    shutdown.exited s = false ->
    exists n,
      shutdown.steps G (walker_steps n) s
      = Some {| shutdown.handler := shutdown.handler s;
                shutdown.walker := shutdown.Returned;
                shutdown.pending := shutdown.pending s;
                shutdown.finished_closed := shutdown.finished_closed s;
                shutdown.sent := (rev ids ++ shutdown.sent s)%list |}.
Proof.
  induction fuel as [|fuel IH]; intros page totalPages ids s H Hw He;
    cbn [generateGames] in H;
    destruct (page <? totalPages)%Z eqn:Hlt; try discriminate.
  - injection H as <-. exists 1%nat. cbn [walker_steps repeat shutdown.steps].
    unfold shutdown.step. now rewrite He, Hw, Hlt.
  - destruct (G (page + 1)%Z) as [[products total]|] eqn:HG.
    + destruct (generateGames G fuel (page + 1) total) as [rest| |] eqn:Hrest;
        try discriminate.
      injection H as <-.
      pose (s1 := {| shutdown.handler := shutdown.handler s;
                     shutdown.walker := shutdown.Emit (page + 1) total products;
                     shutdown.pending := shutdown.pending s;
                     shutdown.finished_closed := shutdown.finished_closed s;
                     shutdown.sent := shutdown.sent s |}).
      assert (He1 : shutdown.exited s1 = false) by exact He.
      pose proof (walk_products G (page + 1) total products s1 eq_refl He1) as H1.
      cbn [s1 shutdown.handler shutdown.pending shutdown.finished_closed shutdown.sent]
        in H1.
      match type of H1 with _ = Some ?x => set (s2 := x) in * end.
      destruct (IH (page + 1)%Z total rest s2 Hrest eq_refl He) as [n Hn].
      assert (H0 : shutdown.steps G (walker_steps 1) s = Some s1).
      { cbn [walker_steps repeat shutdown.steps].
        unfold shutdown.step. now rewrite He, Hw, Hlt, HG. }
      exists (1 + (S (List.length products) + n))%nat.
      rewrite walker_steps_add, steps_app, H0.
      rewrite walker_steps_add, steps_app, H1, Hn.
      cbn [s2 shutdown.handler shutdown.pending shutdown.finished_closed shutdown.sent].
      now rewrite rev_app_distr, <- app_assoc.
    + injection H as <-. exists 1%nat. cbn [walker_steps repeat shutdown.steps].
      unfold shutdown.step. now rewrite He, Hw, Hlt, HG.
  - injection H as <-. exists 1%nat. cbn [walker_steps repeat shutdown.steps].
    unfold shutdown.step. now rewrite He, Hw, Hlt.
Qed.

Lemma walker_runs_generateGames_witness :
  exists n,
    shutdown.steps sample_catalog.GetFilteredProducts (walker_steps n) shutdown.init
    = Some {| shutdown.handler := shutdown.AwaitSignal;
              shutdown.walker := shutdown.Returned;
              shutdown.pending := 0;
              shutdown.finished_closed := false;
              shutdown.sent := [7%Z] |}.
Proof.
  exact (walker_runs_generateGames sample_catalog.GetFilteredProducts 2 0 1 [7%Z]
           shutdown.init eq_refl eq_refl eq_refl).
Defined.

Lemma init_coherent : coherent shutdown.init.
Proof. repeat split; cbn; [lia|discriminate]. Qed.

Lemma step_coherent (G : Z -> option (list Z * Z)) (l : shutdown.label)
      (s s' : shutdown.state) :
  coherent s -> shutdown.step G l s = Some s' -> coherent s'.
Proof.
  destruct s as [h wk p fc snt]. unfold coherent, handled, closed_by_handler, returned.
  cbn [shutdown.handler shutdown.walker shutdown.pending shutdown.finished_closed].
  intros (Hp & Hc & Hr) H. unfold shutdown.step, shutdown.exited in H.
  cbn [shutdown.handler shutdown.walker shutdown.pending shutdown.finished_closed
       shutdown.sent shutdown.with_handler shutdown.with_walker] in H.
  destruct h; try discriminate; destruct l; try discriminate;
    try (destruct p as [|p]; try discriminate);
    try (specialize (Hr eq_refl));
    try (destruct wk as [page total|page total [|id rest]|]; try discriminate);
    try (destruct fc; try discriminate);
    try (destruct (page <? total)%Z; [destruct (G (page + 1)%Z) as [[? ?]|]|]);
    try discriminate;
    injection H as <-; cbn; repeat split; trivial; try lia; try discriminate.
Qed.

Lemma steps_coherent (G : Z -> option (list Z * Z)) :
  forall (ls : list shutdown.label) (s s' : shutdown.state),
    coherent s -> shutdown.steps G ls s = Some s' -> coherent s'.
Proof.
  induction ls as [|l ls IH]; intros s s' Hs H; cbn [shutdown.steps] in H.
  - now injection H as <-.
  - destruct (shutdown.step G l s) as [s1|] eqn:E; [|discriminate].
    eapply IH; [|exact H]. eapply step_coherent; eauto.
Qed.

(** X9.  Whatever the two goroutines and the signals do from the start
    of [main]: the process is ended by the handler only after [finished]
    has been closed; [finished] is closed only after the walker has
    returned, so the walker never learns of the shutdown from the closed
    channel, only from the value handed to it; and no more than two
    signals ever wait. *)
Theorem shutdown_order (G : Z -> option (list Z * Z)) (ls : list shutdown.label)
        (s : shutdown.state) :
  shutdown.steps G ls shutdown.init = Some s ->
  (shutdown.exited s = true -> shutdown.finished_closed s = true)
  /\ (shutdown.finished_closed s = true -> shutdown.walker s = shutdown.Returned)
  /\ shutdown.step G shutdown.ReceiveClosed s = None
  /\ (shutdown.pending s <= 2)%nat.
Proof.
  intros H. apply (steps_coherent G ls _ _ init_coherent) in H.
  destruct s as [h wk p fc snt].
  unfold coherent, handled, closed_by_handler, returned in H.
  unfold shutdown.step, shutdown.exited.
  cbn [shutdown.handler shutdown.walker shutdown.pending shutdown.finished_closed] in *.
  destruct H as (Hp & -> & Hr).
  repeat split; trivial.
  - now destruct h.
  - intros Hc. destruct h; try discriminate; specialize (Hr eq_refl);
      now destruct wk.
  - destruct h; trivial; destruct wk as [? ?|? ? [|? ?]|]; trivial;
      now specialize (Hr eq_refl).
Qed.

Lemma shutdown_order_witness :
  exists s,
    shutdown.steps sample_catalog.GetFilteredProducts
                   (shutdown.WalkerStep :: graceful_stop ++ [shutdown.TimerFires])
                   shutdown.init = Some s
    /\ shutdown.exited s = true
    /\ shutdown.finished_closed s = true
    /\ shutdown.walker s = shutdown.Returned.
Proof.
  eexists. split; [reflexivity|]. split; [reflexivity|].
  pose proof (shutdown_order sample_catalog.GetFilteredProducts
                (shutdown.WalkerStep :: graceful_stop ++ [shutdown.TimerFires])
                _ eq_refl) as (H1 & H2 & _).
  split; [exact (H1 eq_refl) | exact (H2 (H1 eq_refl))].
Defined.

(** X10.  A signal that arrives while the walker stands at its
    [select] with a product in hand brings the handler to
    [finished <- true], and both cases of the [select] are then ready:
    the walker may still pass the product on.  When the [select] takes
    the receive, the value is handed over, the walker returns without
    passing the product on, [finished] is closed and the process keeps
    running; from there a second signal ends the process, and so does
    the timer. *)
Theorem graceful_stop_at_select (G : Z -> option (list Z * Z)) (s : shutdown.state) :
  at_select s = true ->
  shutdown.handler s = shutdown.AwaitSignal ->
  exists s0 s1,
    shutdown.steps G [shutdown.Signal; shutdown.HandlerStep] s = Some s0
    /\ shutdown.handler s0 = shutdown.SendFinished
    /\ shutdown.walker s0 = shutdown.walker s
    /\ is_Some (shutdown.step G shutdown.WalkerStep s0)
    /\ shutdown.steps G [shutdown.Rendezvous; shutdown.HandlerStep] s0 = Some s1
    /\ shutdown.steps G graceful_stop s = Some s1
    /\ shutdown.walker s1 = shutdown.Returned
    /\ shutdown.sent s1 = shutdown.sent s
    /\ shutdown.finished_closed s1 = true
    /\ shutdown.exited s1 = false
    /\ (exists s2, shutdown.steps G [shutdown.Signal; shutdown.HandlerStep] s1 = Some s2
                   /\ shutdown.exited s2 = true)
    /\ (exists s2, shutdown.steps G [shutdown.TimerFires] s1 = Some s2
                   /\ shutdown.exited s2 = true).
Proof.
  destruct s as [h wk p fc snt]. unfold at_select.
  cbn [shutdown.handler shutdown.walker]. intros Hw ->.
  destruct wk as [? ?|page total [|id rest]|]; try discriminate.
  eexists _, _. split; [reflexivity|].
  repeat split; try reflexivity; eexists; try split; reflexivity.
Qed.

Lemma graceful_stop_at_select_witness :
  exists s1,
    shutdown.steps sample_catalog.GetFilteredProducts graceful_stop
                   {| shutdown.handler := shutdown.AwaitSignal;
                      shutdown.walker := shutdown.Emit 1 1 [7%Z];
                      shutdown.pending := 0;
                      shutdown.finished_closed := false;
                      shutdown.sent := [] |}
    = Some s1
    /\ shutdown.walker s1 = shutdown.Returned
    /\ shutdown.sent s1 = [].
Proof.
  destruct (graceful_stop_at_select sample_catalog.GetFilteredProducts
              {| shutdown.handler := shutdown.AwaitSignal;
                 shutdown.walker := shutdown.Emit 1 1 [7%Z];
                 shutdown.pending := 0;
                 shutdown.finished_closed := false;
                 shutdown.sent := [] |} eq_refl eq_refl)
    as (s0 & s1 & _ & _ & _ & _ & _ & H1 & H2 & H3 & _).
  exists s1. split; [exact H1|]. split; [exact H2|exact H3].
Defined.

(** ** Workers: the retry loop and the loop over the tasks *)

Lemma handler_of_range (b : Backend) (retries : Z) (downloads : list backend.GogFile)
      (env : nat -> nat -> Env) :
  handler_of b retries downloads env
  = range_downloads (task_of b retries) env 0 downloads.
Proof. destruct b; reflexivity. Qed.








(** X12.  With [-retries] at zero or below no pass is made: the worker
    takes every task off its queue and does nothing for it, no
    connection, no read, no write. *)
Theorem no_retries_no_work (b : Backend) (retries : Z)
        (downloads : list backend.GogFile) (env : nat -> nat -> Env) (w : World) :
  (retries <= 0)%Z ->
  handler_of b retries downloads env w = Done (map (fun _ => []) downloads) w.
Proof.
  intros H. rewrite handler_of_range. generalize 0%nat as t.
  induction downloads as [|d ds IH]; intros t; cbn [range_downloads map]; [reflexivity|].
  unfold bind at 1. rewrite task_of_retry_loop.
  replace (Z.to_nat retries) with 0%nat by lia. cbn [retry_loop]. unfold ret at 1.
  unfold bind. now rewrite IH.
Qed.

Lemma no_retries_no_work_witness :
  handler_of (S3 "" None None) 0 [sample_task.d; sample_task.unversioned]
             (fun _ _ => sample_task.ok sample_task.manual) empty_world
  = Done [[]; []] empty_world.
Proof.
  apply (no_retries_no_work (S3 "" None None) 0
           [sample_task.d; sample_task.unversioned]).
  lia.
Defined.

(** ** Workers: what never panics *)

Lemma Read_readable (r : Reader) (n : nat) :
  readable r = true -> forall w, exists w', Read r n w = Done tt w'.
Proof.
  induction r as [|src|r IH bucket]; intros Hr w; cbn [readable] in Hr;
    [discriminate|eexists; reflexivity|].
  destruct bucket as [bk|]; [|discriminate].
  cbn [Read]. unfold bind. destruct (IH Hr w) as [w1 ->].
  destruct (n =? 0)%nat; eexists; reflexivity.
Qed.

Lemma copy_loop_readable (p : string) (reader : Reader) (rerr : bool) :
  readable reader = true ->
  forall (pieces : list string) (off : nat) (room : option nat) (w : World),
    exists e w', local.copy_loop p reader pieces rerr off room w = Done e w'.
Proof.
  intros Hr. induction pieces as [|c cs IH]; intros off room w; cbn [local.copy_loop].
  - unfold bind. destruct (Read_readable reader 0 Hr w) as [w1 ->].
    eexists _, _. reflexivity.
  - unfold bind at 1. destruct (Read_readable reader (String.length c) Hr w) as [w1 ->].
    destruct (String.length c =? 0)%nat; [apply IH|].
    unfold bind. destruct (Write_run p off room c w1) as (n & w2 & -> & _).
    cbn [snd fst]. destruct (n <? String.length c)%nat; [|apply IH].
    eexists _, _. reflexivity.
Qed.

Lemma local_downloadFile_readable (env : Env) (src : Source)
      (path filename : string) (w : World) :
  exists e w', local.downloadFile env (Body src) path filename w = Done e w'.
Proof.
  unfold local.downloadFile.
  destruct (filename =? ""); [eexists _, _; reflexivity|].
  unfold local.MkdirAll, local.OpenFile, local.io_Copy, local.Rename.
  cbn [local.source_of].
  unfold bind, emit_event, modify, ret.
  destruct (mkdir_ok env); [|eexists _, _; reflexivity].
  destruct (open_ok env); [|eexists _, _; reflexivity].
  match goal with
  | |- context [local.copy_loop ?p ?r ?ps ?re ?o ?rm ?w0] =>
      destruct (copy_loop_readable p r re eq_refl ps o rm w0) as (e & w1 & ->)
  end.
  destruct e; [eexists _, _; reflexivity|].
  destruct (rename_ok env); eexists _, _; reflexivity.
Qed.

Lemma read_all_readable (reader : Reader) :
  readable reader = true ->
  forall (pieces : list string) (w : World),
    exists w', s3.read_all reader pieces w = Done tt w'.
Proof.
  intros Hr. induction pieces as [|c cs IH]; intros w; cbn [s3.read_all].
  - apply Read_readable, Hr.
  - unfold bind. destruct (Read_readable reader (String.length c) Hr w) as [w1 ->].
    apply IH.
Qed.

Lemma s3_body_readable (up down : option nat) (src : Source) :
  readable (s3.body_of up (s3.reader_of down (Body src))) = true
  /\ s3.source_of (s3.body_of up (s3.reader_of down (Body src))) = Some src.
Proof. now destruct up, down. Qed.

Lemma s3_downloadFile_readable (up down : option nat) (env : Env) (src : Source)
      (basepath filename : string) (w : World) :
  exists e w',
    s3.downloadFile up env (s3.reader_of down (Body src)) basepath filename w
    = Done e w'.
Proof.
  unfold s3.downloadFile, s3.Upload, s3.CopyObject, s3.DeleteObject.
  destruct (s3_body_readable up down src) as [Hr ->].
  unfold bind at 1. unfold bind at 1.
  destruct (read_all_readable _ Hr (chunks src) w) as [w1 ->].
  unfold bind, emit_event, modify, ret.
  destruct (negb (read_err src) && upload_ok env); [|eexists _, _; reflexivity].
  destruct (copy_ok env); destruct (delete_ok env); eexists _, _; reflexivity.
Qed.

Lemma attempt_returns (b : Backend) (d : backend.GogFile) (env : Env) (w : World) :
  wraps_nil_bucket b = false ->
  exists o w', attempt_of b d env w = Done o w'.
Proof.
  intros Hb. destruct b as [targetDir [bk|]|prefix up down]; try discriminate;
    cbn [attempt_of].
  - rewrite local_attempt_unfold. cbv zeta. cbn [local.reader_of].
    destruct (response env) as [src|]; [|eexists _, _; reflexivity].
    destruct (backend.Version d =? "").
    + destruct (_ || _); [eexists _, _; reflexivity|].
      match goal with
      | |- context [local.downloadFile ?e (Body ?s) ?p ?f ?w0] =>
          destruct (local_downloadFile_readable e s p f w0) as (err & w1 & ->)
      end.
      destruct err; eexists _, _; reflexivity.
    + destruct (_ =? backend.Version d); [eexists _, _; reflexivity|].
      match goal with
      | |- context [local.downloadFile ?e (Body ?s) ?p ?f ?w0] =>
          destruct (local_downloadFile_readable e s p f w0) as (err & w1 & ->)
      end.
      destruct err; [eexists _, _; reflexivity|].
      destruct (marker_ok env); [|destruct (marker_left env)];
        eexists _, _; reflexivity.
  - rewrite s3_attempt_unfold. cbv zeta.
    destruct (response env) as [src|]; [|eexists _, _; reflexivity].
    destruct (backend.Version d =? "").
    + destruct (bool_decide _); [eexists _, _; reflexivity|].
      match goal with
      | |- context [s3.downloadFile ?u ?e (s3.reader_of ?dn (Body ?s)) ?p ?f ?w0] =>
          destruct (s3_downloadFile_readable u dn e s p f w0) as (err & w1 & ->)
      end.
      destruct err; eexists _, _; reflexivity.
    + destruct (_ =? backend.Version d); [eexists _, _; reflexivity|].
      match goal with
      | |- context [s3.downloadFile ?u ?e (s3.reader_of ?dn (Body ?s)) ?p ?f ?w0] =>
          destruct (s3_downloadFile_readable u dn e s p f w0) as (err & w1 & ->)
      end.
      destruct err; [eexists _, _; reflexivity|].
      destruct (marker_ok env); eexists _, _; reflexivity.
Qed.

Lemma retry_loop_returns (attempt : Env -> M Outcome) (env : nat -> Env) :
  (forall e w, exists o w', attempt e w = Done o w') ->
  forall (left i : nat) (w : World),
    exists os w', retry_loop attempt env left i w = Done os w'.
Proof.
  intros Hpass. induction left as [|left IH]; intros i w; cbn [retry_loop].
  - eexists _, _. reflexivity.
  - unfold bind at 1. destruct (Hpass (env i) w) as (o & w1 & ->).
    destruct (continues o); [|eexists _, _; reflexivity].
    unfold bind. destruct (IH (S i) w1) as (os & w2 & ->).
    eexists _, _. reflexivity.
Qed.

(** X14.  The worker of the object-store backend never waits on a nil
    bucket and never reads a nil body, and neither does the worker of the
    local backend when a download limit is set: whatever the source and
    the destination do, it does not panic, every task given to it is
    brought to an end, and the worker returns. *)
Theorem handler_returns (b : Backend) (retries : Z)
        (downloads : list backend.GogFile) (env : nat -> nat -> Env) (w : World) :
  wraps_nil_bucket b = false ->
  exists oss w',
    handler_of b retries downloads env w = Done oss w'
    /\ List.length oss = List.length downloads.
Proof.
  intros Hb. rewrite handler_of_range. generalize 0%nat as t. revert w.
  induction downloads as [|d ds IH]; intros w t; cbn [range_downloads].
  - eexists _, _. split; reflexivity.
  - unfold bind at 1. rewrite task_of_retry_loop.
    destruct (retry_loop_returns (attempt_of b d) (env t)
                (fun e w0 => attempt_returns b d e w0 Hb) (Z.to_nat retries) 1 w)
      as (os & w1 & ->).
    unfold bind. destruct (IH w1 (S t)) as (oss & w2 & -> & Hlen).
    eexists _, _. split; [reflexivity|]. cbn [List.length]. now rewrite Hlen.
Qed.

Lemma handler_returns_witness :
  exists oss w',
    handler_of (S3 "backup" (Some 1%nat) None) 3 [sample_task.d; sample_task.unversioned]
               (fun _ _ => sample_task.ok sample_task.broken) empty_world
    = Done oss w'
    /\ List.length oss = 2%nat.
Proof.
  exact (handler_returns (S3 "backup" (Some 1%nat) None) 3
           [sample_task.d; sample_task.unversioned]
           (fun _ _ => sample_task.ok sample_task.broken) empty_world eq_refl).
Defined.

Lemma retry_loop_shape (attempt : Env -> M Outcome) (env : nat -> Env) :
  forall (left i : nat) (w : World) (os : list Outcome) (w' : World),
    retry_loop attempt env left i w = Done os w' ->
    task_shape left os.
Proof.
  induction left as [|left IH]; intros i w os w' H; cbn [retry_loop] in H.
  - injection H as <- _. now apply (all_failed 0 []).
  - unfold bind at 1 in H. destruct (attempt (env i) w) as [o w1|w1]; [|discriminate].
    destruct (continues o) eqn:Ho.
    + unfold bind in H.
      destruct (retry_loop attempt env left (S i) w1) as [os1 w2|w2] eqn:H1;
        [|discriminate].
      injection H as <- _. apply IH in H1.
      destruct H1 as [failures Hf Hl|failures o' Hf Ho' Hl].
      * apply (all_failed (S left) (o :: failures)); cbn; [now rewrite Ho|lia].
      * apply (ended (S left) (o :: failures) o'); cbn; [now rewrite Ho|exact Ho'|lia].
    + injection H as <- _. apply (ended (S left) [] o); cbn; [reflexivity|exact Ho|lia].
Qed.

(** X15.  The passes of one task, counted by the connections made.
    There are never more than [-retries] allows.  When the worker
    returns from the task, it has made one pass for every outcome: every
    pass but the last has failed (no connection, or no complete
    transfer), the task ends with the first pass that does not fail, be
    it a skip, a download or a marker that could not be saved, and when
    every pass fails there are as many passes as [-retries] allows.  The
    worker panics during a task only in the local backend without a
    download limit, and then in a pass it has begun. *)
Theorem task_outcomes (b : Backend) (retries : Z) (d : backend.GogFile)
        (env : nat -> Env) (w : World) :
  let r := task_of b retries d env w in
  let n := passes (events_since w (final r)) in
  (n <= Z.to_nat retries)%nat
  /\ match r with
     | Done os _ => List.length os = n /\ task_shape (Z.to_nat retries) os
     | Crash _ => wraps_nil_bucket b = true /\ (1 <= n)%nat
     end.
Proof.
  cbv zeta. rewrite task_of_retry_loop.
  destruct (retry_loop_passes b d env (Z.to_nat retries) 1 w) as (dl & L & P & H).
  rewrite (events_since_ext _ _ _ L). split; [exact P|].
  destruct (retry_loop (attempt_of b d) env (Z.to_nat retries) 1 w) as [os w'|w'] eqn:E.
  - split; [exact H|]. eapply retry_loop_shape. exact E.
  - split; [|exact H].
    destruct (wraps_nil_bucket b) eqn:Hb; [reflexivity|].
    destruct (retry_loop_returns (attempt_of b d) env
                (fun e w0 => attempt_returns b d e w0 Hb) (Z.to_nat retries) 1 w)
      as (os & w2 & E2).
    congruence.
Qed.

(** ** Workers: the next run *)





(** ** The object-store backend: an upload that fails *)

Lemma read_all_files (reader : Reader) (pieces : list string) (w : World) :
  files (final (s3.read_all reader pieces w)) = files w.
Proof.
  destruct (read_all_evolves (fun _ => False) reader pieces w) as [H _].
  apply map_eq. intros q. apply H. tauto.
Qed.

Lemma s3_downloadFile_upload_failed (up down : option nat) (env : Env) (src : Source)
      (basepath filename : string) (w : World) :
  negb (read_err src) && upload_ok env = false ->
  exists w',
    s3.downloadFile up env (s3.reader_of down (Body src)) basepath filename w
    = Done true w'
    /\ files w' = files w.
Proof.
  intros Hok. unfold s3.downloadFile, s3.Upload.
  destruct (s3_body_readable up down src) as [Hr ->].
  unfold bind at 1. unfold bind at 1.
  pose proof (read_all_files (s3.body_of up (s3.reader_of down (Body src)))
                             (chunks src) w) as Hf.
  destruct (read_all_readable _ Hr (chunks src) w) as [w1 Hw1].
  rewrite Hw1 in Hf |- *. cbn [final] in Hf.
  rewrite Hok. unfold bind, emit_event, modify, ret.
  eexists. split; [reflexivity|exact Hf].
Qed.

(** X24.  In the object-store backend a pass whose upload fails, because
    the body breaks off or because the request is refused, leaves every
    object as it was: no temporary object, no final object and no marker
    comes of it, and the pass does not count as a download. *)
Theorem s3_failed_upload_leaves_nothing (prefix : string) (up down : option nat)
        (d : backend.GogFile) (env : Env) (w : World) (src : Source) :
  response env = Some src ->
  negb (read_err src) && upload_ok env = false ->
  exists o w',
    s3.attempt prefix up down d env w = Done o w'
    /\ promoted (Done o w') = false
    /\ files w' = files w.
Proof.
  intros Hsrc Hok. rewrite s3_attempt_unfold. cbv zeta. rewrite Hsrc.
  destruct (backend.Version d =? "").
  - destruct (bool_decide _); [eexists _, _; now repeat split|].
    match goal with
    | |- context [s3.downloadFile ?u ?e (s3.reader_of ?dn (Body ?s)) ?p ?f ?w0] =>
        destruct (s3_downloadFile_upload_failed u dn e s p f w0 Hok) as (w1 & -> & Hf)
    end.
    eexists _, _. split; [reflexivity|]. split; [reflexivity|exact Hf].
  - destruct (_ =? backend.Version d); [eexists _, _; now repeat split|].
    match goal with
    | |- context [s3.downloadFile ?u ?e (s3.reader_of ?dn (Body ?s)) ?p ?f ?w0] =>
        destruct (s3_downloadFile_upload_failed u dn e s p f w0 Hok) as (w1 & -> & Hf)
    end.
    eexists _, _. split; [reflexivity|]. split; [reflexivity|exact Hf].
Qed.

Lemma s3_failed_upload_leaves_nothing_witness :
  exists o w',
    s3.attempt "" None None sample_task.d (sample_task.ok sample_task.broken) empty_world
    = Done o w'
    /\ promoted (Done o w') = false
    /\ files w' = files empty_world.
Proof.
  exact (s3_failed_upload_leaves_nothing "" None None sample_task.d
           (sample_task.ok sample_task.broken) empty_world sample_task.broken
           eq_refl eq_refl).
Defined.

(** ** Workers: a marker that cannot be saved, a file that cannot be
    opened *)






(** X25.  In the local backend, when the directory cannot be made or the
    temporary file cannot be opened, the pass fails before anything is
    read from the body, and no file is created or changed. *)
Theorem local_cannot_open_leaves_nothing (targetDir : string) (bucket : option nat)
        (d : backend.GogFile) (env : Env) (w : World) (src : Source) :
  response env = Some src ->
  mkdir_ok env && open_ok env = false ->
  exists o w',
    local.attempt targetDir bucket d env w = Done o w'
    /\ promoted (Done o w') = false
    /\ files w' = files w
    /\ existsb is_net_read (events_since w w') = false.
Proof.
  intros Hsrc Hno. rewrite local_attempt_unfold. cbv zeta. rewrite Hsrc.
  assert (Hdl : forall path w0,
             exists dl w1,
               local.downloadFile env (local.reader_of bucket (Body src)) path
                                  (filename src) w0 = Done true w1
               /\ files w1 = files w0
               /\ log w1 = (dl ++ log w0)%list
               /\ existsb is_net_read dl = false).
  { intros path w0. unfold local.downloadFile.
    destruct (filename src =? ""); [now exists [], w0|].
    unfold local.MkdirAll, local.OpenFile, bind, emit_event, modify, ret.
    destruct (mkdir_ok env); [|eexists [_], _; now repeat split].
    cbn [andb] in Hno. rewrite Hno. eexists [_; _], _. now repeat split. }
  destruct (backend.Version d =? "").
  - destruct (_ || _).
    + eexists _, _. split; [reflexivity|]. since 3. now repeat split.
    + match goal with
      | |- context [local.downloadFile ?e ?r ?p ?f ?w0] =>
          destruct (Hdl p w0) as (dl & w1 & -> & Hf & Hl & Hn)
      end.
      eexists _, _. split; [reflexivity|]. split; [reflexivity|].
      split; [exact Hf|].
      match type of Hl with
      | _ = (dl ++ log (add_event ?e2 (add_event ?e1 w)))%list =>
          rewrite (events_since_ext w _ (EvClose :: dl ++ [e2; e1])%list)
      end.
      * cbn [existsb is_net_read orb]. rewrite existsb_app, Hn. reflexivity.
      * cbn [log add_event]. rewrite Hl. cbn [log add_event].
        rewrite <- app_comm_cons, <- app_assoc. reflexivity.
  - destruct (_ =? backend.Version d).
    + eexists _, _. split; [reflexivity|]. since 3. now repeat split.
    + match goal with
      | |- context [local.downloadFile ?e ?r ?p ?f ?w0] =>
          destruct (Hdl p w0) as (dl & w1 & -> & Hf & Hl & Hn)
      end.
      eexists _, _. split; [reflexivity|]. split; [reflexivity|].
      split; [exact Hf|].
      match type of Hl with
      | _ = (dl ++ log (add_event ?e2 (add_event ?e1 w)))%list =>
          rewrite (events_since_ext w _ (EvClose :: dl ++ [e2; e1])%list)
      end.
      * cbn [existsb is_net_read orb]. rewrite existsb_app, Hn. reflexivity.
      * cbn [log add_event]. rewrite Hl. cbn [log add_event].
        rewrite <- app_comm_cons, <- app_assoc. reflexivity.
Qed.

Lemma local_cannot_open_leaves_nothing_witness :
  exists o w',
    local.attempt "/home/u/GoG" None sample_task.d
                  (open_refused sample_task.manual) empty_world
    = Done o w'
    /\ promoted (Done o w') = false
    /\ files w' = files empty_world
    /\ existsb is_net_read (events_since empty_world w') = false.
Proof.
  exact (local_cannot_open_leaves_nothing "/home/u/GoG" None sample_task.d
           (open_refused sample_task.manual) empty_world sample_task.manual
           eq_refl eq_refl).
Defined.
